(** * Skeletal animation, skinning and texture resolution of the M2 viewer

    A shallow embedding of the animation helpers of [viewer-example.py]
    ([evaluate_track], [evaluate_bone_transform],
    [compute_deformed_positions]) and of its texture resolver
    ([_find_texture_files], [_resolve_texture_path], [_resolve_textures]),
    with the properties the specification states about them. *)

From Stdlib Require Import ZArith List Lia Bool Ascii String Sorted.
From Stdlib Require Import Floats QArith Qcanon.
From Stdlib Require Reals Lra.
From Equations Require Import Equations.
From stdpp Require Import gmap strings list fin_maps.

Local Open Scope Z_scope.

(** ** Python outcomes

    A call either returns a value or raises; the exceptions that can reach
    the functions below are the built-in ones of list indexing, tuple
    unpacking, integer division and directory access. *)

Inductive exn : Set :=
| IndexError
| ValueError
| ZeroDivisionError
| KeyError
| OSError.

Inductive res (A : Type) : Type :=
| Ok (a : A)
| Raise (e : exn).
Arguments Ok {A} a.
Arguments Raise {A} e.

#[global] Instance res_ret : MRet res := @Ok.
#[global] Instance res_bind : MBind res := fun A B f m =>
  match m with
  | Ok a => f a
  | Raise e => Raise e
  end.
#[global] Instance res_fmap : FMap res := fun A B f m =>
  match m with
  | Ok a => Ok (f a)
  | Raise e => Raise e
  end.

(** [len(l)] as a Python int. *)
Definition len {A} (l : list A) : Z := Z.of_nat (length l).

(** [l[i]]: a negative index counts from the end, an index outside
    [-len(l) .. len(l)-1] raises IndexError. *)
Definition getitem {A} (l : list A) (i : Z) : res A :=
  let j := if i <? 0 then i + len l else i in
  if j <? 0 then Raise IndexError
  else match l !! Z.to_nat j with
       | Some x => Ok x
       | None => Raise IndexError
       end.

(** [range(n)] *)
Definition range (n : nat) : list Z := Z.of_nat <$> seq 0 n.

(** [tuple(f(i) for i in its)], stopping at the first exception. *)
Fixpoint tuple_of {A} (f : Z -> res A) (its : list Z) : res (list A) :=
  match its with
  | [] => Ok []
  | i :: rest => x ← f i; xs ← tuple_of f rest; Ok (x :: xs)
  end.

(** ** Scalars

    The arithmetic of Python floats and of numpy's float64, as an interface:
    the skinning code needs the field operations only, the track evaluator
    also a square root, an order test and the constant [1e-10]. *)

Class Arith (F : Type) : Type := {
  of_int : Z -> F;
  fadd : F -> F -> F;
  fsub : F -> F -> F;
  fmul : F -> F -> F;
  fdiv : F -> F -> F;
  fneg : F -> F
}.

Class Scalar (F : Type) : Type := {
  scalar_arith :: Arith F;
  fsqrt : F -> F;
  fltb : F -> F -> bool;
  fis_zero : F -> bool;
  ftiny : F
}.

Declare Scope scalar_scope.
Delimit Scope scalar_scope with F.
Infix "+" := fadd : scalar_scope.
Infix "-" := fsub : scalar_scope.
Infix "*" := fmul : scalar_scope.
Infix "/" := fdiv : scalar_scope.
Notation "- x" := (fneg x) : scalar_scope.

(** IEEE 754 binary64, the arithmetic the program runs on.  [of_int] is
    Python's [float(z)] for the integers of the file format (it is exact
    below 2^53, and so is the quotient of two such integers rounded once). *)
#[global] Instance float_arith : Arith float := {
  of_int z :=
    match z with
    | Z0 => PrimFloat.zero
    | Zpos _ => PrimFloat.of_uint63 (Uint63.of_Z z)
    | Zneg p => PrimFloat.opp (PrimFloat.of_uint63 (Uint63.of_Z (Zpos p)))
    end;
  fadd := PrimFloat.add;
  fsub := PrimFloat.sub;
  fmul := PrimFloat.mul;
  fdiv := PrimFloat.div;
  fneg := PrimFloat.opp
}.

#[global] Instance float_scalar : Scalar float := {
  fsqrt := PrimFloat.sqrt;
  fltb := PrimFloat.ltb;
  fis_zero x := PrimFloat.eqb x PrimFloat.zero;
  ftiny := 0x1.b7cdfd9d7bdbbp-34%float
}.

(** Exact rationals. *)
#[global] Instance Qc_arith : Arith Qc := {
  of_int z := Q2Qc (inject_Z z);
  fadd := Qcplus;
  fsub := Qcminus;
  fmul := Qcmult;
  fdiv := Qcdiv;
  fneg := Qcopp
}.

(** ** Keyframe tracks *)

(** Modelled from the spec: the class [M2Track] of [wow_tools/m2_format.py],
    which is not among the sources, with the fields of the 28-byte track of
    the file format.  Ranges are pairs of unsigned 32-bit indices; a value
    is a tuple of floats (three for a vector, four for a quaternion
    [x, y, z, w]). *)
Record M2Track (F : Type) : Type := {
  interp_type : Z;
  global_seq : Z;
  ranges : list (N * N);
  timestamps : list Z;
  values : list (list F)
}.
Arguments interp_type {F} _.
Arguments global_seq {F} _.
Arguments ranges {F} _.
Arguments timestamps {F} _.
Arguments values {F} _.

(** The [while lo < hi - 1] loop of [evaluate_track]: halve the index
    interval until it brackets [global_time]. *)
Equations? bracket (ts : list Z) (global_time lo hi : Z) : res (Z * Z)
  by wf (Z.to_nat (hi - lo)) lt :=
  bracket ts global_time lo hi with decide (lo < hi - 1) := {
    | left _ with getitem ts ((lo + hi) / 2) := {
        | Raise e := Raise e
        | Ok ts_mid with decide (ts_mid <= global_time) := {
            | left _ := bracket ts global_time ((lo + hi) / 2) hi
            | right _ := bracket ts global_time lo ((lo + hi) / 2) } }
    | right _ := Ok (lo, hi) }.
Proof.
  all: Z.div_mod_to_equations; lia.
Qed.

(** [a / b] on Python ints: true division, a float. *)
Definition int_truediv `{Arith F} (a b : Z) : res F :=
  if b =? 0 then Raise ZeroDivisionError else Ok (of_int a / of_int b)%F.

(** [a / b] on Python floats. *)
Definition float_truediv `{Scalar F} (a b : F) : res F :=
  if fis_zero b then Raise ZeroDivisionError else Ok (a / b)%F.

(** [sum(xs)]: the accumulator starts at the int 0. *)
Definition py_sum `{Arith F} (xs : list F) : F := fold_left fadd xs (of_int 0).

Section Interpolation.
Context {F : Type} `{Scalar F}.

Definition _lerp (a b : list F) (t : F) : res (list F) :=
  tuple_of (fun i => ai ← getitem a i; bi ← getitem b i;
                     Ok (ai + (bi - ai) * t)%F)
           (range (length a)).

Definition _quat_dot (a b : list F) : res F :=
  py_sum <$> tuple_of (fun i => ai ← getitem a i; bi ← getitem b i;
                                Ok (ai * bi)%F)
                      (range 4).

Definition _nlerp (a b : list F) (t : F) : res (list F) :=
  d ← _quat_dot a b;
  b ← (if fltb d (of_int 0)
       then tuple_of (fun i => bi ← getitem b i; Ok (- bi)%F) (range 4)
       else Ok b);
  q ← _lerp a b t;
  let length := fsqrt (py_sum ((fun c => c * c)%F <$> q)) in
  if fltb length ftiny
  then Ok [of_int 0; of_int 0; of_int 0; of_int 1]
  else tuple_of (fun i => c ← getitem q i; float_truediv c length)
                (range (List.length q)).

(** Lines 350-356 of [evaluate_track]: the value between the bracketing
    keyframes [lo] and [hi]. *)
Definition sample_between (track : M2Track F) (is_quat : bool)
    (global_time lo hi : Z) : res (option (list F)) :=
  let ts := timestamps track in
  let vals := values track in
  hold ← (if interp_type track =? 0 then Ok true
          else ts_hi ← getitem ts hi; ts_lo ← getitem ts lo;
               Ok (ts_hi =? ts_lo));
  if hold : bool then Some <$> getitem vals lo
  else
    ts_lo ← getitem ts lo;
    ts_hi ← getitem ts hi;
    ts_lo' ← getitem ts lo;
    t ← int_truediv (global_time - ts_lo) (ts_hi - ts_lo');
    v_lo ← getitem vals lo;
    v_hi ← getitem vals hi;
    Some <$> (if is_quat then _nlerp v_lo v_hi t else _lerp v_lo v_hi t).

Definition evaluate_track (track : M2Track F) (anim_index time_ms : Z)
    (anim_duration : Z) (is_quat : bool) : res (option (list F)) :=
  match values track with
  | [] => Ok None
  | _ :: _ =>
    if anim_index <? len (ranges track) then
      r ← getitem (ranges track) anim_index;
      let start_idx := Z.of_N r.1 in
      let end_idx := Z.of_N r.2 in
      if (start_idx >=? end_idx) || (start_idx >=? len (timestamps track))
      then Ok None
      else
        let end_idx := Z.min end_idx (len (timestamps track)) in
        let ts := timestamps track in
        let vals := values track in
        base_time ← getitem ts start_idx;
        let global_time := base_time + time_ms in
        ts_start ← getitem ts start_idx;
        if global_time <=? ts_start then Some <$> getitem vals start_idx
        else
          ts_last ← getitem ts (end_idx - 1);
          if global_time >=? ts_last then Some <$> getitem vals (end_idx - 1)
          else
            lh ← bracket ts global_time start_idx (end_idx - 1);
            sample_between track is_quat global_time lh.1 lh.2
    else Ok None
  end.
End Interpolation.

(** ** Matrices

    numpy's 4x4 [float64] arrays, row by row, and the array operations the
    bone code uses on them.  A dot product is summed from left to right;
    numpy leaves the order open, and no property below depends on it. *)

Section Matrices.
Context {F : Type} `{Arith F}.

Definition vec3 : Type := F * F * F.
Definition vec4 : Type := F * F * F * F.
Definition mat3 : Type := vec3 * vec3 * vec3.
Definition mat4 : Type := vec4 * vec4 * vec4 * vec4.

Definition f0 : F := of_int 0.
Definition f1 : F := of_int 1.

(** [np.eye(4)] *)
Definition eye4 : mat4 :=
  ((f1, f0, f0, f0), (f0, f1, f0, f0), (f0, f0, f1, f0), (f0, f0, f0, f1)).

(** [np.zeros(3)] *)
Definition zeros3 : vec3 := (f0, f0, f0).

(** A sequence assigned to a slice of three cells: three items, or one
    item broadcast to the three cells; any other length is a ValueError. *)
Definition as_vec3 (v : list F) : res vec3 :=
  match v with
  | [x] => Ok (x, x, x)
  | [x; y; z] => Ok (x, y, z)
  | _ => Raise ValueError
  end.

(** [m[:3, 3] = v] *)
Definition set_col3 (m : mat4) (v : vec3) : mat4 :=
  let '((a00, a01, a02, _), (a10, a11, a12, _),
        (a20, a21, a22, _), r3) := m in
  let '(x, y, z) := v in
  ((a00, a01, a02, x), (a10, a11, a12, y), (a20, a21, a22, z), r3).

(** [m[0, 0] = x; m[1, 1] = y; m[2, 2] = z] *)
Definition set_diag3 (m : mat4) (x y z : F) : mat4 :=
  let '((_, a01, a02, a03), (a10, _, a12, a13),
        (a20, a21, _, a23), r3) := m in
  ((x, a01, a02, a03), (a10, y, a12, a13), (a20, a21, z, a23), r3).

(** [m[:3, :3] = r] *)
Definition set_block3 (m : mat4) (r : mat3) : mat4 :=
  let '((_, _, _, a03), (_, _, _, a13), (_, _, _, a23), r3) := m in
  let '((r00, r01, r02), (r10, r11, r12), (r20, r21, r22)) := r in
  ((r00, r01, r02, a03), (r10, r11, r12, a13), (r20, r21, r22, a23), r3).

Definition dot4 (a b : vec4) : F :=
  let '(a0, a1, a2, a3) := a in
  let '(b0, b1, b2, b3) := b in
  (a0 * b0 + a1 * b1 + a2 * b2 + a3 * b3)%F.

Definition col (m : mat4) (k : nat) : vec4 :=
  let '((a00, a01, a02, a03), (a10, a11, a12, a13),
        (a20, a21, a22, a23), (a30, a31, a32, a33)) := m in
  match k with
  | 0%nat => (a00, a10, a20, a30)
  | 1%nat => (a01, a11, a21, a31)
  | 2%nat => (a02, a12, a22, a32)
  | _ => (a03, a13, a23, a33)
  end.

(** [m @ v] for a 4-vector *)
Definition matvec (m : mat4) (v : vec4) : vec4 :=
  let '(r0, r1, r2, r3) := m in
  (dot4 r0 v, dot4 r1 v, dot4 r2 v, dot4 r3 v).

Definition row_mul (r : vec4) (b : mat4) : vec4 :=
  (dot4 r (col b 0), dot4 r (col b 1), dot4 r (col b 2), dot4 r (col b 3)).

(** [a @ b] *)
Definition matmul (a b : mat4) : mat4 :=
  let '(r0, r1, r2, r3) := a in
  (row_mul r0 b, row_mul r1 b, row_mul r2 b, row_mul r3 b).

(** [v[:3]] *)
Definition take3 (v : vec4) : vec3 := let '(x, y, z, _) := v in (x, y, z).

Definition vscale3 (k : F) (v : vec3) : vec3 :=
  let '(x, y, z) := v in (k * x, k * y, k * z)%F.

Definition vadd3 (a b : vec3) : vec3 :=
  let '(a0, a1, a2) := a in
  let '(b0, b1, b2) := b in
  (a0 + b0, a1 + b1, a2 + b2)%F.

Definition vneg3 (v : vec3) : vec3 :=
  let '(x, y, z) := v in (- x, - y, - z)%F.

(** [_quat_to_matrix]: the rotation matrix of a quaternion [(x, y, z, w)]. *)
Definition _quat_to_matrix (q : list F) : res mat3 :=
  match q with
  | [x; y; z; w] =>
    let xx := (x * x)%F in let yy := (y * y)%F in let zz := (z * z)%F in
    let xy := (x * y)%F in let xz := (x * z)%F in let yz := (y * z)%F in
    let wx := (w * x)%F in let wy := (w * y)%F in let wz := (w * z)%F in
    let two := of_int 2 in
    Ok ((f1 - two * (yy + zz), two * (xy - wz), two * (xz + wy)),
        (two * (xy + wz), f1 - two * (xx + zz), two * (yz - wx)),
        (two * (xz - wy), two * (yz + wx), f1 - two * (xx + yy)))%F
  | _ => Raise ValueError
  end.
End Matrices.

Arguments vec3 F : clear implicits.
Arguments vec4 F : clear implicits.
Arguments mat3 F : clear implicits.
Arguments mat4 F : clear implicits.

Infix "@" := matmul (at level 40, left associativity) : scalar_scope.

(** ** Bones *)

(** Modelled from the spec: the bone class of [wow_tools/m2_format.py]
    ([M2CompBone] of the file format), which is not among the sources;
    [parent] is a signed 16-bit index, -1 for a root. *)
Record Bone (F : Type) : Type := {
  key_bone_id : Z;
  parent : Z;
  translation : M2Track F;
  rotation : M2Track F;
  scale : M2Track F;
  pivot : list F
}.
Arguments key_bone_id {F} _.
Arguments parent {F} _.
Arguments translation {F} _.
Arguments rotation {F} _.
Arguments scale {F} _.
Arguments pivot {F} _.

Section BoneTransform.
Context {F : Type} `{Scalar F}.

(** The per-frame cache argument: [None] for Python's [None], otherwise
    the dict from bone index to world matrix. *)
Definition cache_t : Type := option (gmap Z (mat4 F)).

Definition cache_get (cache : cache_t) (bone_index : Z) : option (mat4 F) :=
  c ← cache; c !! bone_index.

Definition cache_put (cache : cache_t) (bone_index : Z) (world : mat4 F)
    : cache_t :=
  (fun c => <[bone_index := world]> c) <$> cache.

(** [cache = {}] *)
Definition empty_cache : cache_t := Some ∅.

(** Lines 365-383 of [evaluate_bone_transform]: the bone's local matrix. *)
Definition local_transform (bone : Bone F)
    (anim_index time_ms anim_duration : Z) : res (mat4 F) :=
  trans ← evaluate_track (translation bone) anim_index time_ms anim_duration false;
  rot ← evaluate_track (rotation bone) anim_index time_ms anim_duration true;
  scl ← evaluate_track (scale bone) anim_index time_ms anim_duration false;
  pivot ← as_vec3 (pivot bone);
  let t_neg_pivot := set_col3 eye4 (vneg3 pivot) in
  s_mat ← match scl with
          | Some scl =>
            s0 ← getitem scl 0; s1 ← getitem scl 1; s2 ← getitem scl 2;
            Ok (set_diag3 eye4 s0 s1 s2)
          | None => Ok eye4
          end;
  r_mat ← match rot with
          | Some rot => set_block3 eye4 <$> _quat_to_matrix rot
          | None => Ok eye4
          end;
  t_trans ← match trans with
            | Some trans => set_col3 eye4 <$> as_vec3 trans
            | None => Ok eye4
            end;
  let t_pivot := set_col3 eye4 pivot in
  Ok (t_pivot @ t_trans @ r_mat @ s_mat @ t_neg_pivot)%F.

(** [evaluate_bone_transform]; [fuel] bounds the depth of the recursion
    over parents, [None] is a recursion that did not end within it. *)
Fixpoint evaluate_bone_transform (fuel : nat) (bones : list (Bone F))
    (bone_index anim_index time_ms anim_duration : Z) (cache : cache_t)
    : option (res (mat4 F) * cache_t) :=
  match fuel with
  | O => None
  | S fuel =>
    match cache_get cache bone_index with
    | Some world => Some (Ok world, cache)
    | None =>
      match bone ← getitem bones bone_index;
            local ← local_transform bone anim_index time_ms anim_duration;
            Ok (bone, local) with
      | Raise e => Some (Raise e, cache)
      | Ok (bone, local) =>
        if parent bone >=? 0 then
          match evaluate_bone_transform fuel bones (parent bone) anim_index
                  time_ms anim_duration cache with
          | None => None
          | Some (Raise e, cache) => Some (Raise e, cache)
          | Some (Ok parent_mat, cache) =>
            let world := (parent_mat @ local)%F in
            Some (Ok world, cache_put cache bone_index world)
          end
        else Some (Ok local, cache_put cache bone_index local)
      end
    end
  end.
End BoneTransform.

(** ** Skinning *)

(** Modelled from the spec: the vertex, animation, texture and model
    classes of [wow_tools/m2_format.py], which is not among the sources,
    with the fields the functions below read.  A vertex has a position,
    four unsigned 8-bit bone weights and four unsigned 8-bit bone indices
    (its normal and texture coordinates play no part in the deformation). *)
Record Vertex (F : Type) : Type := {
  pos : list F;
  bone_weights : list N;
  bone_indices : list N
}.
Arguments pos {F} _.
Arguments bone_weights {F} _.
Arguments bone_indices {F} _.

(** An animation sequence: its length in milliseconds. *)
Record Animation : Type := { duration : Z }.

(** A declared texture: its type tag and its embedded path (empty for a
    replaceable texture). *)
Record Texture : Type := {
  tex_type : Z;
  filename : string
}.

Record M2File (F : Type) : Type := {
  name : string;
  vertices : list (Vertex F);
  bones : list (Bone F);
  animations : list Animation;
  textures : list Texture
}.
Arguments name {F} _.
Arguments vertices {F} _.
Arguments bones {F} _.
Arguments animations {F} _.
Arguments textures {F} _.

Section Skinning.
Context {F : Type} `{Arith F}.

(** One round of the [for j in range(4)] loop over the weight slots. *)
Definition skin_slot (bone_matrices : list (mat4 F)) (v : Vertex F)
    (p : vec4 F) (deformed : vec3 F) (j : Z) : res (vec3 F) :=
  w ← getitem (bone_weights v) j;
  if (w =? 0)%N then Ok deformed
  else
    bi ← getitem (bone_indices v) j;
    if Z.of_N bi <? len bone_matrices then
      m ← getitem bone_matrices (Z.of_N bi);
      let transformed := matvec m p in
      Ok (vadd3 deformed
            (vscale3 (of_int (Z.of_N w) / of_int 255)%F (take3 transformed)))
    else Ok deformed.

Fixpoint skin_slots (bone_matrices : list (mat4 F)) (v : Vertex F)
    (p : vec4 F) (deformed : vec3 F) (js : list Z) : res (vec3 F) :=
  match js with
  | [] => Ok deformed
  | j :: js =>
    deformed ← skin_slot bone_matrices v p deformed j;
    skin_slots bone_matrices v p deformed js
  end.

(** The body of the [for vi in range(n_verts)] loop of
    [compute_deformed_positions]: the deformed position of one vertex. *)
Definition skin_vertex (bone_matrices : list (mat4 F)) (v : Vertex F)
    : res (vec3 F) :=
  x ← getitem (pos v) 0; y ← getitem (pos v) 1; z ← getitem (pos v) 2;
  skin_slots bone_matrices v (x, y, z, of_int 1) zeros3 (range 4).

Fixpoint skin_vertices (bone_matrices : list (mat4 F))
    (vs : list (Vertex F)) : res (list (vec3 F)) :=
  match vs with
  | [] => Ok []
  | v :: vs =>
    d ← skin_vertex bone_matrices v;
    ds ← skin_vertices bone_matrices vs;
    Ok (d :: ds)
  end.
End Skinning.

Section Deformation.
Context {F : Type} `{Scalar F}.

(** The [for bi in range(len(m2.bones))] loop: one world matrix per bone,
    through a cache shared by the whole pass. *)
Fixpoint bone_pass (fuel : nat) (bones : list (Bone F))
    (anim_index time_ms anim_duration : Z) (cache : cache_t)
    (bis : list Z) : option (res (list (mat4 F))) :=
  match bis with
  | [] => Some (Ok [])
  | bi :: bis =>
    match evaluate_bone_transform fuel bones bi anim_index time_ms
            anim_duration cache with
    | None => None
    | Some (Raise e, _) => Some (Raise e)
    | Some (Ok mat, cache) =>
      match bone_pass fuel bones anim_index time_ms anim_duration cache bis with
      | None => None
      | Some (Raise e) => Some (Raise e)
      | Some (Ok mats) => Some (Ok (mat :: mats))
      end
    end
  end.

(** Lines 400-408 of [compute_deformed_positions]: the bone matrices of
    the frame. *)
Definition frame_bone_matrices (fuel : nat) (m2 : M2File F)
    (anim_index time_ms : Z) : option (res (list (mat4 F))) :=
  match (if anim_index <? len (animations m2)
         then duration <$> getitem (animations m2) anim_index
         else Ok 0) with
  | Raise e => Some (Raise e)
  | Ok anim_duration =>
    bone_pass fuel (bones m2) anim_index time_ms anim_duration
      empty_cache (range (length (bones m2)))
  end.

Definition compute_deformed_positions (fuel : nat) (m2 : M2File F)
    (anim_index time_ms : Z) : option (res (list (vec3 F))) :=
  match frame_bone_matrices fuel m2 anim_index time_ms with
  | None => None
  | Some (Raise e) => Some (Raise e)
  | Some (Ok bone_matrices) => Some (skin_vertices bone_matrices (vertices m2))
  end.
End Deformation.

(** ** Strings and paths

    Python [str] methods on strings of code points below 256, and the part
    of [pathlib]'s POSIX paths the resolver uses. *)

Local Open Scope string_scope.

Definition lower_ascii (c : ascii) : ascii :=
  let n := N_of_ascii c in
  if ((65 <=? n) && (n <=? 90) ||
      (192 <=? n) && (n <=? 222) && negb (n =? 215))%N
  then ascii_of_N (n + 32) else c.

(** [s.lower()] *)
Fixpoint lower (s : string) : string :=
  match s with
  | EmptyString => EmptyString
  | String c s => String (lower_ascii c) (lower s)
  end.

(** [s.startswith(p)] and [s.endswith(p)] *)
Definition startswith (s p : string) : bool := String.prefix p s.
Definition endswith (s p : string) : bool :=
  String.prefix (String.rev p) (String.rev s).

(** [s[n:]] and [s[:-n]] for [n > 0] *)
Definition slice_from (n : nat) (s : string) : string :=
  substring n (String.length s - n) s.
Definition slice_to_last (n : nat) (s : string) : string :=
  substring 0 (String.length s - n) s.

(** [s.rfind(c)], with [None] for -1; [i] is the index of the head of [s]. *)
Fixpoint rfind_from (c : ascii) (s : string) (i : nat) : option nat :=
  match s with
  | EmptyString => None
  | String a s =>
    match rfind_from c s (S i) with
    | Some k => Some k
    | None => if Ascii.eqb a c then Some i else None
    end
  end.
Definition rfind (c : ascii) (s : string) : option nat := rfind_from c s 0.

(** [s.replace(a, b)] for single characters *)
Fixpoint replace_char (a b : ascii) (s : string) : string :=
  match s with
  | EmptyString => EmptyString
  | String c s => String (if Ascii.eqb c a then b else c) (replace_char a b s)
  end.

(** [s.split(sep)]; [cur] is the piece being read, reversed. *)
Fixpoint split_go (sep : ascii) (cur : string) (s : string) : list string :=
  match s with
  | EmptyString => [String.rev cur]
  | String c s =>
    if Ascii.eqb c sep then String.rev cur :: split_go sep EmptyString s
    else split_go sep (String c cur) s
  end.
Definition split (sep : ascii) (s : string) : list string :=
  split_go sep EmptyString s.

Fixpoint lstrip (p : ascii -> bool) (s : string) : string :=
  match s with
  | EmptyString => EmptyString
  | String c s' => if p c then lstrip p s' else s
  end.

(** [s.strip(chars)] for the characters that satisfy [p] *)
Definition strip (p : ascii -> bool) (s : string) : string :=
  String.rev (lstrip p (String.rev (lstrip p s))).

(** The characters [str.strip()] removes. *)
Definition is_whitespace (c : ascii) : bool :=
  let n := N_of_ascii c in
  ((9 <=? n) && (n <=? 13) || (28 <=? n) && (n <=? 32) ||
   (n =? 133) || (n =? 160))%N.

Definition is_nul (c : ascii) : bool := (N_of_ascii c =? 0)%N.

(** A POSIX path: whether it starts at the root, and its components. *)
Record Path : Type := {
  anchored : bool;
  parts : list string
}.

#[global] Instance Path_eq_dec : EqDecision Path.
Proof. solve_decision. Defined.

(** [Path(s)]: empty and [.] components are dropped. *)
Definition Path_of (s : string) : Path :=
  {| anchored := startswith s "/";
     parts := filter (fun c => c <> "" /\ c <> ".") (split "/" s) |}.

(** [p.name] *)
Definition path_name (p : Path) : string := List.last (parts p) "".

(** [p.parent] *)
Definition path_parent (p : Path) : Path :=
  {| anchored := anchored p; parts := removelast (parts p) |}.

(** [p.parents], nearest first *)
Definition path_parents (p : Path) : list Path :=
  (fun k => {| anchored := anchored p; parts := take k (parts p) |})
    <$> rev (seq 0 (length (parts p))).

(** [p / s] *)
Definition path_join (p : Path) (s : string) : Path :=
  let q := Path_of s in
  if anchored q then q
  else {| anchored := anchored p; parts := parts p ++ parts q |}.

(** The child [p / entry] that [p.iterdir()] yields for a directory entry. *)
Definition path_child (p : Path) (entry : string) : Path :=
  {| anchored := anchored p; parts := parts p ++ [entry] |}.

(** [p.suffix] and [p.stem] *)
Definition path_suffix (p : Path) : string :=
  let name := path_name p in
  match rfind "." name with
  | Some i =>
    if ((0 <? i) && (i <? String.length name - 1))%nat
    then slice_from i name else ""
  | None => ""
  end.

Definition path_stem (p : Path) : string :=
  let name := path_name p in
  match rfind "." name with
  | Some i =>
    if ((0 <? i) && (i <? String.length name - 1))%nat
    then substring 0 i name else name
  | None => name
  end.

(** The order of paths: component by component, the root first. *)
Fixpoint parts_leb (a b : list string) : bool :=
  match a, b with
  | [], _ => true
  | _ :: _, [] => false
  | x :: a, y :: b =>
    match String.compare x y with
    | Lt => true
    | Gt => false
    | Eq => parts_leb a b
    end
  end.

Definition path_cparts (p : Path) : list string :=
  (if anchored p then ["/"] else []) ++ parts p.

Definition path_leb (p q : Path) : bool :=
  parts_leb (path_cparts p) (path_cparts q).

(** [sorted(xs)] for the order [leb]: a stable insertion sort. *)
Fixpoint insert_sorted {A} (leb : A -> A -> bool) (x : A) (l : list A) : list A :=
  match l with
  | [] => [x]
  | y :: l' => if leb x y then x :: l else y :: insert_sorted leb x l'
  end.

Definition sorted {A} (leb : A -> A -> bool) (l : list A) : list A :=
  foldr (insert_sorted leb) [] l.

(** [sorted(xs, reverse=True)] *)
Definition sorted_reverse {A} (leb : A -> A -> bool) (l : list A) : list A :=
  sorted (fun x y => leb y x) l.

(** What the resolver observes of the file system.  Each of the three
    calls can raise [OSError]: [iterdir] on a directory that is missing or
    cannot be listed, [is_dir] and [exists] on every failure of [stat]
    that [pathlib] does not take for "not there" (a refused permission, a
    name that is too long). *)
Record FileSystem : Type := {
  is_dir : Path -> res bool;
  iterdir : Path -> res (list string);
  path_exists : Path -> res bool
}.

(** [d[k]] on a dict *)
Definition dict_get `{Countable K} {V} (d : gmap K V) (k : K) : res V :=
  match d !! k with
  | Some v => Ok v
  | None => Raise KeyError
  end.

(** ** Texture resolution *)

(** The state of the classification loop of [_find_texture_files]. *)
Record SkinScan : Type := {
  base_skins : gmap string Path;
  extra_skins : gmap string Path;
  plain_texture : option Path
}.

(** One round of [for blp in all_blps]. *)
Definition scan_blp (model_base_lower skin_prefix_lower : string)
    (st : SkinScan) (blp : Path) : SkinScan :=
  let stem_lower := lower (path_stem blp) in
  if bool_decide (stem_lower = model_base_lower) then
    {| base_skins := base_skins st; extra_skins := extra_skins st;
       plain_texture := Some blp |}
  else if negb (startswith stem_lower skin_prefix_lower) then
    {| base_skins := base_skins st; extra_skins := extra_skins st;
       plain_texture := match plain_texture st with
                        | None => Some blp
                        | Some p => Some p
                        end |}
  else
    let suffix := slice_from (String.length skin_prefix_lower) stem_lower in
    if endswith suffix "_extra" then
      let key := slice_to_last 6 suffix in
      {| base_skins := base_skins st;
         extra_skins := <[key := blp]> (extra_skins st);
         plain_texture := plain_texture st |}
    else
      {| base_skins := <[suffix := blp]> (base_skins st);
         extra_skins := extra_skins st;
         plain_texture := plain_texture st |}.

(** [sorted(d.keys(), reverse=True)] *)
Definition keys_descending {V} (d : gmap string V) : list string :=
  sorted_reverse String.leb (elements (dom d)).

(** [sorted(f for f in m2_dir.iterdir() if ...)]: the [.blp] files whose
    stem starts with the model's base name. *)
Definition blp_candidates (m2_dir : Path) (model_base_lower : string)
    (entries : list string) : list Path :=
  sorted path_leb
    (filter (fun f => lower (path_suffix f) = ".blp" /\
                      startswith (lower (path_stem f)) model_base_lower = true)
            (path_child m2_dir <$> entries)).

Definition scan_blps (model_base : string) (all_blps : list Path) : SkinScan :=
  foldl (scan_blp (lower model_base) (lower (model_base ++ "skin")))
        {| base_skins := ∅; extra_skins := ∅; plain_texture := None |}
        all_blps.

(** The suffixes that have both a base and an extra skin, greatest first. *)
Definition paired_keys (st : SkinScan) : list string :=
  sorted_reverse String.leb
    (elements (dom (base_skins st) ∩ dom (extra_skins st))).

Definition _find_texture_files (fs : FileSystem) (m2_dir : Path)
    (model_base : string) : res (gmap Z Path) :=
  let tex_map : gmap Z Path := ∅ in
  d ← is_dir fs m2_dir;
  if negb d then Ok tex_map
  else
    entries ← iterdir fs m2_dir;
    let all_blps := blp_candidates m2_dir (lower model_base) entries in
    let st := scan_blps model_base all_blps in
    tex_map ←
      match paired_keys st with
      | key :: _ =>
        b ← dict_get (base_skins st) key;
        let tex_map := <[1 := b]> tex_map in
        e ← dict_get (extra_skins st) key;
        Ok (<[8 := e]> tex_map)
      | [] =>
        tex_map ←
          match keys_descending (base_skins st) with
          | key :: _ => b ← dict_get (base_skins st) key; Ok (<[1 := b]> tex_map)
          | [] => Ok tex_map
          end;
        match keys_descending (extra_skins st) with
        | key :: _ => e ← dict_get (extra_skins st) key; Ok (<[8 := e]> tex_map)
        | [] => Ok tex_map
        end
      end;
    let tex_map :=
      match plain_texture st with
      | Some plain => if bool_decide (tex_map = ∅) then <[11 := plain]> tex_map
                      else tex_map
      | None => tex_map
      end in
    let tex_map :=
      if bool_decide (tex_map = ∅) then
        match all_blps with
        | blp :: _ => <[11 := blp]> tex_map
        | [] => tex_map
        end
      else tex_map in
    Ok tex_map.

(** The walk over [local_dir.parents] of [_resolve_texture_path]. *)
Fixpoint walk_parents (fs : FileSystem) (tex_norm : string)
    (ps : list Path) : res (option Path) :=
  match ps with
  | [] => Ok None
  | parent :: ps =>
    let candidate := path_join parent tex_norm in
    found ← path_exists fs candidate;
    if found : bool then Ok (Some candidate)
    else if bool_decide (parent = path_parent parent) then Ok None
    else walk_parents fs tex_norm ps
  end.

Definition _resolve_texture_path (fs : FileSystem) (tex_path : string)
    (local_dir : Path) : res (option Path) :=
  let tex_norm := replace_char "\" "/" tex_path in
  let tex_name := path_name (Path_of tex_norm) in
  entries ← iterdir fs local_dir;
  match List.find (fun f => bool_decide (lower (path_name f) = lower tex_name))
                  (path_child local_dir <$> entries) with
  | Some f => Ok (Some f)
  | None => walk_parents fs tex_norm (path_parents local_dir)
  end.

(** One round of [for i, tex in enumerate(m2.textures)]. *)
Definition resolve_slot (fs : FileSystem) (m2_dir : Path)
    (by_type : gmap Z Path) (tex_files : gmap Z Path) (i : Z) (tex : Texture)
    : res (gmap Z Path) :=
  if bool_decide (filename tex = "") then
    match by_type !! tex_type tex with
    | Some f => Ok (<[i := f]> tex_files)
    | None => Ok tex_files
    end
  else
    resolved ← _resolve_texture_path fs (filename tex) m2_dir;
    match resolved with
    | Some f => Ok (<[i := f]> tex_files)
    | None => Ok tex_files
    end.

Fixpoint resolve_slots (fs : FileSystem) (m2_dir : Path)
    (by_type : gmap Z Path) (tex_files : gmap Z Path) (i : Z)
    (texs : list Texture) : res (gmap Z Path) :=
  match texs with
  | [] => Ok tex_files
  | tex :: texs =>
    tex_files ← resolve_slot fs m2_dir by_type tex_files i tex;
    resolve_slots fs m2_dir by_type tex_files (i + 1) texs
  end.

(** [clean_name] and [model_base] of [_resolve_textures]: the stem of the
    model's name without NULs and blanks at its ends, or the stem of the
    file's path when nothing is left of the name. *)
Definition model_base_of {F} (m2 : M2File F) (m2_path : string) : string :=
  let clean_name :=
    if bool_decide (name m2 = "") then ""
    else strip is_whitespace (strip is_nul (name m2)) in
  if bool_decide (clean_name = "") then path_stem (Path_of m2_path)
  else path_stem (Path_of clean_name).

Definition _resolve_textures {F} (fs : FileSystem) (m2 : M2File F)
    (m2_path : string) : res (gmap Z Path) :=
  let m2_dir := path_parent (Path_of m2_path) in
  let model_base := model_base_of m2 m2_path in
  by_type ← _find_texture_files fs m2_dir model_base;
  match textures m2 with
  | _ :: _ => resolve_slots fs m2_dir by_type ∅ 0 (textures m2)
  | [] => Ok by_type
  end.

(** * Specification-side notions

    The invariants of the data model and the notions the properties are
    stated with. *)

Local Open Scope Z_scope.

(** ** Tracks *)

(** What the evaluator needs of the scalars to rule out a division by a
    zero length: a length that passed the [length < 1e-10] test is not 0. *)
Class ScalarLaws (F : Type) `{Scalar F} : Prop := {
  ftiny_guard : forall x : F, fltb x ftiny = false -> fis_zero x = false
}.

(** The track invariant of the data model: values match timestamps one to
    one, and every value has the same number of components. *)
Definition track_wf {F} (arity : nat) (track : M2Track F) : Prop :=
  length (values track) = length (timestamps track) /\
  Forall (fun v => length v = arity) (values track).

(** The conditions under which a track has no value for an animation. *)
Definition no_value {F} (track : M2Track F) (anim_index : Z) : Prop :=
  values track = [] \/
  len (ranges track) <= anim_index \/
  exists s e, ranges track !! Z.to_nat anim_index = Some (s, e) /\
              ((e <= s)%N \/ len (timestamps track) <= Z.of_N s).

(** [lo] and [hi] bracket [g]: [ts[lo] <= g < ts[hi]]. *)
Definition brackets (ts : list Z) (g lo hi : Z) : Prop :=
  exists t_lo t_hi,
    ts !! Z.to_nat lo = Some t_lo /\ ts !! Z.to_nat hi = Some t_hi /\
    t_lo <= g < t_hi.

(** The keyframe whose value holds at [g] in the slice [first .. last]:
    the first one up to its timestamp, the last one from its timestamp on,
    and in between the earlier one of the two that bracket [g]. *)
Definition held_at (ts : list Z) (g first last k : Z) : Prop :=
  first <= k <= last /\
  ((k = first /\ exists t, ts !! Z.to_nat first = Some t /\ g <= t) \/
   (k = last /\ exists t, ts !! Z.to_nat last = Some t /\ t <= g) \/
   (k < last /\ brackets ts g k (k + 1))).

(** The keyframe that a track without blending shows at [g] in the slice
    [first .. last]: the first one up to its timestamp; after that the last
    one from its timestamp on; and in between the earlier one of two
    neighbours that bracket [g]. *)
Definition shown_at (ts : list Z) (g first last k : Z) : Prop :=
  exists t_first t_last,
    ts !! Z.to_nat first = Some t_first /\ ts !! Z.to_nat last = Some t_last /\
    ((g <= t_first /\ k = first) \/
     (t_first < g /\ t_last <= g /\ k = last) \/
     (t_first < g < t_last /\ first <= k < last /\ brackets ts g k (k + 1))).

(** The track with the end of range [anim_index] cut down to the number of
    timestamps. *)
Definition clamp_range {F} (track : M2Track F) (anim_index : Z) : M2Track F :=
  {| interp_type := interp_type track;
     global_seq := global_seq track;
     ranges := alter (fun r => (r.1, N.min r.2 (N.of_nat (length (timestamps track)))))
                     (Z.to_nat anim_index) (ranges track);
     timestamps := timestamps track;
     values := values track |}.

(** ** Bone transforms: the specification's matrices *)

Section BoneSpec.
Context {F : Type} `{Scalar F}.

Definition tuple3 (v : vec3 F) : list F := let '(x, y, z) := v in [x; y; z].
Definition tuple4 (v : vec4 F) : list F := let '(x, y, z, w) := v in [x; y; z; w].

(** [Translate(v)], [Scale(v)] and [Rotate(q)] of the transform order
    [Translate(pivot) * Translate(t) * Rotate(q) * Scale(s) * Translate(-pivot)]. *)
Definition Translate (v : vec3 F) : mat4 F :=
  let '(x, y, z) := v in
  ((f1, f0, f0, x), (f0, f1, f0, y), (f0, f0, f1, z), (f0, f0, f0, f1)).

Definition Scale (v : vec3 F) : mat4 F :=
  let '(x, y, z) := v in
  ((x, f0, f0, f0), (f0, y, f0, f0), (f0, f0, z, f0), (f0, f0, f0, f1)).

Definition Rotate (q : vec4 F) : mat4 F :=
  let '(x, y, z, w) := q in
  let two := of_int 2 in
  ((f1 - two * (y * y + z * z), two * (x * y - w * z), two * (x * z + w * y), f0),
   (two * (x * y + w * z), f1 - two * (x * x + z * z), two * (y * z - w * x), f0),
   (two * (x * z - w * y), two * (y * z + w * x), f1 - two * (x * x + y * y), f0),
   (f0, f0, f0, f1))%F.

(** The local transform of the specification; a track without a value
    contributes the identity. *)
Definition spec_local (pivot : vec3 F) (trans : option (vec3 F))
    (rot : option (vec4 F)) (scl : option (vec3 F)) : mat4 F :=
  (Translate pivot @ from_option Translate eye4 trans
     @ from_option Rotate eye4 rot @ from_option Scale eye4 scl
     @ Translate (vneg3 pivot))%F.

(** A bone of the data model: vector tracks for translation and scale, a
    quaternion track for rotation, a pivot of three coordinates. *)
Definition bone_wf (bone : Bone F) : Prop :=
  track_wf 3 (translation bone) /\ track_wf 4 (rotation bone) /\
  track_wf 3 (scale bone) /\ length (pivot bone) = 3%nat.

(** The parent chain of bone [i] stays in the table and ends at a root
    after at most [n] bones. *)
Fixpoint reaches_root (bones : list (Bone F)) (n : nat) (i : Z) : bool :=
  match n with
  | O => false
  | S n =>
    (0 <=? i) &&
    match bones !! Z.to_nat i with
    | Some bone => (parent bone <? 0) || reaches_root bones n (parent bone)
    | None => false
    end
  end.

(** [m] is the world matrix of bone [j]: what the recursion over parents
    computes without a cache. *)
Definition is_world (bones : list (Bone F)) (anim_index time_ms anim_duration : Z)
    (j : Z) (m : mat4 F) : Prop :=
  exists fuel,
    evaluate_bone_transform fuel bones j anim_index time_ms anim_duration None
      = Some (Ok m, None).

(** A cache holds world matrices only. *)
Definition cache_valid (bones : list (Bone F))
    (anim_index time_ms anim_duration : Z) (cache : cache_t) : Prop :=
  forall j m, cache_get cache j = Some m ->
              is_world bones anim_index time_ms anim_duration j m.
End BoneSpec.

(** ** Skinning: the specification's sum *)

Section SkinSpec.
Context {F : Type} `{Arith F}.

(** A vertex of the file format: three coordinates, four weights, four
    bone indices. *)
Definition vertex_wf (v : Vertex F) : Prop :=
  length (pos v) = 3%nat /\ length (bone_weights v) = 4%nat /\
  length (bone_indices v) = 4%nat.

(** What weight slot [j] adds to the position of [v]: for a non-zero
    weight and a bone index inside the matrix array, [weight / 255] times
    the first three coordinates of the bone matrix applied to [p]. *)
Definition slot_term (bone_matrices : list (mat4 F)) (v : Vertex F)
    (p : vec4 F) (j : nat) : option (vec3 F) :=
  w ← bone_weights v !! j;
  bi ← bone_indices v !! j;
  if decide (w = 0%N) then None
  else m ← bone_matrices !! N.to_nat bi;
       Some (vscale3 (of_int (Z.of_N w) / of_int 255)%F (take3 (matvec m p))).

(** The position of the specification: the terms of the four slots, added
    up in slot order from zero. *)
Definition skin_spec (bone_matrices : list (mat4 F)) (v : Vertex F) : vec3 F :=
  match pos v with
  | [x; y; z] =>
    fold_left vadd3 (omap (slot_term bone_matrices v (x, y, z, of_int 1)) (seq 0 4))
              zeros3
  | _ => zeros3
  end.

(** Two vertices with the same position and weights, and the same bone
    index in every slot of non-zero weight. *)
Definition same_influences (v v' : Vertex F) : Prop :=
  pos v = pos v' /\ bone_weights v = bone_weights v' /\
  length (bone_indices v) = length (bone_indices v') /\
  forall j w, bone_weights v !! j = Some w -> w <> 0%N ->
              bone_indices v !! j = bone_indices v' !! j.

(** No slot of [v] has both a non-zero weight and a bone index inside the
    matrix array. *)
Definition no_influence (bone_matrices : list (mat4 F)) (v : Vertex F) : Prop :=
  forall j w bi, bone_weights v !! j = Some w -> bone_indices v !! j = Some bi ->
                 w = 0%N \/ (length bone_matrices <= N.to_nat bi)%nat.
End SkinSpec.

(** Exact arithmetic: the laws of a field that weight conservation rests
    on (rounding arithmetic does not have them). *)
Class ExactArith (F : Type) `{Arith F} : Prop := {
  fadd_0_l : forall x : F, (of_int 0 + x)%F = x;
  fadd_0_r : forall x : F, (x + of_int 0)%F = x;
  fmul_0_l : forall x : F, (of_int 0 * x)%F = of_int 0;
  fmul_1_l : forall x : F, (of_int 1 * x)%F = x;
  fmul_add_distr_r : forall a b x : F, ((a + b) * x)%F = (a * x + b * x)%F;
  fdiv_add_distr : forall a b c : F, ((a + b) / c)%F = (a / c + b / c)%F;
  fdiv_0_l : forall c : F, (of_int 0 / c)%F = of_int 0;
  fdiv_255 : (of_int 255 / of_int 255)%F = of_int 1 :> F;
  of_int_add : forall a b : Z, of_int (a + b) = (of_int a + of_int b)%F :> F
}.

(** The sum of the four weights of a vertex. *)
Definition weight_sum {F} (v : Vertex F) : Z :=
  foldr Z.add 0 (Z.of_N <$> bone_weights v).

(** The position [(x, y, z)] scaled by [W / 255]. *)
Definition scaled {F} `{Arith F} (W : Z) (x y z : F) : vec3 F :=
  vscale3 (of_int W / of_int 255)%F (x, y, z).

(** ** Binary64 values

    The vocabulary of the rounding analysis of the skinning loop: which
    floats are finite, what real number a float stands for, and what it
    means for a float to follow a real number through roundings. *)

(** Rounding to nearest, ties to even, of [m / 2^n]. *)
Definition rne_shift (m n : Z) : Z :=
  let q := m / 2 ^ n in
  let rem := m mod 2 ^ n in
  if 2 * rem <? 2 ^ n then q
  else if 2 ^ n <? 2 * rem then q + 1
  else if Z.even q then q else q + 1.

(** Zero or a finite number: not an infinity, not a NaN. *)
Definition is_finite_float (a : float) : bool :=
  match Prim2SF a with
  | S754_zero _ | S754_finite _ _ _ => true
  | _ => false
  end.

(** One of the two zeros. *)
Definition fzero (a : float) : Prop := exists s, Prim2SF a = S754_zero s.

(** Zero, or a normal number of magnitude from [2^-948] up to [2^953]:
    a mantissa of 53 digits and an exponent between -1000 and 900.  Every
    finite single-precision number, which is what the file format stores
    in a vertex, is one. *)
Definition moderate (a : float) : bool :=
  match Prim2SF a with
  | S754_zero _ => true
  | S754_finite _ m e =>
    (Zpos (digits2_pos m) =? 53) && (-1000 <=? e) && (e <=? 900)
  | _ => false
  end.

(** [w / 255.0], the factor of a slot of weight [w], in binary64. *)
Definition weight_factor (w : Z) : float := fdiv (of_int w) (of_int 255).

(** [w / 255.0] is within one rounding of the rational [w / 255], as an
    inequality of integers. *)
Definition factor_ok (w : Z) : bool :=
  match Prim2SF (weight_factor w) with
  | S754_finite false m e =>
    (e <? 0) &&
    (Z.abs (255 * Zpos m - w * 2 ^ (- e)) * 2 ^ 53 <=? w * 2 ^ (- e))
  | _ => false
  end.

Section WeightedSum.
Context {F : Type} `{Arith F}.

(** What the slot loop adds up for one coordinate [a] of the transformed
    position when every weighted slot has the same matrix: [w / 255 * a]
    for each non-zero weight, in slot order from zero. *)
Definition weighted_sum (a : F) (ws : list N) : F :=
  fold_left (fun acc w => if decide (w = 0%N) then acc
                          else (acc + (of_int (Z.of_N w) / of_int 255) * a)%F)
            ws f0.
End WeightedSum.

Section RealValue.
Import Rbase Rbasic_fun Rfunctions.

(** The real number that a finite float stands for, 0 otherwise. *)
Definition SF2R (f : spec_float) : R :=
  match f with
  | S754_finite s m e =>
    ((if s then - IZR (Zpos m) else IZR (Zpos m)) * powerRZ 2 e)%R
  | _ => 0%R
  end.

Definition F2R (x : float) : R := SF2R (Prim2SF x).

(** A float whose value is at least [2^-1022] in magnitude: finite, not
    zero and not subnormal. *)
Definition normal (x : float) : Prop :=
  (powerRZ 2 (-1022) <= Rabs (F2R x))%R.

(** Half the distance from 1 to the next binary64 number. *)
Definition u53 : R := powerRZ 2 (-53).

(** A factor that [k] roundings can leave on a value. *)
Definition rel (k : nat) (rho : R) : Prop :=
  ((1 - u53) ^ k <= rho <= (1 + u53) ^ k)%R.

(** A float that follows a real number, [tracks k a r]: the float [a] is
    a zero and [r] is 0, or [r] is well inside the normal range and [a] is
    [r] times the factor of at most [k] roundings. *)
Definition tracks (k : nat) (a : float) (r : R) : Prop :=
  (r = 0%R /\ fzero a) \/
  ((powerRZ 2 (-1020) <= Rabs r <= powerRZ 2 1001)%R /\
   exists rho, rel k rho /\ F2R a = (r * rho)%R).

(** The range of the values of moderate floats. *)
Definition moderate_value (r : R) : Prop :=
  r = 0%R \/ (powerRZ 2 (-948) <= Rabs r <= powerRZ 2 953)%R.

(** [a'] is a finite float within the relative distance [2^-49] of [a]. *)
Definition near (a' a : float) : Prop :=
  is_finite_float a' = true /\
  (Rabs (F2R a' - F2R a) <= powerRZ 2 (-49) * Rabs (F2R a))%R.
End RealValue.

(** ** Texture slots *)

(** What slot [tex] resolves to, if anything: a replaceable slot through
    the naming strategy's result for its type, a slot with an embedded path
    through the path strategy. *)
Definition slot_target (fs : FileSystem) (m2_dir : Path)
    (by_type : gmap Z Path) (tex : Texture) : option Path :=
  if bool_decide (filename tex = "") then by_type !! tex_type tex
  else match _resolve_texture_path fs (filename tex) m2_dir with
       | Ok resolved => resolved
       | Raise _ => None
       end.

Local Open Scope string_scope.
(** [f] is a candidate of the naming strategy: a listed entry of [m2_dir]
    with the suffix [.blp] whose stem starts with the model's base name,
    letter case aside. *)
Definition is_candidate (m2_dir : Path) (model_base : string)
    (entries : list string) (f : Path) : Prop :=
  exists entry, entry ∈ entries /\ f = path_child m2_dir entry /\
    lower (path_suffix f) = ".blp" /\
    startswith (lower (path_stem f)) (lower model_base) = true.

(** What follows [{ModelBase}Skin] in the stem of [f], in lower case. *)
Definition skin_suffix (model_base : string) (f : Path) : string :=
  slice_from (String.length (lower (model_base ++ "skin"))) (lower (path_stem f)).

Definition is_skin (model_base : string) (f : Path) : Prop :=
  startswith (lower (path_stem f)) (lower (model_base ++ "skin")) = true.

(** The candidate of the nearest directory of [ps] under which [tex_norm]
    exists, asking for one directory after the other: a question that
    raises ends the search with its error. *)
Fixpoint first_existing (fs : FileSystem) (tex_norm : string)
    (ps : list Path) : res (option Path) :=
  match ps with
  | [] => Ok None
  | p :: ps =>
    found ← path_exists fs (path_join p tex_norm);
    if found : bool then Ok (Some (path_join p tex_norm))
    else first_existing fs tex_norm ps
  end.

(** No question about the existence of a file raises. *)
Definition exists_answers (fs : FileSystem) : Prop :=
  forall p, exists found, path_exists fs p = Ok found.

(** What the classification loop keeps: every file it files is one of the
    files it was given, base skins do not end in [_extra], extra skins do. *)
Definition scan_inv (model_base : string) (blps : list Path)
    (st : SkinScan) : Prop :=
  (forall k f, base_skins st !! k = Some f ->
     f ∈ blps /\ is_skin model_base f /\
     endswith (skin_suffix model_base f) "_extra" = false) /\
  (forall k f, extra_skins st !! k = Some f ->
     f ∈ blps /\ is_skin model_base f /\
     endswith (skin_suffix model_base f) "_extra" = true) /\
  (forall f, plain_texture st = Some f -> f ∈ blps).

Local Open Scope Z_scope.

(** * Sample data *)

(** A three-keyframe vector track and a quaternion track, both linear, and
    the same vector track with step interpolation and with a range that
    ends beyond its timestamps. *)
Definition sample_track : M2Track float := {|
  interp_type := 1; global_seq := -1;
  ranges := [(0%N, 3%N)];
  timestamps := [0; 100; 200];
  values := [[1; 2; 3]; [3; 4; 5]; [10; 10; 10]]%float
|}.

Definition sample_quat_track : M2Track float := {|
  interp_type := 1; global_seq := -1;
  ranges := [(0%N, 2%N)];
  timestamps := [0; 100];
  values := [[0; 0; 0; 1]; [1; 0; 0; 0]]%float
|}.

Definition sample_step_track : M2Track float := {|
  interp_type := 0; global_seq := -1;
  ranges := [(0%N, 3%N)];
  timestamps := [0; 100; 200];
  values := [[1; 2; 3]; [3; 4; 5]; [10; 10; 10]]%float
|}.

Definition sample_long_range_track : M2Track float := {|
  interp_type := 1; global_seq := -1;
  ranges := [(1%N, 9%N)];
  timestamps := [0; 100; 200];
  values := [[1; 2; 3]; [3; 4; 5]; [10; 10; 10]]%float
|}.

(** A skeleton of one bone that names itself as its parent, and a
    skeleton of a root and its child. *)
Definition empty_track : M2Track float := {|
  interp_type := 0; global_seq := -1; ranges := []; timestamps := []; values := []
|}.

Definition self_parent_bones : list (Bone float) :=
  [ {| key_bone_id := -1; parent := 0;
       translation := empty_track; rotation := empty_track; scale := empty_track;
       pivot := [0; 0; 0]%float |} ].

Definition root_bone : Bone float := {|
  key_bone_id := -1; parent := -1;
  translation := sample_track; rotation := sample_quat_track;
  scale := empty_track; pivot := [1; 2; 3]%float
|}.

Definition child_bone : Bone float := {|
  key_bone_id := -1; parent := 0;
  translation := empty_track; rotation := empty_track;
  scale := sample_track; pivot := [0; 1; 0]%float
|}.

Definition two_bones : list (Bone float) := [root_bone; child_bone].

(** A mesh of three vertices over the two-bone skeleton: one bound to both
    bones, one with no weight at all, one whose only weighted slot names a
    bone outside the skeleton. *)
Definition sample_m2 : M2File float := {|
  name := "Hero";
  vertices :=
    [ {| pos := [1; 2; 3]%float; bone_weights := [128; 127; 0; 0]%N;
         bone_indices := [0; 1; 200; 0]%N |};
      {| pos := [4; 5; 6]%float; bone_weights := [0; 0; 0; 0]%N;
         bone_indices := [0; 1; 0; 0]%N |};
      {| pos := [7; 8; 9]%float; bone_weights := [255; 0; 0; 0]%N;
         bone_indices := [9; 0; 0; 0]%N |} ];
  bones := two_bones;
  animations := [ {| duration := 200 |} ];
  textures := []
|}.

(** A vertex whose weight is spread over three slots, in exact rationals,
    and two identity matrices. *)
Definition thirds_vertex : Vertex Qc := {|
  pos := [Q2Qc (1 # 3); Q2Qc 2; Q2Qc (-5 # 7)];
  bone_weights := [85; 85; 85; 0]%N;
  bone_indices := [0; 1; 0; 7]%N
|}.

Definition identity_matrices : list (mat4 Qc) := [eye4; eye4].

(** The directory of the model [Hero], holding the given entries. *)
Definition hero_dir : Path := Path_of "/models/hero".

Definition hero_fs (entries : list string) : FileSystem := {|
  is_dir p := Ok (bool_decide (p = hero_dir));
  iterdir p := if bool_decide (p = hero_dir) then Ok entries else Raise OSError;
  path_exists p := Ok false
|}.

Definition hero_files : list string :=
  ["HeroSkin00.blp"; "HeroSkin00_Extra.blp"; "HeroSkin01.blp"].

(** A directory that exists and cannot be listed. *)
Definition unreadable_fs : FileSystem := {|
  is_dir p := Ok true;
  iterdir p := Raise OSError;
  path_exists p := Ok false
|}.

(** The directory of the model [Hero] under a directory [/models] that
    may not be searched: the model's directory can be listed, and asking
    whether [/models/Creature/Hero/Eye.blp] exists is refused. *)
Definition guarded_fs : FileSystem := {|
  is_dir p := Ok (bool_decide (p = hero_dir));
  iterdir p := if bool_decide (p = hero_dir) then Ok hero_files
               else Raise OSError;
  path_exists p :=
    if bool_decide (p = Path_of "/models/Creature/Hero/Eye.blp")
    then Raise OSError else Ok false
|}.

(** A model with a replaceable body slot, a replaceable slot of a type no
    file matches, and a slot with an embedded path that is nowhere on disk. *)
Definition hero_m2 : M2File float := {|
  name := "Hero";
  vertices := [];
  bones := [];
  animations := [];
  textures := [ {| tex_type := 1; filename := "" |};
                {| tex_type := 2; filename := "" |};
                {| tex_type := 0; filename := "Creature\Hero\Eye.blp" |} ]
|}.

(** A model at [proj/Models/Bear.m2] that names the texture
    [Creature\Bear\BearSkin.blp], with the file at
    [proj/Creature/Bear/BearSkin.blp]: the path strategy finds it in the
    first parent of the model's directory. *)
Definition bear_fs : FileSystem := {|
  is_dir p := Ok (bool_decide (p = Path_of "proj/Models"));
  iterdir p := if bool_decide (p = Path_of "proj/Models")
               then Ok ["Bear.m2"] else Raise OSError;
  path_exists p :=
    Ok (bool_decide (p = Path_of "proj/Creature/Bear/BearSkin.blp"))
|}.

(** * Properties *)

(** ** The embedding on concrete inputs *)

Example getitem_from_the_end : getitem [10; 20; 30] (-1) = Ok 30.
Proof. reflexivity. Qed.

Example getitem_out_of_range :
  getitem [10; 20; 30] 3 = Raise IndexError /\
  getitem [10; 20; 30] (-4) = Raise IndexError.
Proof. split; reflexivity. Qed.

Example evaluate_track_between_keyframes :
  evaluate_track sample_track 0 150 0 false = Ok (Some [6.5; 7; 7.5]%float).
Proof. reflexivity. Qed.

Example evaluate_track_clamped :
  evaluate_track sample_track 0 (-5) 0 false = Ok (Some [1; 2; 3]%float) /\
  evaluate_track sample_track 0 250 0 false = Ok (Some [10; 10; 10]%float).
Proof. split; reflexivity. Qed.

Example evaluate_track_held :
  evaluate_track sample_step_track 0 199 0 false = Ok (Some [3; 4; 5]%float).
Proof. reflexivity. Qed.

Example evaluate_track_no_animation :
  evaluate_track sample_track 1 150 0 false = Ok None.
Proof. reflexivity. Qed.

(** Outside the data model Python's indexing shows: a track with fewer
    values than timestamps, and an animation index below [-len(ranges)]. *)
Example evaluate_track_outside_data_model :
  evaluate_track
    {| interp_type := 1; global_seq := -1; ranges := [(0%N, 2%N)];
       timestamps := [0; 100]; values := [[1; 2; 3]]%float |}
    0 100 0 false = Raise IndexError /\
  evaluate_track sample_track (-2) 150 0 false = Raise IndexError.
Proof. split; reflexivity. Qed.

Example path_suffix_and_stem :
  path_suffix (Path_of "hero/HeroSkin00_Extra.blp") = ".blp" /\
  path_stem (Path_of "hero/HeroSkin00_Extra.blp") = "HeroSkin00_Extra" /\
  path_suffix (Path_of "hero/.hidden") = "" /\
  path_stem (Path_of "hero/archive.tar.gz") = "archive.tar".
Proof. repeat split. Qed.

Example blp_candidates_sorted :
  path_name <$> blp_candidates hero_dir "hero"
                  ["heroskin01.BLP"; "notes.txt"; "HeroSkin00_Extra.blp";
                   "Other.blp"; "HeroSkin00.blp"]
    = ["HeroSkin00.blp"; "HeroSkin00_Extra.blp"; "heroskin01.BLP"].
Proof. reflexivity. Qed.

Example find_texture_files_unpaired :
  _find_texture_files (hero_fs ["HeroSkin02.blp"; "HeroSkin00_Extra.blp"])
    hero_dir "Hero"
    = Ok (<[8 := path_child hero_dir "HeroSkin00_Extra.blp"]>
            (<[1 := path_child hero_dir "HeroSkin02.blp"]> ∅)).
Proof. vm_compute. reflexivity. Qed.

Example find_texture_files_plain :
  _find_texture_files (hero_fs ["HeroEye.blp"; "Hero.blp"]) hero_dir "Hero"
    = Ok {[ 11 := path_child hero_dir "Hero.blp" ]}.
Proof. vm_compute. reflexivity. Qed.

(** ** Scalars *)

(** In binary64 a length that is not below [1e-10] is not zero. *)
#[global] Instance float_laws : ScalarLaws float.
Proof.
  constructor. intros x. cbn.
  rewrite FloatAxioms.ltb_spec, FloatAxioms.eqb_spec.
  replace (Prim2SF 0x1.b7cdfd9d7bdbbp-34)
    with (S754_finite false 7737125245533627 (-86)) by (vm_compute; reflexivity).
  replace (Prim2SF PrimFloat.zero) with (S754_zero false) by reflexivity.
  unfold SFltb, SFeqb, SFcompare.
  destruct (Prim2SF x) as [s | s | | s m e];
    try destruct s; try discriminate; reflexivity.
Qed.

(** The rationals have the laws of exact arithmetic. *)
#[global] Instance Qc_exact : ExactArith Qc.
Proof.
  constructor; cbn.
  - apply Qcplus_0_l.
  - apply Qcplus_0_r.
  - apply Qcmult_0_l.
  - apply Qcmult_1_l.
  - apply Qcmult_plus_distr_l.
  - intros a b c. unfold Qcdiv. apply Qcmult_plus_distr_l.
  - intros c. unfold Qcdiv. apply Qcmult_0_l.
  - apply Qcmult_inv_r. discriminate.
  - intros a b. apply Qc_is_canon. unfold Qcplus. cbn.
    rewrite !Qred_correct, inject_Z_plus. reflexivity.
Qed.

(** ** Python sequences *)

Section OutcomeLemmas.
Context {A : Type}.
Implicit Types (l : list A) (i : Z).

Lemma getitem_nonneg l i :
  0 <= i -> getitem l i =
    match l !! Z.to_nat i with Some x => Ok x | None => Raise IndexError end.
Proof.
  intros Hi. unfold getitem.
  destruct (Z.ltb_spec i 0); [lia |].
  destruct (Z.ltb_spec i 0); [lia | done].
Qed.

Lemma getitem_in_range l i :
  0 <= i < len l -> exists x, l !! Z.to_nat i = Some x /\ getitem l i = Ok x.
Proof.
  intros [Hi Hlen]. rewrite getitem_nonneg by done.
  destruct (lookup_lt_is_Some_2 l (Z.to_nat i)) as [x Hx];
    [unfold len in Hlen; lia |].
  exists x. by rewrite Hx.
Qed.

Lemma getitem_lookup l i x :
  l !! Z.to_nat i = Some x -> 0 <= i -> getitem l i = Ok x.
Proof. intros Hx Hi. rewrite getitem_nonneg by done. by rewrite Hx. Qed.

Lemma getitem_beyond l i : len l <= i -> getitem l i = Raise IndexError.
Proof.
  intros Hi. assert (0 <= i) by (unfold len in Hi; lia).
  rewrite getitem_nonneg by done.
  rewrite (lookup_ge_None_2 l (Z.to_nat i)); [done | unfold len in Hi; lia].
Qed.

Lemma lookup_len l i x : l !! Z.to_nat i = Some x -> 0 <= i -> i < len l.
Proof. intros Hx Hi. apply lookup_lt_Some in Hx. unfold len. lia. Qed.

Lemma tuple_of_total {B} (f : Z -> res B) (its : list Z) :
  (forall i, i ∈ its -> exists x, f i = Ok x) ->
  exists xs, tuple_of f its = Ok xs /\ length xs = length its.
Proof.
  induction its as [| i its IH]; intros Hf; simpl.
  - by exists [].
  - destruct (Hf i) as [x Hx]; [left |]. rewrite Hx. simpl.
    destruct IH as (xs & Hxs & Hlen); [intros j Hj; apply Hf; by right |].
    rewrite Hxs. simpl. exists (x :: xs). split; [done | simpl; lia].
Qed.

Lemma elem_of_range (n : nat) i : i ∈ range n <-> 0 <= i < Z.of_nat n.
Proof.
  unfold range. rewrite list_elem_of_fmap. split.
  - intros (k & -> & Hk). apply elem_of_seq in Hk. lia.
  - intros Hi. exists (Z.to_nat i). split; [lia |]. apply elem_of_seq. lia.
Qed.

Lemma length_range (n : nat) : length (range n) = n.
Proof. unfold range. by rewrite length_fmap, length_seq. Qed.
End OutcomeLemmas.

(** ** The keyframe search *)

Lemma getitem_Ok_lookup {A} (l : list A) (i : Z) (x : A) :
  getitem l i = Ok x -> 0 <= i -> l !! Z.to_nat i = Some x.
Proof.
  intros Hg Hi. rewrite getitem_nonneg in Hg by done.
  by destruct (l !! Z.to_nat i); simplify_eq.
Qed.

Lemma bracket_spec (ts : list Z) (g lo hi : Z) :
  0 <= lo -> lo < hi -> hi < len ts ->
  exists lo' hi', bracket ts g lo hi = Ok (lo', hi') /\
    lo <= lo' /\ hi' <= hi /\ hi' = lo' + 1 /\
    (brackets ts g lo hi -> brackets ts g lo' hi').
Proof.
  funelim (bracket ts g lo hi); intros Hlo Hlt Hhi;
    try assert (lo < (lo + hi) / 2 < hi) by (Z.div_mod_to_equations; lia).
  - exists lo, hi. repeat split; [lia.. | done].
  - destruct (getitem_in_range ts ((lo + hi) / 2)) as (x & _ & Hx);
      [lia | congruence].
  - match goal with Hg : getitem _ _ = Ok _ |- _ =>
      apply getitem_Ok_lookup in Hg; [| lia] end.
    match goal with IH : _ -> _ -> _ -> exists _, _ |- _ =>
      destruct IH as (lo' & hi' & -> & ? & ? & ? & Hbr); [lia.. |] end.
    exists lo', hi'. repeat split; [lia.. |].
    intros (t_lo & t_hi & ? & ? & ?). apply Hbr.
    exists ts_mid, t_hi. repeat split; [done.. | lia].
  - match goal with Hg : getitem _ _ = Ok _ |- _ =>
      apply getitem_Ok_lookup in Hg; [| lia] end.
    match goal with IH : _ -> _ -> _ -> exists _, _ |- _ =>
      destruct IH as (lo' & hi' & -> & ? & ? & ? & Hbr); [lia.. |] end.
    exists lo', hi'. repeat split; [lia.. |].
    intros (t_lo & t_hi & ? & ? & ?). apply Hbr.
    exists t_lo, ts_mid. repeat split; [done.. | lia | lia].
Qed.

(** ** Interpolation never fails on well-shaped tuples *)

Lemma res_bind_Ok {A B} (x : A) (f : A -> res B) : (Ok x ≫= f) = f x.
Proof. reflexivity. Qed.

Section InterpolationLemmas.
Context {F : Type} `{ScalarLaws F}.

Lemma lerp_total (a b : list F) (t : F) :
  (length a <= length b)%nat ->
  exists r, _lerp a b t = Ok r /\ length r = length a.
Proof.
  intros Hlen. unfold _lerp.
  destruct (tuple_of_total
              (fun i => ai ← getitem a i; bi ← getitem b i;
                        Ok (ai + (bi - ai) * t)%F)
              (range (length a))) as (r & Hr & Hl).
  - intros i Hi%elem_of_range.
    destruct (getitem_in_range a i) as (x & _ & ->); [unfold len; lia |].
    destruct (getitem_in_range b i) as (y & _ & ->); [unfold len; lia |].
    simpl. eauto.
  - exists r. by rewrite Hl, length_range in *.
Qed.

Lemma quat_dot_total (a b : list F) :
  (4 <= length a)%nat -> (4 <= length b)%nat -> exists d, _quat_dot a b = Ok d.
Proof.
  intros Ha Hb. unfold _quat_dot.
  destruct (tuple_of_total
              (fun i => ai ← getitem a i; bi ← getitem b i; Ok (ai * bi)%F)
              (range 4)) as (r & -> & _); [| simpl; eauto].
  intros i Hi%elem_of_range.
  destruct (getitem_in_range a i) as (x & _ & ->); [unfold len; lia |].
  destruct (getitem_in_range b i) as (y & _ & ->); [unfold len; lia |].
  simpl. eauto.
Qed.

Lemma nlerp_total (a b : list F) (t : F) :
  length a = 4%nat -> length b = 4%nat ->
  exists r, _nlerp a b t = Ok r /\ length r = 4%nat.
Proof.
  intros Ha Hb. unfold _nlerp.
  destruct (quat_dot_total a b) as (d & ->); [lia.. |]. rewrite res_bind_Ok.
  assert (exists b', (if fltb d (of_int 0)
                      then tuple_of (fun i => bi ← getitem b i; Ok (- bi)%F) (range 4)
                      else Ok b) = Ok b' /\ length b' = 4%nat) as (b' & -> & Hb').
  { destruct (fltb d (of_int 0)); [| eauto].
    destruct (tuple_of_total (fun i => bi ← getitem b i; Ok (- bi)%F) (range 4))
      as (r & -> & Hl); [| rewrite length_range in Hl; eauto].
    intros i Hi%elem_of_range.
    destruct (getitem_in_range b i) as (y & _ & ->); [unfold len; lia |].
    simpl. eauto. }
  rewrite res_bind_Ok.
  destruct (lerp_total a b' t) as (q & -> & Hq); [lia |]. rewrite res_bind_Ok.
  destruct (fltb _ ftiny) eqn:Htiny; [eauto |].
  apply ftiny_guard in Htiny.
  destruct (tuple_of_total
              (fun i => c ← getitem q i;
                        float_truediv c (fsqrt (py_sum ((fun c => c * c)%F <$> q))))
              (range (length q))) as (r & -> & Hr);
    [| rewrite length_range in Hr; exists r; split; [done | lia]].
  intros i Hi%elem_of_range.
  destruct (getitem_in_range q i) as (c & _ & ->); [unfold len; lia |].
  simpl. unfold float_truediv. rewrite Htiny. eauto.
Qed.
End InterpolationLemmas.

(** ** The track evaluator *)

Section TrackLemmas.
Context {F : Type} `{ScalarLaws F}.
Implicit Types (track : M2Track F).

Lemma evaluate_track_no_values track anim_index time_ms dur is_quat :
  values track = [] ->
  evaluate_track track anim_index time_ms dur is_quat = Ok None.
Proof. intros Hv. unfold evaluate_track. by rewrite Hv. Qed.

Lemma evaluate_track_no_anim track anim_index time_ms dur is_quat :
  len (ranges track) <= anim_index ->
  evaluate_track track anim_index time_ms dur is_quat = Ok None.
Proof.
  intros Hr. unfold evaluate_track. destruct (values track); [done |].
  by destruct (Z.ltb_spec anim_index (len (ranges track))); [lia |].
Qed.

Lemma evaluate_track_no_range track anim_index time_ms dur is_quat s e :
  0 <= anim_index ->
  ranges track !! Z.to_nat anim_index = Some (s, e) ->
  (e <= s)%N \/ len (timestamps track) <= Z.of_N s ->
  evaluate_track track anim_index time_ms dur is_quat = Ok None.
Proof.
  intros Hi Hr Hse. unfold evaluate_track. destruct (values track); [done |].
  destruct (Z.ltb_spec anim_index (len (ranges track))); [| done].
  rewrite (getitem_lookup _ _ _ Hr Hi), res_bind_Ok. cbn [fst snd].
  destruct (Z.geb_spec (Z.of_N s) (Z.of_N e)); [done |].
  destruct (Z.geb_spec (Z.of_N s) (len (timestamps track))); [done | lia].
Qed.

(** Inside a non-empty range: the clamps, then the search. *)
Lemma evaluate_track_unfold track anim_index time_ms dur is_quat s e t0 tl :
  values track <> [] ->
  0 <= anim_index ->
  ranges track !! Z.to_nat anim_index = Some (s, e) ->
  (s < e)%N -> Z.of_N s < len (timestamps track) ->
  let last := Z.min (Z.of_N e) (len (timestamps track)) - 1 in
  timestamps track !! N.to_nat s = Some t0 ->
  timestamps track !! Z.to_nat last = Some tl ->
  evaluate_track track anim_index time_ms dur is_quat =
    if t0 + time_ms <=? t0 then Some <$> getitem (values track) (Z.of_N s)
    else if t0 + time_ms >=? tl then Some <$> getitem (values track) last
    else lh ← bracket (timestamps track) (t0 + time_ms) (Z.of_N s) last;
         sample_between track is_quat (t0 + time_ms) lh.1 lh.2.
Proof.
  intros Hv Hi Hr Hse Hs last Ht0 Htl.
  assert (getitem (timestamps track) (Z.of_N s) = Ok t0) as Hg0.
  { apply getitem_lookup; [| lia].
    by replace (Z.to_nat (Z.of_N s)) with (N.to_nat s) by lia. }
  assert (getitem (timestamps track) last = Ok tl) as Hgl
    by (apply getitem_lookup; [done | subst last; lia]).
  unfold evaluate_track. destruct (values track); [done |].
  destruct (Z.ltb_spec anim_index (len (ranges track)));
    [| apply lookup_len in Hr; lia].
  rewrite (getitem_lookup _ _ _ Hr Hi), res_bind_Ok. cbn [fst snd].
  destruct (Z.geb_spec (Z.of_N s) (Z.of_N e)); [lia |].
  destruct (Z.geb_spec (Z.of_N s) (len (timestamps track))); [lia |].
  cbn [orb]. rewrite Hg0, !res_bind_Ok.
  destruct (_ <=? _); [done |]. fold last. by rewrite Hgl, res_bind_Ok.
Qed.

(** Inside a non-empty range the evaluator either returns the value of a
    keyframe as it is stored, or interpolates between two neighbours that
    bracket the global time. *)
Lemma evaluate_track_in_range track anim_index time_ms dur is_quat s e :
  values track <> [] ->
  0 <= anim_index ->
  ranges track !! Z.to_nat anim_index = Some (s, e) ->
  (s < e)%N -> Z.of_N s < len (timestamps track) ->
  let last := Z.min (Z.of_N e) (len (timestamps track)) - 1 in
  exists t0 k,
    timestamps track !! N.to_nat s = Some t0 /\
    held_at (timestamps track) (t0 + time_ms) (Z.of_N s) last k /\
    (evaluate_track track anim_index time_ms dur is_quat
       = Some <$> getitem (values track) k \/
     k < last /\ brackets (timestamps track) (t0 + time_ms) k (k + 1) /\
     evaluate_track track anim_index time_ms dur is_quat
       = sample_between track is_quat (t0 + time_ms) k (k + 1)).
Proof.
  intros Hv Hi Hr Hse Hs last.
  assert (last = Z.min (Z.of_N e) (len (timestamps track)) - 1) as Hlast by done.
  destruct (getitem_in_range (timestamps track) (Z.of_N s)) as (t0 & Ht0 & _);
    [lia |].
  replace (Z.to_nat (Z.of_N s)) with (N.to_nat s) in * by lia.
  assert (Z.of_N s <= last) by lia.
  destruct (getitem_in_range (timestamps track) last) as (tl & Htl & _); [lia |].
  exists t0.
  rewrite (evaluate_track_unfold track anim_index time_ms dur is_quat s e t0 tl)
    by done.
  fold last. clearbody last.
  destruct (Z.leb_spec (t0 + time_ms) t0).
  { exists (Z.of_N s). split; [done |]. split; [| by left].
    split; [lia |]. left. split; [done |]. exists t0.
    replace (Z.to_nat (Z.of_N s)) with (N.to_nat s) by lia. done. }
  destruct (Z.geb_spec (t0 + time_ms) tl).
  { exists last. split; [done |]. split; [| by left].
    split; [lia |]. right; left. eauto. }
  assert (Z.of_N s < last).
  { destruct (decide (Z.of_N s = last)) as [Heq |]; [| lia].
    rewrite <- Heq in Htl.
    replace (Z.to_nat (Z.of_N s)) with (N.to_nat s) in Htl by lia.
    simplify_eq. lia. }
  destruct (bracket_spec (timestamps track) (t0 + time_ms) (Z.of_N s) last)
    as (lo & hi & -> & ? & ? & -> & Hbr); [lia | lia | lia |].
  rewrite res_bind_Ok. cbn [fst snd].
  assert (brackets (timestamps track) (t0 + time_ms) lo (lo + 1)).
  { apply Hbr. exists t0, tl.
    replace (Z.to_nat (Z.of_N s)) with (N.to_nat s) by lia.
    repeat split; [done.. | lia | lia]. }
  exists lo. split; [done |]. split.
  - split; [lia |]. right; right. split; [lia | done].
  - right. repeat split; [lia | done..].
Qed.

(** With a step track, or with equal timestamps at [lo] and [hi], the
    sample at [lo] is returned as stored and nothing is divided. *)
Lemma sample_between_hold track is_quat g lo hi :
  interp_type track = 0 \/
  (exists t, getitem (timestamps track) hi = Ok t /\
             getitem (timestamps track) lo = Ok t) ->
  sample_between track is_quat g lo hi = Some <$> getitem (values track) lo.
Proof.
  unfold sample_between.
  destruct (Z.eqb_spec (interp_type track) 0) as [| Hne]; [done |].
  intros [? | (t & -> & ->)]; [done |].
  by rewrite !res_bind_Ok, Z.eqb_refl.
Qed.

Lemma sample_between_total arity track is_quat g lo :
  track_wf arity track -> (is_quat = true -> arity = 4%nat) ->
  0 <= lo -> brackets (timestamps track) g lo (lo + 1) ->
  exists v, sample_between track is_quat g lo (lo + 1) = Ok (Some v) /\
            length v = arity.
Proof.
  intros [Hlen Har] Hq Hlo (t_lo & t_hi & Hl & Hh & Hg).
  assert (lo + 1 < len (values track))
    by (apply lookup_len in Hh; unfold len in *; lia).
  destruct (getitem_in_range (values track) lo) as (v_lo & Hvl & Hgl); [lia |].
  destruct (getitem_in_range (values track) (lo + 1)) as (v_hi & Hvh & Hgh);
    [lia |].
  unfold sample_between.
  rewrite (getitem_lookup _ _ _ Hl), (getitem_lookup _ _ _ Hh) by lia.
  rewrite Hgl, Hgh.
  rewrite Forall_forall in Har.
  assert (length v_lo = arity) by (eapply Har, list_elem_of_lookup_2; eauto).
  assert (length v_hi = arity) by (eapply Har, list_elem_of_lookup_2; eauto).
  destruct (interp_type track =? 0); [rewrite res_bind_Ok; cbn; eauto |].
  rewrite !res_bind_Ok.
  destruct (Z.eqb_spec t_hi t_lo); [lia |].
  unfold int_truediv. destruct (Z.eqb_spec (t_hi - t_lo) 0); [lia |].
  rewrite !res_bind_Ok.
  destruct is_quat.
  - destruct (nlerp_total v_lo v_hi (of_int (g - t_lo) / of_int (t_hi - t_lo))%F)
      as (r & -> & ?); [specialize (Hq eq_refl); lia.. |].
    cbn. specialize (Hq eq_refl). exists r. split; [done | lia].
  - destruct (lerp_total v_lo v_hi (of_int (g - t_lo) / of_int (t_hi - t_lo))%F)
      as (r & -> & ?); [lia |]. cbn. exists r. split; [done | lia].
Qed.

(** On a track of the data model the evaluator raises nothing; it has no
    value exactly under [no_value], and a value has the track's arity. *)
Lemma evaluate_track_total arity track anim_index time_ms dur is_quat :
  track_wf arity track ->
  (is_quat = true -> arity = 4%nat) ->
  0 <= anim_index ->
  exists r,
    evaluate_track track anim_index time_ms dur is_quat = Ok r /\
    (r = None <-> no_value track anim_index) /\
    (forall v, r = Some v -> length v = arity).
Proof.
  intros Hwf Hq Hi.
  destruct (decide (values track = [])) as [Hv | Hv].
  { exists None. rewrite evaluate_track_no_values by done.
    split; [done |]. split; [| done]. split; [by left | done]. }
  destruct (Z.le_gt_cases (len (ranges track)) anim_index) as [Hr | Hr].
  { exists None. rewrite evaluate_track_no_anim by done.
    split; [done |]. split; [| done]. split; [by right; left | done]. }
  destruct (getitem_in_range (ranges track) anim_index) as ([s e] & Hse & _);
    [lia |].
  destruct (decide ((e <= s)%N \/ len (timestamps track) <= Z.of_N s))
    as [Hempty | Hin].
  { exists None. rewrite (evaluate_track_no_range _ _ _ _ _ s e) by done.
    split; [done |]. split; [| done]. split; [right; right; eauto | done]. }
  assert (exists v, evaluate_track track anim_index time_ms dur is_quat
                    = Ok (Some v) /\ length v = arity) as (v & -> & Hlen).
  { destruct (evaluate_track_in_range track anim_index time_ms dur
                is_quat s e) as (t0 & k & Ht0 & [Hk Hheld] & [-> | (? & Hbr & ->)]);
      [done | done | done | lia | lia | |].
    - destruct (getitem_in_range (values track) k) as (v & Hv' & ->);
        [destruct Hwf as [Hlen _]; unfold len in *; lia |].
      cbn. exists v. split; [done |].
      destruct Hwf as [_ Har]. rewrite Forall_forall in Har.
      eapply Har, list_elem_of_lookup_2; eauto.
    - eapply sample_between_total; eauto; lia. }
  exists (Some v). split; [done |]. split; [| by intros ? [= <-]].
  split; [done |].
  intros [? | [? | (s' & e' & Hse' & ?)]]; [done | lia |].
  rewrite Hse in Hse'; simplify_eq; tauto.
Qed.
End TrackLemmas.

(** C3 (as the code has it). For a track of the data model (values
    matching timestamps one to one, tuples of one arity, four components
    when blended as quaternions) and an animation index that is a position
    (not negative, as every caller passes it), [evaluate_track] raises
    nothing, and it returns [None] exactly when the track has no values, or
    the animation index is past the end of [ranges], or the selected range is
    empty ([start_idx >= end_idx]) or starts at or beyond the end of the
    timestamps; in every other case it returns a value. *)
Theorem evaluate_track_no_value_iff {F : Type} `{ScalarLaws F}
    (arity : nat) (track : M2Track F)
    (anim_index time_ms anim_duration : Z) (is_quat : bool) :
  track_wf arity track ->
  (is_quat = true -> arity = 4%nat) ->
  0 <= anim_index ->
  exists r,
    evaluate_track track anim_index time_ms anim_duration is_quat = Ok r /\
    (r = None <-> no_value track anim_index).
Proof.
  intros Hwf Hq Hi.
  destruct (evaluate_track_total arity track anim_index time_ms anim_duration
              is_quat Hwf Hq Hi) as (r & Hev & Hnone & _).
  exists r. by split.
Qed.

(** The quaternion track, blended half way between its two keyframes. *)
Lemma evaluate_track_no_value_iff_witness :
  exists r, evaluate_track sample_quat_track 0 50 0 true = Ok r /\
            (r = None <-> no_value sample_quat_track 0).
Proof.
  apply (evaluate_track_no_value_iff 4 sample_quat_track 0 50 0 true).
  - split; [reflexivity | repeat constructor].
  - reflexivity.
  - lia.
Defined.

(** C3, the claim as stated fails: an animation index below
    [-len(track.ranges)] passes the test [anim_index < len(track.ranges)],
    and [track.ranges[anim_index]] raises IndexError where the claim has
    "no value" for an index out of range and no exception at all. *)
Lemma negative_anim_index_raises :
  evaluate_track sample_track (-2) 150 0 false = Raise IndexError /\
  ~ (exists r, evaluate_track sample_track (-2) 150 0 false = Ok r /\
               (r = None <-> no_value sample_track (-2))).
Proof. split; [reflexivity |]. by intros (r & Hr & _). Qed.

(** A step track of the data model: no value exactly under [no_value],
    and otherwise the stored value of the keyframe that [shown_at] names. *)
Lemma evaluate_step_track {F : Type} `{Scalar F} (track : M2Track F)
    (anim_index time_ms dur : Z) (is_quat : bool) :
  length (values track) = length (timestamps track) ->
  0 <= anim_index ->
  interp_type track = 0 ->
  exists r,
    evaluate_track track anim_index time_ms dur is_quat = Ok r /\
    (r = None <-> no_value track anim_index) /\
    (forall v, r = Some v ->
       exists s e t0 k,
         ranges track !! Z.to_nat anim_index = Some (s, e) /\
         timestamps track !! N.to_nat s = Some t0 /\
         shown_at (timestamps track) (t0 + time_ms) (Z.of_N s)
                  (Z.min (Z.of_N e) (len (timestamps track)) - 1) k /\
         values track !! Z.to_nat k = Some v).
Proof.
  intros Hlen Hi Hstep.
  destruct (decide (values track = [])) as [Hv | Hv].
  { exists None. rewrite evaluate_track_no_values by done.
    split; [done |]. split; [| done]. split; [by left | done]. }
  destruct (Z.le_gt_cases (len (ranges track)) anim_index) as [Hr | Hr].
  { exists None. rewrite evaluate_track_no_anim by done.
    split; [done |]. split; [| done]. split; [by right; left | done]. }
  destruct (getitem_in_range (ranges track) anim_index) as ([s e] & Hse & _);
    [lia |].
  destruct (decide ((e <= s)%N \/ len (timestamps track) <= Z.of_N s))
    as [Hempty | Hin].
  { exists None. rewrite (evaluate_track_no_range _ _ _ _ _ s e) by done.
    split; [done |]. split; [| done]. split; [right; right; eauto | done]. }
  set (last := Z.min (Z.of_N e) (len (timestamps track)) - 1).
  assert (Z.of_N s <= last < len (timestamps track)) as Hlast
    by (subst last; lia).
  destruct (getitem_in_range (timestamps track) (Z.of_N s)) as (t0 & Ht0 & _);
    [lia |].
  destruct (getitem_in_range (timestamps track) last) as (tl & Htl & _); [lia |].
  assert (timestamps track !! N.to_nat s = Some t0) as Ht0'
    by (by replace (N.to_nat s) with (Z.to_nat (Z.of_N s)) by lia).
  assert (exists k v,
            evaluate_track track anim_index time_ms dur is_quat = Ok (Some v) /\
            shown_at (timestamps track) (t0 + time_ms) (Z.of_N s) last k /\
            values track !! Z.to_nat k = Some v) as (k & v & Hev & Hshown & Hk).
  { rewrite (evaluate_track_unfold track anim_index time_ms dur is_quat s e t0 tl)
      by (done || lia).
    fold last.
    destruct (Z.leb_spec (t0 + time_ms) t0).
    { destruct (getitem_in_range (values track) (Z.of_N s)) as (v & Hv' & ->);
        [unfold len in *; lia |].
      exists (Z.of_N s), v. split; [done |]. split; [| done].
      exists t0, tl. split; [done |]. split; [done |]. by left. }
    destruct (Z.geb_spec (t0 + time_ms) tl).
    { destruct (getitem_in_range (values track) last) as (v & Hv' & ->);
        [unfold len in *; lia |].
      exists last, v. split; [done |]. split; [| done].
      exists t0, tl. split; [done |]. split; [done |]. right; left. lia. }
    assert (Z.of_N s < last).
    { destruct (decide (Z.of_N s = last)) as [Heq |]; [| lia].
      rewrite <- Heq in Htl. simplify_eq. lia. }
    destruct (bracket_spec (timestamps track) (t0 + time_ms) (Z.of_N s) last)
      as (lo & hi & -> & ? & ? & -> & Hbr); [lia | lia | lia |].
    rewrite res_bind_Ok. cbn [fst snd].
    rewrite sample_between_hold by (by left).
    destruct (getitem_in_range (values track) lo) as (v & Hv' & ->);
      [unfold len in *; lia |].
    exists lo, v. split; [done |]. split; [| done].
    exists t0, tl. split; [done |]. split; [done |]. right; right.
    split; [lia |]. split; [lia |]. apply Hbr. exists t0, tl.
    repeat split; [done.. | lia | lia]. }
  exists (Some v). split; [done |]. split.
  - split; [done |].
    intros [? | [? | (s' & e' & Hse' & ?)]]; [done | lia |].
    rewrite Hse in Hse'; simplify_eq; tauto.
  - intros v' [= <-]. by exists s, e, t0, k.
Qed.

(** C6. With step interpolation ([interp_type = 0]), and also whenever the
    timestamps at the two bracketing keyframes are equal, lines 350-351
    return the value of the earlier keyframe exactly as it is stored: no
    blend is computed and nothing is divided by the timestamp difference.
    So a step track of the data model has no value exactly when the track
    has none for the animation, and otherwise yields the stored value of
    one keyframe: the first of the range up to its timestamp, the last from
    its timestamp on, and in between the earlier one of the two neighbours
    that bracket the global time. *)
Theorem evaluate_track_step_verbatim {F : Type} `{Scalar F}
    (track : M2Track F) (anim_index time_ms anim_duration : Z)
    (is_quat : bool) :
  length (values track) = length (timestamps track) ->
  0 <= anim_index ->
  (forall g lo hi v,
     0 <= lo -> values track !! Z.to_nat lo = Some v ->
     interp_type track = 0 \/
       (0 <= hi /\ timestamps track !! Z.to_nat hi = timestamps track !! Z.to_nat lo
        /\ is_Some (timestamps track !! Z.to_nat lo)) ->
     sample_between track is_quat g lo hi = Ok (Some v)) /\
  (interp_type track = 0 ->
   exists r,
     evaluate_track track anim_index time_ms anim_duration is_quat = Ok r /\
     (r = None <-> no_value track anim_index) /\
     (forall v, r = Some v ->
        exists s e t0 k,
          ranges track !! Z.to_nat anim_index = Some (s, e) /\
          timestamps track !! N.to_nat s = Some t0 /\
          shown_at (timestamps track) (t0 + time_ms) (Z.of_N s)
                   (Z.min (Z.of_N e) (len (timestamps track)) - 1) k /\
          values track !! Z.to_nat k = Some v)).
Proof.
  intros Hlen Hi. split.
  - intros g lo hi v Hlo Hv Hhold.
    rewrite sample_between_hold.
    + by rewrite (getitem_lookup _ _ _ Hv Hlo).
    + destruct Hhold as [? | (Hhi & Heq & [t Ht])]; [by left | right].
      exists t. rewrite Ht in Heq.
      by rewrite (getitem_lookup _ _ _ Ht Hlo), (getitem_lookup _ _ _ Heq Hhi).
  - intros Hstep. by apply evaluate_step_track.
Qed.

(** The step track between its second and third keyframe. *)
Lemma evaluate_track_step_verbatim_witness :
  sample_between sample_step_track false 150 1 2 = Ok (Some [3; 4; 5]%float) /\
  exists r,
    evaluate_track sample_step_track 0 150 0 false = Ok r /\
    (r = None <-> no_value sample_step_track 0) /\
    (forall v, r = Some v ->
       exists s e t0 k,
         ranges sample_step_track !! Z.to_nat 0 = Some (s, e) /\
         timestamps sample_step_track !! N.to_nat s = Some t0 /\
         shown_at (timestamps sample_step_track) (t0 + 150) (Z.of_N s)
                  (Z.min (Z.of_N e) (len (timestamps sample_step_track)) - 1) k /\
         values sample_step_track !! Z.to_nat k = Some v).
Proof.
  destruct (evaluate_track_step_verbatim sample_step_track 0 150 0 false)
    as [Hhold Hstep]; [reflexivity | lia |].
  split.
  - apply Hhold; [lia | reflexivity | left; reflexivity].
  - apply Hstep. reflexivity.
Defined.

(** C10. A range that passes the start-side checks (a start below its end
    and inside the timestamps) is never rejected, also when its end lies
    beyond the timestamps: the evaluator returns a value, so no index it
    uses is out of bounds, and that value is the one the track yields with
    the end of the range cut down to the number of timestamps. *)
Theorem evaluate_track_clamps_end {F : Type} `{ScalarLaws F}
    (arity : nat) (track : M2Track F)
    (anim_index time_ms anim_duration : Z) (is_quat : bool) (s e : N) :
  track_wf arity track ->
  (is_quat = true -> arity = 4%nat) ->
  0 <= anim_index ->
  ranges track !! Z.to_nat anim_index = Some (s, e) ->
  (s < e)%N ->
  Z.of_N s < len (timestamps track) ->
  exists v,
    evaluate_track track anim_index time_ms anim_duration is_quat = Ok (Some v) /\
    ranges (clamp_range track anim_index) !! Z.to_nat anim_index
      = Some (s, N.min e (N.of_nat (length (timestamps track)))) /\
    evaluate_track (clamp_range track anim_index) anim_index time_ms
      anim_duration is_quat = Ok (Some v).
Proof.
  intros Hwf Hq Hi Hse Hlt Hs.
  assert (values track <> []) as Hv.
  { destruct Hwf as [Hlen _]. intros Hnil. rewrite Hnil in Hlen.
    unfold len in Hs. simpl in Hlen. lia. }
  assert (ranges (clamp_range track anim_index) !! Z.to_nat anim_index
          = Some (s, N.min e (N.of_nat (length (timestamps track))))) as Hclamp
    by (cbn [clamp_range ranges]; by rewrite list_lookup_alter_eq, Hse).
  assert (Z.min (Z.of_N (N.min e (N.of_nat (length (timestamps track)))))
                (len (timestamps track))
          = Z.min (Z.of_N e) (len (timestamps track))) as Hmin
    by (unfold len; lia).
  destruct (evaluate_track_total arity track anim_index time_ms
              anim_duration is_quat) as ([v |] & Hev & Hnone & _); [done.. | |].
  - exists v. split; [done |]. split; [done |]. rewrite <- Hev.
    assert (exists t0, timestamps track !! N.to_nat s = Some t0) as [t0 Ht0]
      by (apply lookup_lt_is_Some_2; unfold len in Hs; lia).
    assert (exists tl, timestamps track
              !! Z.to_nat (Z.min (Z.of_N e) (len (timestamps track)) - 1) = Some tl)
      as [tl Htl] by (apply lookup_lt_is_Some_2; unfold len in *; lia).
    rewrite (evaluate_track_unfold track anim_index time_ms anim_duration
               is_quat s e t0 tl) by (done || lia).
    rewrite (evaluate_track_unfold (clamp_range track anim_index) anim_index
               time_ms anim_duration is_quat s
               (N.min e (N.of_nat (length (timestamps track)))) t0 tl);
      [| done | done | done | unfold len in Hs; lia | done | done
       | cbn [clamp_range timestamps]; by rewrite Hmin ].
    cbn [clamp_range values timestamps]. rewrite Hmin. reflexivity.
  - exfalso. destruct Hnone as [Hnone _].
    destruct (Hnone eq_refl) as [? | [Hlen | (s' & e' & Hse' & Hbad)]];
      [done | apply lookup_len in Hse; lia |].
    rewrite Hse in Hse'. simplify_eq. lia.
Qed.

(** A range [(1, 9)] over three timestamps. *)
Lemma evaluate_track_clamps_end_witness :
  exists v,
    evaluate_track sample_long_range_track 0 50 0 false = Ok (Some v) /\
    ranges (clamp_range sample_long_range_track 0) !! Z.to_nat 0
      = Some (1%N, N.min 9 (N.of_nat (length (timestamps sample_long_range_track)))) /\
    evaluate_track (clamp_range sample_long_range_track 0) 0 50 0 false
      = Ok (Some v).
Proof.
  apply (evaluate_track_clamps_end 3 sample_long_range_track 0 50 0 false 1 9).
  - split; [reflexivity | repeat constructor].
  - discriminate.
  - lia.
  - reflexivity.
  - reflexivity.
  - vm_compute. reflexivity.
Defined.

(** ** Bone transforms *)

Section BoneLemmas.
Context {F : Type} `{ScalarLaws F}.
Implicit Types (bones : list (Bone F)) (bone : Bone F) (cache : @cache_t F).

Lemma length_3_inv {A} (l : list A) :
  length l = 3%nat -> exists x y z, l = [x; y; z].
Proof. destruct l as [| x [| y [| z [| ? ?]]]]; try discriminate. eauto. Qed.

Lemma length_4_inv {A} (l : list A) :
  length l = 4%nat -> exists x y z w, l = [x; y; z; w].
Proof. destruct l as [| x [| y [| z [| w [| ? ?]]]]]; try discriminate. eauto. Qed.

Lemma option_tuple3 (o : option (list F)) :
  (forall v, o = Some v -> length v = 3%nat) -> exists t, o = tuple3 <$> t.
Proof.
  destruct o as [v |]; intros Hl; [| by exists None].
  destruct (length_3_inv v) as (x & y & z & ->); [by apply Hl |].
  by exists (Some (x, y, z)).
Qed.

Lemma option_tuple4 (o : option (list F)) :
  (forall v, o = Some v -> length v = 4%nat) -> exists t, o = tuple4 <$> t.
Proof.
  destruct o as [v |]; intros Hl; [| by exists None].
  destruct (length_4_inv v) as (x & y & z & w & ->); [by apply Hl |].
  by exists (Some (x, y, z, w)).
Qed.

(** The local matrix of a bone is the product of the specification. *)
Lemma local_transform_spec bone anim_index time_ms dur :
  bone_wf bone -> 0 <= anim_index ->
  exists p trans rot scl,
    pivot bone = tuple3 p /\
    evaluate_track (translation bone) anim_index time_ms dur false
      = Ok (tuple3 <$> trans) /\
    evaluate_track (rotation bone) anim_index time_ms dur true
      = Ok (tuple4 <$> rot) /\
    evaluate_track (scale bone) anim_index time_ms dur false
      = Ok (tuple3 <$> scl) /\
    local_transform bone anim_index time_ms dur = Ok (spec_local p trans rot scl).
Proof.
  intros (Ht & Hr & Hs & Hp) Hi.
  destruct (length_3_inv _ Hp) as (px & py & pz & Hpivot).
  destruct (evaluate_track_total 3 (translation bone) anim_index time_ms dur false)
    as (ot & Hot & _ & Hlt); [done.. |].
  destruct (evaluate_track_total 4 (rotation bone) anim_index time_ms dur true)
    as (or & Hor & _ & Hlr); [done.. |].
  destruct (evaluate_track_total 3 (scale bone) anim_index time_ms dur false)
    as (os & Hos & _ & Hls); [done.. |].
  destruct (option_tuple3 ot Hlt) as [trans ->].
  destruct (option_tuple4 or Hlr) as [rot ->].
  destruct (option_tuple3 os Hls) as [scl ->].
  exists (px, py, pz), trans, rot, scl.
  do 4 (split; [done |]).
  unfold local_transform. rewrite Hot, Hor, Hos, Hpivot.
  destruct trans as [[[tx ty] tz] |], rot as [[[[qx qy] qz] qw] |],
    scl as [[[sx sy] sz] |]; reflexivity.
Qed.

Lemma eval_step fuel bones i a t d cache :
  evaluate_bone_transform (S fuel) bones i a t d cache =
    match cache_get cache i with
    | Some world => Some (Ok world, cache)
    | None =>
      match bone ← getitem bones i; local ← local_transform bone a t d;
            Ok (bone, local) with
      | Raise e => Some (Raise e, cache)
      | Ok (bone, local) =>
        if parent bone >=? 0 then
          match evaluate_bone_transform fuel bones (parent bone) a t d cache with
          | None => None
          | Some (Raise e, cache) => Some (Raise e, cache)
          | Some (Ok parent_mat, cache) =>
            Some (Ok (parent_mat @ local)%F,
                  cache_put cache i (parent_mat @ local)%F)
          end
        else Some (Ok local, cache_put cache i local)
      end
    end.
Proof. reflexivity. Qed.

Lemma eval_fuel_mono bones a t d n :
  forall i r n',
    evaluate_bone_transform n bones i a t d None = Some r -> (n <= n')%nat ->
    evaluate_bone_transform n' bones i a t d None = Some r.
Proof.
  induction n as [| n IH]; intros i r n' Hev Hle; [done |].
  destruct n' as [| n']; [lia |].
  rewrite eval_step in *. cbn [cache_get mbind option_bind] in *.
  destruct (_ ≫= _) as [[bone local] | e]; [| done].
  destruct (parent bone >=? 0); [| done].
  destruct (evaluate_bone_transform n bones (parent bone) a t d None)
    as [rp |] eqn:Hp; [| done].
  by rewrite (IH _ _ n' Hp) by lia.
Qed.

Lemma is_world_unique bones a t d j m m' :
  is_world bones a t d j m -> is_world bones a t d j m' -> m = m'.
Proof.
  intros [n Hn] [n' Hn'].
  apply (eval_fuel_mono _ _ _ _ _ _ _ (n `max` n')%nat) in Hn; [| lia].
  apply (eval_fuel_mono _ _ _ _ _ _ _ (n `max` n')%nat) in Hn'; [| lia].
  congruence.
Qed.

(** The world matrix of a bone is its local matrix at a root, and the
    parent's world matrix times its local matrix below a root. *)
Lemma is_world_inv bones a t d i bone local world :
  is_world bones a t d i world ->
  0 <= i -> bones !! Z.to_nat i = Some bone ->
  local_transform bone a t d = Ok local ->
  (parent bone < 0 -> world = local) /\
  (0 <= parent bone ->
   exists parent_world,
     is_world bones a t d (parent bone) parent_world /\
     world = (parent_world @ local)%F).
Proof.
  intros [[| n] Hn] Hi Hb Hl; [done |].
  rewrite eval_step in Hn. cbn [cache_get mbind option_bind] in Hn.
  rewrite (getitem_lookup _ _ _ Hb Hi), res_bind_Ok, Hl, res_bind_Ok in Hn.
  destruct (Z.geb_spec (parent bone) 0).
  - split; [lia |]. intros _.
    destruct (evaluate_bone_transform n bones (parent bone) a t d None)
      as [[[pw | e] c] |] eqn:Hp; [| done..].
    assert (c = None) as ->.
    { destruct c; [| done]. by cbn in Hn. }
    exists pw. split; [by exists n |]. by simplify_eq.
  - split; [| lia]. intros _. by simplify_eq.
Qed.

Lemma cache_valid_put bones a t d cache i world :
  cache_valid bones a t d cache -> is_world bones a t d i world ->
  cache_valid bones a t d (cache_put cache i world).
Proof.
  intros Hc Hw j m. destruct cache as [c |]; [| done].
  cbn. destruct (decide (i = j)) as [-> |].
  - rewrite lookup_insert_eq. by intros [= <-].
  - rewrite lookup_insert_ne by done. intros Hj. by apply Hc.
Qed.

(** A bone whose parent chain reaches a root gets a matrix, whatever the
    cache holds; with a cache of world matrices it gets its world matrix and
    leaves such a cache. *)
Lemma eval_cached bones a t d n :
  Forall bone_wf bones -> 0 <= a ->
  forall i cache,
    reaches_root bones n i = true ->
    exists world cache',
      evaluate_bone_transform n bones i a t d cache = Some (Ok world, cache') /\
      (cache_valid bones a t d cache ->
       cache_valid bones a t d cache' /\ is_world bones a t d i world).
Proof.
  intros Hwf Ha. induction n as [| n IH]; intros i cache Hroot; [done |].
  cbn [reaches_root] in Hroot. apply andb_true_iff in Hroot as [Hi Hroot].
  apply Z.leb_le in Hi.
  destruct (bones !! Z.to_nat i) as [bone |] eqn:Hb; [| done].
  rewrite eval_step.
  destruct (cache_get cache i) as [m |] eqn:Hget.
  { exists m, cache. split; [done |]. intros Hc. split; [done | by apply Hc]. }
  destruct (local_transform_spec bone a t d)
    as (p & trans & rot & scl & _ & _ & _ & _ & Hl);
    [by eapply (proj1 (Forall_forall _ _) Hwf), list_elem_of_lookup_2 | done |].
  rewrite (getitem_lookup _ _ _ Hb Hi), res_bind_Ok, Hl, res_bind_Ok.
  set (local := spec_local p trans rot scl) in *.
  destruct (Z.geb_spec (parent bone) 0) as [Hp | Hp].
  - destruct (Z.ltb_spec (parent bone) 0); [lia |]. cbn [orb] in Hroot.
    destruct (IH (parent bone) cache Hroot) as (pw & c1 & -> & Hvalid).
    eexists _, _. split; [done |]. intros Hc.
    destruct (Hvalid Hc) as [Hc1 [f Hf]].
    assert (is_world bones a t d i (pw @ local)%F).
    { exists (S f). rewrite eval_step. cbn [cache_get mbind option_bind].
      rewrite (getitem_lookup _ _ _ Hb Hi), res_bind_Ok, Hl, res_bind_Ok.
      destruct (Z.geb_spec (parent bone) 0); [| lia]. by rewrite Hf. }
    split; [by apply cache_valid_put | done].
  - eexists _, _. split; [done |]. intros Hc.
    assert (is_world bones a t d i local).
    { exists 1%nat. rewrite eval_step. cbn [cache_get mbind option_bind].
      rewrite (getitem_lookup _ _ _ Hb Hi), res_bind_Ok, Hl, res_bind_Ok.
      by destruct (Z.geb_spec (parent bone) 0); [lia |]. }
    split; [by apply cache_valid_put | done].
Qed.

(** A bone index at or beyond the end of the table, and not in the cache,
    raises IndexError. *)
Lemma eval_beyond bones a t d fuel i cache :
  len bones <= i -> cache_get cache i = None ->
  evaluate_bone_transform (S fuel) bones i a t d cache
    = Some (Raise IndexError, cache).
Proof.
  intros Hi Hget. rewrite eval_step, Hget. by rewrite getitem_beyond.
Qed.
End BoneLemmas.

(** C1. For a bone of a well-formed skeleton, the local matrix computed by
    [evaluate_bone_transform] is the product
    [Translate(pivot) * Translate(t) * Rotate(q) * Scale(s) * Translate(-pivot)]
    of the values [t], [q], [s] its tracks evaluate to, with the identity
    matrix in place of a factor whose track has no value; and the matrix
    returned, cached or not, is that local matrix for a root (parent below
    0) and the parent's world matrix times the local matrix otherwise. *)
Theorem bone_transform_composition {F : Type} `{ScalarLaws F}
    (bones : list (Bone F)) (bone_index : Z) (bone : Bone F)
    (anim_index time_ms anim_duration : Z) (cache : cache_t) (n : nat) :
  Forall bone_wf bones ->
  0 <= anim_index ->
  0 <= bone_index ->
  bones !! Z.to_nat bone_index = Some bone ->
  reaches_root bones n bone_index = true ->
  cache_valid bones anim_index time_ms anim_duration cache ->
  exists p trans rot scl world cache',
    pivot bone = tuple3 p /\
    evaluate_track (translation bone) anim_index time_ms anim_duration false
      = Ok (tuple3 <$> trans) /\
    evaluate_track (rotation bone) anim_index time_ms anim_duration true
      = Ok (tuple4 <$> rot) /\
    evaluate_track (scale bone) anim_index time_ms anim_duration false
      = Ok (tuple3 <$> scl) /\
    local_transform bone anim_index time_ms anim_duration
      = Ok (spec_local p trans rot scl) /\
    evaluate_bone_transform n bones bone_index anim_index time_ms
      anim_duration cache = Some (Ok world, cache') /\
    (parent bone < 0 -> world = spec_local p trans rot scl) /\
    (0 <= parent bone ->
     exists parent_world,
       is_world bones anim_index time_ms anim_duration (parent bone) parent_world /\
       world = (parent_world @ spec_local p trans rot scl)%F).
Proof.
  intros Hwf Ha Hi Hb Hroot Hc.
  destruct (local_transform_spec bone anim_index time_ms anim_duration)
    as (p & trans & rot & scl & Hp & Ht & Hr & Hs & Hl);
    [by eapply (proj1 (Forall_forall _ _) Hwf), list_elem_of_lookup_2 | done |].
  destruct (eval_cached bones anim_index time_ms anim_duration n Hwf Ha
              bone_index cache Hroot) as (world & cache' & Hev & Hvalid).
  destruct (Hvalid Hc) as [_ Hw].
  exists p, trans, rot, scl, world, cache'.
  do 6 (split; [done |]).
  by eapply is_world_inv.
Qed.

Lemma two_bones_wf : Forall bone_wf two_bones.
Proof.
  repeat constructor.
Qed.

(** The child of the two-bone skeleton, through an empty cache. *)
Lemma bone_transform_composition_witness :
  exists p trans rot scl world cache',
    pivot child_bone = tuple3 p /\
    evaluate_track (translation child_bone) 0 50 0 false = Ok (tuple3 <$> trans) /\
    evaluate_track (rotation child_bone) 0 50 0 true = Ok (tuple4 <$> rot) /\
    evaluate_track (scale child_bone) 0 50 0 false = Ok (tuple3 <$> scl) /\
    local_transform child_bone 0 50 0 = Ok (spec_local p trans rot scl) /\
    evaluate_bone_transform 2 two_bones 1 0 50 0 (Some ∅)
      = Some (Ok world, cache') /\
    (parent child_bone < 0 -> world = spec_local p trans rot scl) /\
    (0 <= parent child_bone ->
     exists parent_world,
       is_world two_bones 0 50 0 (parent child_bone) parent_world /\
       world = (parent_world @ spec_local p trans rot scl)%F).
Proof.
  apply (@bone_transform_composition float float_scalar float_laws two_bones 1 child_bone 0 50 0 (Some ∅) 2).
  - apply two_bones_wf.
  - lia.
  - lia.
  - reflexivity.
  - reflexivity.
  - intros j m. cbn. rewrite lookup_empty. discriminate.
Defined.

(** C2 (as the code has it). [evaluate_bone_transform] returns a matrix for
    every bone whose parent chain stays in the table and reaches a root, and
    it raises IndexError for a bone index at or beyond the end of the table
    that the cache does not hold.  It does not look for cycles. *)
Theorem evaluate_bone_transform_outcomes {F : Type} `{ScalarLaws F}
    (bones : list (Bone F)) (bone_index anim_index time_ms anim_duration : Z)
    (cache : cache_t) (n : nat) :
  (Forall bone_wf bones -> 0 <= anim_index ->
   reaches_root bones n bone_index = true ->
   exists world cache',
     evaluate_bone_transform n bones bone_index anim_index time_ms
       anim_duration cache = Some (Ok world, cache')) /\
  (len bones <= bone_index -> cache_get cache bone_index = None ->
   evaluate_bone_transform (S n) bones bone_index anim_index time_ms
     anim_duration cache = Some (Raise IndexError, cache)).
Proof.
  split.
  - intros Hwf Ha Hroot.
    destruct (eval_cached bones anim_index time_ms anim_duration n Hwf Ha
                bone_index cache Hroot) as (world & cache' & Hev & _).
    eauto.
  - apply eval_beyond.
Qed.

(** The child bone of the two-bone skeleton, and the index 2 past its end. *)
Lemma evaluate_bone_transform_outcomes_witness :
  (exists world cache',
     evaluate_bone_transform 2 two_bones 1 0 50 0 (Some ∅)
       = Some (Ok world, cache')) /\
  evaluate_bone_transform 1 two_bones 2 0 50 0 (Some ∅)
    = Some (Raise IndexError, Some ∅).
Proof.
  split.
  - apply (@evaluate_bone_transform_outcomes float float_scalar float_laws two_bones 1 0 50 0 (Some ∅) 2).
    + apply two_bones_wf.
    + lia.
    + reflexivity.
  - apply (@evaluate_bone_transform_outcomes float float_scalar float_laws two_bones 2 0 50 0 (Some ∅) 0).
    + vm_compute. discriminate.
    + reflexivity.
Defined.

(** C2, the claim as stated fails: on a parent cycle (a bone that is its own
    parent) no error comes back, the recursion over parents never ends,
    with or without a cache. *)
Lemma self_parent_never_returns :
  (forall fuel,
     evaluate_bone_transform fuel self_parent_bones 0 0 0 0 None = None) /\
  (forall fuel,
     evaluate_bone_transform fuel self_parent_bones 0 0 0 0 empty_cache = None).
Proof.
  assert (exists bone local,
            (bone ← getitem self_parent_bones 0;
             local ← local_transform bone 0 0 0; Ok (bone, local))
            = Ok (bone, local) /\ parent bone = 0) as (bone & local & Hl & Hp)
    by (eexists _, _; split; [vm_compute; reflexivity | reflexivity]).
  split; intros fuel; induction fuel as [| fuel IH]; try done;
    rewrite eval_step; cbn [cache_get mbind option_bind];
    try rewrite lookup_empty; rewrite Hl, Hp; cbn; by rewrite IH.
Qed.

(** ** Skinning *)

Section SkinLemmas.
Context {F : Type} `{Arith F}.
Implicit Types (v : Vertex F) (mats : list (mat4 F)).

Lemma skin_slot_spec mats v p deformed (j : nat) :
  (j < length (bone_weights v))%nat ->
  (j < length (bone_indices v))%nat ->
  skin_slot mats v p deformed (Z.of_nat j)
    = Ok (from_option (vadd3 deformed) deformed (slot_term mats v p j)).
Proof.
  intros Hw Hb. unfold skin_slot, slot_term.
  destruct (lookup_lt_is_Some_2 _ _ Hw) as [w Hwj].
  destruct (lookup_lt_is_Some_2 _ _ Hb) as [bi Hbj].
  rewrite (getitem_lookup (bone_weights v) (Z.of_nat j) w),
    (getitem_lookup (bone_indices v) (Z.of_nat j) bi), Hwj, Hbj
    by (rewrite ?Nat2Z.id; done || lia).
  rewrite !res_bind_Ok. cbn [mbind option_bind].
  destruct (N.eqb_spec w 0) as [-> | Hne]; [done |].
  destruct (decide (w = 0%N)); [done |].
  destruct (Z.ltb_spec (Z.of_N bi) (len mats)) as [Hlt | Hge].
  - destruct (getitem_in_range mats (Z.of_N bi)) as (m & Hm & ->); [lia |].
    replace (Z.to_nat (Z.of_N bi)) with (N.to_nat bi) in Hm by lia.
    by rewrite Hm.
  - rewrite lookup_ge_None_2; [done | unfold len in Hge; lia].
Qed.

Lemma skin_slots_spec mats v p (js : list nat) :
  forall deformed,
    Forall (fun j => j < length (bone_weights v)
                     /\ j < length (bone_indices v))%nat js ->
    skin_slots mats v p deformed (Z.of_nat <$> js)
      = Ok (fold_left vadd3 (omap (slot_term mats v p) js) deformed).
Proof.
  induction js as [| j js IH]; intros deformed Hjs; [done |].
  apply Forall_cons in Hjs as [[Hw Hb] Hjs].
  cbn [fmap list_fmap skin_slots omap list_omap].
  rewrite skin_slot_spec, res_bind_Ok by done.
  rewrite IH by done.
  by destruct (slot_term mats v p j).
Qed.

(** The vertex loop computes the position of the specification. *)
Lemma skin_vertex_spec mats v :
  vertex_wf v -> skin_vertex mats v = Ok (skin_spec mats v).
Proof.
  intros (Hp & Hw & Hb).
  destruct (length_3_inv _ Hp) as (x & y & z & Hpos).
  unfold skin_vertex, skin_spec. rewrite Hpos.
  rewrite (getitem_lookup _ 0 x), (getitem_lookup _ 1 y),
    (getitem_lookup _ 2 z) by (done || lia).
  change (range 4) with (Z.of_nat <$> seq 0 4).
  rewrite !res_bind_Ok.
  apply skin_slots_spec. rewrite Hw, Hb.
  repeat constructor; lia.
Qed.

Lemma skin_vertices_spec mats (vs : list (Vertex F)) :
  Forall vertex_wf vs -> skin_vertices mats vs = Ok (skin_spec mats <$> vs).
Proof.
  induction vs as [| v vs IH]; intros Hvs; [done |].
  apply Forall_cons in Hvs as [Hv Hvs].
  cbn [skin_vertices]. by rewrite skin_vertex_spec, res_bind_Ok, IH.
Qed.

Lemma same_influences_spec mats v v' :
  same_influences v v' -> skin_spec mats v = skin_spec mats v'.
Proof.
  intros (Hp & Hw & Hl & Hb). unfold skin_spec. rewrite <- Hp.
  destruct (pos v) as [| x [| y [| z [| ? ?]]]]; try done.
  f_equal. apply list_omap_ext, Forall_Forall2_diag, Forall_forall.
  intros j _.
  unfold slot_term. rewrite <- Hw.
  destruct (bone_weights v !! j) as [w |] eqn:Hwj; [| done]. cbn.
  destruct (decide (w = 0%N)) as [-> | Hne].
  - assert (is_Some (bone_indices v !! j) <-> is_Some (bone_indices v' !! j))
      as Hsome by (rewrite !lookup_lt_is_Some, Hl; done).
    destruct (bone_indices v !! j), (bone_indices v' !! j); cbn; try done;
      destruct Hsome as [Hs1 Hs2]; (by destruct Hs1) || (by destruct Hs2).
  - by rewrite (Hb j w).
Qed.

Lemma no_influence_spec mats v : no_influence mats v -> skin_spec mats v = zeros3.
Proof.
  intros Hno. unfold skin_spec.
  destruct (pos v) as [| x [| y [| z [| ? ?]]]]; try done.
  replace (omap _ _) with (@nil (vec3 F)); [done |].
  symmetry. induction (seq 0 4) as [| j js IH]; [done |].
  cbn [omap list_omap]. rewrite IH.
  replace (slot_term mats v (x, y, z, of_int 1) j) with (@None (vec3 F)); [done |].
  unfold slot_term.
  destruct (bone_weights v !! j) as [w |] eqn:Hw; [| done].
  destruct (bone_indices v !! j) as [bi |] eqn:Hb; [| done]. cbn.
  destruct (decide (w = 0%N)); [done |].
  destruct (Hno j w bi Hw Hb) as [? | Hge]; [done |].
  by rewrite lookup_ge_None_2.
Qed.
End SkinLemmas.

Section WeightConservation.
Context {F : Type} `{ExactArith F}.
Implicit Types (v : Vertex F) (mats : list (mat4 F)).

Lemma matvec_eye4 (x y z : F) :
  take3 (matvec eye4 (x, y, z, of_int 1)) = (x, y, z).
Proof.
  unfold eye4, matvec, dot4, take3, f0, f1.
  by rewrite !fmul_0_l, !fmul_1_l, !fadd_0_r, !fadd_0_l.
Qed.

Lemma scaled_0 x y z : scaled 0 x y z = zeros3.
Proof. unfold scaled, vscale3, zeros3, f0. by rewrite fdiv_0_l, !fmul_0_l. Qed.

Lemma scaled_255 x y z : scaled 255 x y z = (x, y, z).
Proof. unfold scaled, vscale3. by rewrite fdiv_255, !fmul_1_l. Qed.

Lemma scaled_add W w x y z :
  vadd3 (scaled W x y z) (vscale3 (of_int w / of_int 255)%F (x, y, z))
    = scaled (W + w) x y z.
Proof.
  unfold scaled, vscale3, vadd3.
  by rewrite of_int_add, fdiv_add_distr, !fmul_add_distr_r.
Qed.

Lemma identity_terms mats v x y z (js : list nat) :
  (forall j w bi, bone_weights v !! j = Some w -> bone_indices v !! j = Some bi ->
                  w <> 0%N -> mats !! N.to_nat bi = Some eye4) ->
  Forall (fun j => j < length (bone_weights v)
                   /\ j < length (bone_indices v))%nat js ->
  forall W,
    fold_left vadd3 (omap (slot_term mats v (x, y, z, of_int 1)) js)
              (scaled W x y z)
      = scaled (W + foldr Z.add 0
                      ((fun j => from_option Z.of_N 0 (bone_weights v !! j)) <$> js))
               x y z.
Proof.
  intros Hid. induction js as [| j js IH]; intros Hjs W.
  { cbn. by rewrite Z.add_0_r. }
  apply Forall_cons in Hjs as [[Hw Hb] Hjs].
  destruct (lookup_lt_is_Some_2 _ _ Hw) as [w Hwj].
  destruct (lookup_lt_is_Some_2 _ _ Hb) as [bi Hbj].
  cbn [omap list_omap fmap list_fmap foldr]. unfold slot_term at 1.
  rewrite Hwj, Hbj. cbn [mbind option_bind from_option].
  destruct (decide (w = 0%N)) as [-> | Hne].
  - rewrite IH by done. f_equal; lia.
  - rewrite (Hid j w bi) by done. cbn [mbind option_bind fold_left].
    rewrite matvec_eye4, scaled_add, IH by done. f_equal; lia.
Qed.
End WeightConservation.

(** C4. With the bone matrices of the frame at hand, the position computed
    for each vertex is the sum, in slot order from zero, over exactly the
    slots with a non-zero weight and a bone index inside the matrix array,
    of [weight / 255] times the bone matrix applied to the rest position
    with [w = 1]; no vertex makes the computation fail, and the bone index
    of a zero-weight slot has no effect. *)
Theorem deform_is_weighted_sum {F : Type} `{Scalar F}
    (fuel : nat) (m2 : M2File F) (anim_index time_ms : Z)
    (bone_matrices : list (mat4 F)) :
  Forall vertex_wf (vertices m2) ->
  frame_bone_matrices fuel m2 anim_index time_ms = Some (Ok bone_matrices) ->
  compute_deformed_positions fuel m2 anim_index time_ms
    = Some (Ok (skin_spec bone_matrices <$> vertices m2)) /\
  (forall v v', vertex_wf v -> same_influences v v' ->
                skin_vertex bone_matrices v = skin_vertex bone_matrices v').
Proof.
  intros Hwf Hmats. split.
  - unfold compute_deformed_positions. rewrite Hmats.
    by rewrite skin_vertices_spec.
  - intros v v' Hv Hsame.
    assert (vertex_wf v') as Hv'.
    { destruct Hv as (? & ? & ?), Hsame as (Hp & Hw & Hl & _).
      unfold vertex_wf. by rewrite <- Hp, <- Hw, <- Hl. }
    rewrite !skin_vertex_spec by done. f_equal.
    by apply same_influences_spec.
Qed.

Lemma sample_m2_vertices_wf : Forall vertex_wf (vertices sample_m2).
Proof. repeat constructor. Qed.

(** The sample mesh at 50 ms of its animation. *)
Lemma deform_is_weighted_sum_witness :
  exists bone_matrices,
    frame_bone_matrices 2 sample_m2 0 50 = Some (Ok bone_matrices) /\
    compute_deformed_positions 2 sample_m2 0 50
      = Some (Ok (skin_spec bone_matrices <$> vertices sample_m2)).
Proof.
  eexists. split.
  - vm_compute. reflexivity.
  - eapply proj1, (@deform_is_weighted_sum float float_scalar 2 sample_m2 0 50).
    + apply sample_m2_vertices_wf.
    + vm_compute. reflexivity.
Defined.

(** C9. A vertex with no slot that has both a non-zero weight and a bone
    index inside the matrix array (all four weights zero, for one) comes
    out at the origin [(0, 0, 0)], not at its rest position. *)
Theorem uninfluenced_vertex_at_origin {F : Type} `{Scalar F}
    (fuel : nat) (m2 : M2File F) (anim_index time_ms : Z)
    (bone_matrices : list (mat4 F)) (vi : nat) (v : Vertex F) :
  Forall vertex_wf (vertices m2) ->
  frame_bone_matrices fuel m2 anim_index time_ms = Some (Ok bone_matrices) ->
  vertices m2 !! vi = Some v ->
  no_influence bone_matrices v ->
  exists result,
    compute_deformed_positions fuel m2 anim_index time_ms = Some (Ok result) /\
    result !! vi = Some zeros3.
Proof.
  intros Hwf Hmats Hv Hno.
  exists (skin_spec bone_matrices <$> vertices m2). split.
  - unfold compute_deformed_positions. rewrite Hmats.
    by rewrite skin_vertices_spec.
  - rewrite list_lookup_fmap, Hv. cbn. by rewrite no_influence_spec.
Qed.

(** The third vertex of the sample mesh: its only weight names bone 9. *)
Lemma uninfluenced_vertex_at_origin_witness :
  exists result,
    compute_deformed_positions 2 sample_m2 0 50 = Some (Ok result) /\
    result !! 2%nat = Some (0, 0, 0)%float.
Proof.
  eapply (@uninfluenced_vertex_at_origin float float_scalar 2 sample_m2 0 50 _ 2).
  - apply sample_m2_vertices_wf.
  - vm_compute. reflexivity.
  - reflexivity.
  - intros [| [| [| [| j]]]] w bi Hw Hb; cbn in Hw, Hb; simplify_eq;
      (by left) || (right; cbn; lia).
Defined.

(** Weight conservation in exact arithmetic: under the field laws of
    [ExactArith] a vertex whose weights sum to 255, over any number of
    slots, and whose weighted slots all name an identity matrix, comes out
    at its rest position.  Binary64 does not have these laws (see
    [skin_vertex_float_rounds]); its rounding is bounded further down. *)
Theorem skin_vertex_weight_conservative {F : Type} `{ExactArith F}
    (bone_matrices : list (mat4 F)) (v : Vertex F) (x y z : F) :
  vertex_wf v ->
  pos v = [x; y; z] ->
  weight_sum v = 255 ->
  (forall j w bi, bone_weights v !! j = Some w -> bone_indices v !! j = Some bi ->
                  w <> 0%N -> bone_matrices !! N.to_nat bi = Some eye4) ->
  skin_vertex bone_matrices v = Ok (x, y, z).
Proof.
  intros Hv Hpos Hsum Hid.
  rewrite skin_vertex_spec by done. f_equal.
  unfold skin_spec. rewrite Hpos, <- scaled_0 with (x := x) (y := y) (z := z).
  destruct Hv as (_ & Hw & Hb).
  rewrite identity_terms; [| done | rewrite Hw, Hb; repeat constructor; lia].
  rewrite <- scaled_255. f_equal.
  unfold weight_sum in Hsum.
  destruct (length_4_inv _ Hw) as (w0 & w1 & w2 & w3 & Hws).
  rewrite Hws in *. cbn in *. lia.
Qed.

(** Weights of 85 in three slots, in exact rationals. *)
Lemma skin_vertex_weight_conservative_witness :
  skin_vertex identity_matrices thirds_vertex
    = Ok (Q2Qc (1 # 3), Q2Qc 2, Q2Qc (-5 # 7)).
Proof.
  apply (@skin_vertex_weight_conservative Qc Qc_arith Qc_exact).
  - repeat split.
  - reflexivity.
  - reflexivity.
  - intros [| [| [| [| j]]]] w bi Hw Hb Hne; cbn in Hw, Hb; simplify_eq;
      reflexivity.
Defined.

(** In binary64 the same weights lose the last bit of a coordinate: the
    vertex at [(1, 2, 7)] under identity matrices comes out with a third
    coordinate just below 7. *)
Example skin_vertex_float_rounds :
  skin_vertex [eye4; eye4]
    {| pos := [1; 2; 7]%float;
       bone_weights := [85; 85; 85; 0]%N; bone_indices := [0; 1; 0; 7]%N |}
  = Ok (1, 2, 0x1.bffffffffffffp+2)%float.
Proof. vm_compute. reflexivity. Qed.

(** ** Weight conservation in binary64

    The rounding of Rocq's specification of binary64 ([SpecFloat]), as far
    as the skinning loop needs it: a product or a sum in the normal range
    is the exact result times a factor within [2^-53] of 1. *)

Section Digits.

(** *** Binary digits *)

Lemma digits2_pos_bounds (m : positive) :
  2 ^ (Zpos (digits2_pos m) - 1) <= Zpos m < 2 ^ Zpos (digits2_pos m).
Proof.
  induction m as [m IH | m IH |]; cbn [digits2_pos]; [| | cbn; lia].
  - rewrite Pos2Z.inj_succ.
    replace (Z.succ (Zpos (digits2_pos m)) - 1) with (Zpos (digits2_pos m) - 1 + 1) by lia.
    rewrite Z.pow_succ_r by lia. rewrite Z.pow_add_r by lia. lia.
  - rewrite Pos2Z.inj_succ.
    replace (Z.succ (Zpos (digits2_pos m)) - 1) with (Zpos (digits2_pos m) - 1 + 1) by lia.
    rewrite Z.pow_succ_r by lia. rewrite Z.pow_add_r by lia. lia.
Qed.
End Digits.

Section ShiftRight.

Lemma iter_pos_nat {A : Type} (f : A -> A) (p : positive) (x : A) :
  SpecFloat.iter_pos f p x = Nat.iter (Pos.to_nat p) f x.
Proof.
  revert x. induction p as [p IH | p IH |]; intros x; cbn [SpecFloat.iter_pos].
  - rewrite !IH, Pos2Nat.inj_xI.
    replace (S (2 * Pos.to_nat p)) with (Pos.to_nat p + (Pos.to_nat p + 1))%nat by lia.
    rewrite !Nat.iter_add. reflexivity.
  - rewrite !IH, Pos2Nat.inj_xO.
    replace (2 * Pos.to_nat p)%nat with (Pos.to_nat p + Pos.to_nat p)%nat by lia.
    rewrite Nat.iter_add. reflexivity.
  - reflexivity.
Qed.

Lemma shr_1_nonneg (m : Z) (r s : bool) :
  0 <= m ->
  shr_1 {| shr_m := m; shr_r := r; shr_s := s |}
  = {| shr_m := Z.div2 m; shr_r := Z.odd m; shr_s := r || s |}.
Proof. destruct m as [| [p | p |] | p]; intros Hm; try reflexivity; lia. Qed.

Lemma mod_pow2_succ (m : Z) (k : Z) :
  0 <= m -> 0 <= k ->
  m mod 2 ^ (k + 1) = (m / 2 ^ k) mod 2 * 2 ^ k + m mod 2 ^ k.
Proof.
  intros Hm Hk.
  rewrite Z.pow_add_r, Z.pow_1_r by lia.
  rewrite Z.rem_mul_r by lia. lia.
Qed.

(** [k + 1] shifts to the right: the quotient, the last bit shifted out,
    and whether anything was shifted out before it. *)
Lemma shr_iter (m : Z) (k : nat) :
  0 <= m ->
  Nat.iter (S k) shr_1 {| shr_m := m; shr_r := false; shr_s := false |}
  = {| shr_m := m / 2 ^ (Z.of_nat k + 1);
       shr_r := Z.odd (m / 2 ^ Z.of_nat k);
       shr_s := negb (m mod 2 ^ Z.of_nat k =? 0) |}.
Proof.
  intros Hm. induction k as [| k IH].
  - cbn [Nat.iter]. rewrite shr_1_nonneg by done. cbn [orb].
    rewrite Z.div2_div. change (2 ^ (Z.of_nat 0 + 1)) with 2.
    change (2 ^ Z.of_nat 0) with 1. by rewrite Z.div_1_r, Z.mod_1_r.
  - change (Nat.iter (S (S k)) shr_1 ?x) with (shr_1 (Nat.iter (S k) shr_1 x)).
    rewrite IH, shr_1_nonneg by (apply Z.div_pos; lia).
    rewrite Z.div2_div, Z.div_div by lia.
    replace (2 ^ (Z.of_nat k + 1) * 2) with (2 ^ (Z.of_nat (S k) + 1))
      by (rewrite Nat2Z.inj_succ, <- Z.add_1_r, !Z.pow_add_r, !Z.pow_1_r by lia; lia).
    replace (Z.of_nat k + 1) with (Z.of_nat (S k)) by lia.
    f_equal.
    rewrite Nat2Z.inj_succ, <- Z.add_1_r, mod_pow2_succ by lia.
    pose proof (Z.mod_pos_bound m (2 ^ Z.of_nat k) ltac:(lia)).
    pose proof (Z.mod_pos_bound (m / 2 ^ Z.of_nat k) 2 ltac:(lia)).
    rewrite Zodd_mod.
    destruct (Z.eqb_spec (m mod 2 ^ Z.of_nat k) 0) as [-> |];
      destruct (Z.eqb_spec ((m / 2 ^ Z.of_nat k) mod 2) 1) as [-> |]; cbn.
    + destruct (Z.eqb_spec (1 * 2 ^ Z.of_nat k + 0) 0); [nia | done].
    + assert ((m / 2 ^ Z.of_nat k) mod 2 = 0) as -> by lia. done.
    + destruct (Z.eqb_spec (1 * 2 ^ Z.of_nat k + m mod 2 ^ Z.of_nat k) 0); [nia | done].
    + assert ((m / 2 ^ Z.of_nat k) mod 2 = 0) as -> by lia.
      destruct (Z.eqb_spec (0 * 2 ^ Z.of_nat k + m mod 2 ^ Z.of_nat k) 0); [lia | done].
Qed.
End ShiftRight.

Section RoundInteger.

Lemma digits2_pos_unique (x : positive) (k : Z) :
  2 ^ (k - 1) <= Zpos x < 2 ^ k -> Zpos (digits2_pos x) = k.
Proof.
  intros [Hlo Hhi]. pose proof (digits2_pos_bounds x) as [Hlo' Hhi'].
  assert (0 < k).
  { destruct (Z.ltb_spec 0 k); [done |]. exfalso.
    destruct (Z.eqb_spec k 0) as [-> | Hne].
    - change (2 ^ 0) with 1 in Hhi. lia.
    - rewrite Z.pow_neg_r in Hhi by lia. lia. }
  destruct (Z.lt_trichotomy (Zpos (digits2_pos x)) k) as [Hlt | [Heq | Hgt]];
    [| done |].
  - pose proof (Z.pow_le_mono_r 2 (Zpos (digits2_pos x)) (k - 1)). lia.
  - pose proof (Z.pow_le_mono_r 2 k (Zpos (digits2_pos x) - 1)). lia.
Qed.

Lemma rne_shift_near (m n : Z) :
  0 <= m -> 0 <= n -> 2 * Z.abs (rne_shift m n * 2 ^ n - m) <= 2 ^ n.
Proof.
  intros Hm Hn. unfold rne_shift.
  pose proof (Z.div_mod m (2 ^ n) ltac:(lia)).
  pose proof (Z.mod_pos_bound m (2 ^ n) ltac:(lia)).
  destruct (Z.ltb_spec (2 * (m mod 2 ^ n)) (2 ^ n)); [lia |].
  destruct (Z.ltb_spec (2 ^ n) (2 * (m mod 2 ^ n))); [lia |].
  destruct (Z.even _); lia.
Qed.

Lemma rne_shift_bounds (m n k : Z) :
  0 <= n -> 0 <= k -> 2 ^ (k + n) <= m < 2 ^ (k + n + 1) ->
  2 ^ k <= rne_shift m n <= 2 ^ (k + 1).
Proof.
  intros Hn Hk [Hlo Hhi]. unfold rne_shift.
  rewrite Z.pow_add_r in Hlo by lia.
  replace (k + n + 1) with ((k + 1) + n) in Hhi by lia.
  rewrite Z.pow_add_r in Hhi by lia.
  assert (0 < 2 ^ n) by lia.
  assert (2 ^ k <= m / 2 ^ n) by (apply Z.div_le_lower_bound; lia).
  assert (m / 2 ^ n < 2 ^ (k + 1)) by (apply Z.div_lt_upper_bound; lia).
  destruct (_ <? _); [lia |]. destruct (_ <? _); [lia |].
  destruct (Z.even _); lia.
Qed.

(** The round and sticky bits after [n >= 1] shifts name the place of the
    remainder with respect to the half. *)
Lemma round_of_shr (m : Z) (k : nat) :
  0 <= m ->
  let n := Z.of_nat k + 1 in
  let mrs := Nat.iter (S k) shr_1 {| shr_m := m; shr_r := false; shr_s := false |} in
  round_nearest_even (shr_m mrs) (loc_of_shr_record mrs) = rne_shift m n.
Proof.
  intros Hm n mrs. subst mrs. rewrite shr_iter by done. cbn [shr_m].
  unfold rne_shift. fold n.
  assert (m mod 2 ^ n
          = (m / 2 ^ Z.of_nat k) mod 2 * 2 ^ Z.of_nat k + m mod 2 ^ Z.of_nat k)
    as Hrem by (subst n; apply mod_pow2_succ; lia).
  assert (2 ^ n = 2 * 2 ^ Z.of_nat k) as Hpow
    by (subst n; rewrite Z.pow_add_r, Z.pow_1_r by lia; lia).
  pose proof (Z.mod_pos_bound m (2 ^ Z.of_nat k) ltac:(lia)).
  pose proof (Z.mod_pos_bound (m / 2 ^ Z.of_nat k) 2 ltac:(lia)).
  rewrite Zodd_mod. rewrite Hrem, Hpow.
  unfold loc_of_shr_record.
  destruct (Z.eqb_spec ((m / 2 ^ Z.of_nat k) mod 2) 1) as [Hodd | Hodd];
    destruct (Z.eqb_spec (m mod 2 ^ Z.of_nat k) 0) as [Hz | Hz]; cbn [negb].
  - rewrite Hodd, Hz. cbn [round_nearest_even].
    destruct (Z.ltb_spec (2 * (1 * 2 ^ Z.of_nat k + 0)) (2 * 2 ^ Z.of_nat k)); [lia |].
    destruct (Z.ltb_spec (2 * 2 ^ Z.of_nat k) (2 * (1 * 2 ^ Z.of_nat k + 0))); [lia |].
    reflexivity.
  - rewrite Hodd. cbn [round_nearest_even].
    destruct (Z.ltb_spec (2 * (1 * 2 ^ Z.of_nat k + m mod 2 ^ Z.of_nat k))
                (2 * 2 ^ Z.of_nat k)); [lia |].
    destruct (Z.ltb_spec (2 * 2 ^ Z.of_nat k)
                (2 * (1 * 2 ^ Z.of_nat k + m mod 2 ^ Z.of_nat k))); [| lia].
    reflexivity.
  - assert ((m / 2 ^ Z.of_nat k) mod 2 = 0) as -> by lia. rewrite Hz.
    cbn [round_nearest_even].
    destruct (Z.ltb_spec (2 * (0 * 2 ^ Z.of_nat k + 0)) (2 * 2 ^ Z.of_nat k));
      [reflexivity | lia].
  - assert ((m / 2 ^ Z.of_nat k) mod 2 = 0) as -> by lia.
    cbn [round_nearest_even].
    destruct (Z.ltb_spec (2 * (0 * 2 ^ Z.of_nat k + m mod 2 ^ Z.of_nat k))
                (2 * 2 ^ Z.of_nat k)); [reflexivity | lia].
Qed.
End RoundInteger.

Section RoundAux.

Lemma shr_fexp_exact (m : positive) (e n : Z) :
  n = Z.max (Zpos (digits2_pos m) + e - 53) (-1074) - e ->
  shr_fexp prec emax (Zpos m) e loc_Exact =
    if n <=? 0
    then ({| shr_m := Zpos m; shr_r := false; shr_s := false |}, e)
    else (Nat.iter (Z.to_nat n) shr_1
            {| shr_m := Zpos m; shr_r := false; shr_s := false |}, e + n).
Proof.
  intros Hn. unfold shr_fexp, fexp, SpecFloat.emin, shr_record_of_loc.
  cbn [Zdigits2]. change (3 - emax - prec) with (-1074).
  change (Zpos (digits2_pos m) + e - prec) with (Zpos (digits2_pos m) + e - 53).
  rewrite <- Hn. unfold shr.
  destruct n as [| p | p]; [reflexivity | | reflexivity].
  rewrite iter_pos_nat. reflexivity.
Qed.

(** Rounding an integer mantissa of at least 53 digits whose value lies in
    the normal range: the result is finite, with the mantissa rounded to
    nearest-even at the 53rd digit. *)
Lemma binary_round_aux_spec (s : bool) (m : positive) (e : Z) :
  let n := Zpos (digits2_pos m) - 53 in
  0 <= n -> -1074 <= e + n <= 970 ->
  exists m' e',
    binary_round_aux prec emax s (Zpos m) e loc_Exact = S754_finite s m' e' /\
    e + n <= e' /\ Zpos m' * 2 ^ (e' - (e + n)) = rne_shift (Zpos m) n.
Proof.
  intros n Hn He.
  assert (Zpos (digits2_pos m) = n + 53) as Hd by lia.
  clearbody n. unfold binary_round_aux.
  rewrite (shr_fexp_exact m e n) by lia.
  pose proof (digits2_pos_bounds m) as Hm.
  replace (Zpos (digits2_pos m)) with (n + 53) in Hm by lia.
  replace (n + 53 - 1) with (52 + n) in Hm by lia.
  destruct (Z.leb_spec n 0) as [Hle | Hgt].
  - (* no shift *)
    assert (n = 0) as Hn0 by lia.
    cbn [shr_m loc_of_shr_record round_nearest_even].
    rewrite (shr_fexp_exact m e 0) by lia.
    cbn [Z.leb Z.compare shr_m].
    destruct (Z.leb_spec e (emax - prec)) as [_ | Hbad];
      [| exfalso; change (emax - prec) with 971 in Hbad; lia].
    exists m, e. split; [reflexivity |]. split; [lia |].
    rewrite Hn0, Z.add_0_r, Z.sub_diag. unfold rne_shift.
    change (2 ^ 0) with 1. rewrite Z.div_1_r, Z.mod_1_r.
    change (2 * 0 <? 1) with true. cbv iota. lia.
  - (* [n] shifts, then perhaps one more for the carry *)
    assert (Z.to_nat n = S (Z.to_nat (n - 1))) as Hk by lia.
    rewrite Hk.
    pose proof (round_of_shr (Zpos m) (Z.to_nat (n - 1)) ltac:(lia)) as Hround.
    cbv zeta in Hround.
    replace (Z.of_nat (Z.to_nat (n - 1)) + 1) with n in Hround by lia.
    rewrite Hround. clear Hround.
    pose proof (rne_shift_bounds (Zpos m) n 52 ltac:(lia) ltac:(lia)) as Hb.
    replace (52 + n + 1) with (n + 53) in Hb by lia.
    specialize (Hb Hm). change (52 + 1) with 53 in Hb.
    destruct (rne_shift (Zpos m) n) as [| m2 | m2] eqn:Hm2; [lia | | lia].
    destruct (Z.eq_dec (Zpos m2) (2 ^ 53)) as [Hcarry | Hnocarry].
    + assert (Zpos (digits2_pos m2) = 54) as Hd2
        by (apply digits2_pos_unique; rewrite Hcarry; split; [reflexivity | reflexivity]).
      rewrite (shr_fexp_exact m2 (e + n) 1) by lia.
      cbn [Z.leb Z.compare Z.to_nat Pos.to_nat Pos.iter_op Nat.iter nat_rect].
      rewrite shr_1_nonneg by lia. cbn [shr_m].
      injection Hcarry as ->. cbn [Z.div2 Pos.div2].
      destruct (Z.leb_spec (e + n + 1) (emax - prec)) as [_ | Hbad];
        [| exfalso; change (emax - prec) with 971 in Hbad; lia].
      eexists _, _. split; [reflexivity |]. split; [lia |].
      replace (e + n + 1 - (e + n)) with 1 by lia. reflexivity.
    + assert (Zpos (digits2_pos m2) = 53) as Hd2
        by (apply digits2_pos_unique; change (53 - 1) with 52; lia).
      rewrite (shr_fexp_exact m2 (e + n) 0) by lia.
      cbn [Z.leb Z.compare shr_m].
      destruct (Z.leb_spec (e + n) (emax - prec)) as [_ | Hbad];
        [| exfalso; change (emax - prec) with 971 in Hbad; lia].
      exists m2, (e + n). split; [reflexivity |]. split; [lia |].
      rewrite Z.sub_diag. change (2 ^ 0) with 1. lia.
Qed.
End RoundAux.

Section RealValueLemmas.
Import Rbase Rbasic_fun Rfunctions Lra.

Lemma p2_pos (e : Z) : (0 < powerRZ 2 e)%R.
Proof. apply powerRZ_lt. lra. Qed.

Lemma p2_add (a b : Z) : (powerRZ 2 (a + b) = powerRZ 2 a * powerRZ 2 b)%R.
Proof. apply powerRZ_add. lra. Qed.

Lemma p2_IZR (k : Z) : 0 <= k -> powerRZ 2 k = IZR (2 ^ k).
Proof.
  intros Hk. rewrite <- (Z2Nat.id k Hk) at 1.
  rewrite <- pow_powerRZ.
  rewrite <- (Z2Nat.id k Hk) at 2.
  apply (pow_IZR 2 (Z.to_nat k)).
Qed.

Lemma p2_neg (k : Z) : 0 <= k -> (powerRZ 2 (- k) = / IZR (2 ^ k))%R.
Proof.
  intros Hk. pose proof (p2_add (- k) k) as Hadd.
  replace (- k + k) with 0 in Hadd by lia. cbn [powerRZ] in Hadd.
  rewrite (p2_IZR k Hk) in Hadd.
  assert (0 < IZR (2 ^ k))%R by (apply IZR_lt, Z.pow_pos_nonneg; lia).
  apply (Rmult_eq_reg_r (IZR (2 ^ k))); [| lra].
  rewrite <- Hadd. field. lra.
Qed.

Lemma p2_le (a b : Z) : a <= b -> (powerRZ 2 a <= powerRZ 2 b)%R.
Proof.
  intros Hab. replace b with (a + (b - a)) by lia. rewrite p2_add.
  rewrite (p2_IZR (b - a)) by lia.
  assert (1 <= 2 ^ (b - a)) as Hone
    by (pose proof (Z.pow_pos_nonneg 2 (b - a)); lia).
  pose proof (p2_pos a). apply IZR_le in Hone. nra.
Qed.

Lemma p2_lt_inv (a b : Z) : (powerRZ 2 a < powerRZ 2 b)%R -> a < b.
Proof.
  intros Hlt. destruct (Z.lt_ge_cases a b) as [| Hge]; [done |].
  apply p2_le in Hge. lra.
Qed.

(** The real value of an integer mantissa lies between the powers of two
    that its number of digits names. *)
Lemma mantissa_bounds (m : positive) (e : Z) :
  (powerRZ 2 (Zpos (digits2_pos m) - 1 + e) <= IZR (Zpos m) * powerRZ 2 e
   < powerRZ 2 (Zpos (digits2_pos m) + e))%R.
Proof.
  pose proof (digits2_pos_bounds m) as [Hlo Hhi].
  apply IZR_le in Hlo. apply IZR_lt in Hhi.
  rewrite <- !p2_IZR in Hlo, Hhi by lia.
  rewrite !p2_add. pose proof (p2_pos e). split; nra.
Qed.
End RealValueLemmas.

Section RoundReal.
Import Rbase Rbasic_fun Rfunctions Lra.

(** Rounding in the normal range: the result is finite and within half a
    unit of the last place, that is within [2^-53] of the value, relatively. *)
Lemma round_real (s : bool) (m : positive) (e : Z) :
  53 <= Zpos (digits2_pos m) ->
  (powerRZ 2 (-1022) <= IZR (Zpos m) * powerRZ 2 e < powerRZ 2 1023)%R ->
  exists m' e',
    binary_round_aux prec emax s (Zpos m) e loc_Exact = S754_finite s m' e' /\
    (Rabs (IZR (Zpos m') * powerRZ 2 e' - IZR (Zpos m) * powerRZ 2 e)
     <= powerRZ 2 (-53) * (IZR (Zpos m) * powerRZ 2 e))%R.
Proof.
  intros Hd [Hlo Hhi].
  pose proof (mantissa_bounds m e) as [Hmlo Hmhi].
  set (n := Zpos (digits2_pos m) - 53) in *.
  assert (e + n <= 970) as Hup.
  { assert (Zpos (digits2_pos m) - 1 + e < 1023) by (apply p2_lt_inv; lra).
    subst n. lia. }
  assert (-1074 <= e + n) as Hdown.
  { assert (-1022 < Zpos (digits2_pos m) + e) by (apply p2_lt_inv; lra).
    subst n. lia. }
  destruct (binary_round_aux_spec s m e ltac:(fold n; lia) ltac:(fold n; lia))
    as (m' & e' & Hround & He' & Hm').
  fold n in He', Hm'.
  exists m', e'. split; [exact Hround |].
  pose proof (rne_shift_near (Zpos m) n ltac:(lia) ltac:(lia)) as Hnear.
  pose proof (digits2_pos_bounds m) as [Hdlo _].
  replace (Zpos (digits2_pos m) - 1) with (52 + n) in Hdlo by (subst n; lia).
  rewrite Z.pow_add_r in Hdlo by lia.
  set (m2 := rne_shift (Zpos m) n) in *.
  assert (IZR (Zpos m') * powerRZ 2 e' = IZR m2 * IZR (2 ^ n) * powerRZ 2 e)%R
    as ->.
  { replace e' with ((e' - (e + n)) + (n + e)) at 1 by lia.
    rewrite !p2_add, (p2_IZR (e' - (e + n))), (p2_IZR n) by lia.
    rewrite <- Hm', mult_IZR. ring. }
  replace (IZR m2 * IZR (2 ^ n) * powerRZ 2 e - IZR (Zpos m) * powerRZ 2 e)%R
    with (IZR (m2 * 2 ^ n - Zpos m) * powerRZ 2 e)%R
    by (rewrite minus_IZR, mult_IZR; ring).
  pose proof (p2_pos e) as Hpe.
  rewrite Rabs_mult, (Rabs_pos_eq (powerRZ 2 e)) by lra.
  rewrite <- abs_IZR.
  apply IZR_le in Hnear, Hdlo. rewrite mult_IZR in Hnear, Hdlo.
  replace (powerRZ 2 (-53)) with (/ IZR (2 ^ 53))%R
    by (symmetry; apply (p2_neg 53); lia).
  assert (IZR (2 ^ 52) = IZR (2 ^ 53) / 2)%R as Hhalf.
  { change (2 ^ 53) with (2 * 2 ^ 52). rewrite mult_IZR. lra. }
  rewrite Hhalf in Hdlo.
  assert (0 < IZR (2 ^ 53))%R as Hp53 by (apply IZR_lt; reflexivity).
  assert (0 < IZR (2 ^ n))%R as Hpn
    by (apply IZR_lt, Z.pow_pos_nonneg; lia).
  set (A := IZR (Z.abs (m2 * 2 ^ n - Zpos m))) in *.
  set (P := IZR (2 ^ n)) in *. set (M := IZR (Zpos m)) in *.
  set (K := IZR (2 ^ 53)) in *.
  assert (A <= P / 2)%R by lra.
  assert (P / 2 <= / K * M)%R.
  { apply (Rmult_le_reg_l K); [lra |].
    replace (K * (/ K * M))%R with M by (field; lra). nra. }
  nra.
Qed.
End RoundReal.

Section FloatMul.
Import Rbase Rbasic_fun Rfunctions Lra.

Lemma SF2R_finite (s : bool) (m : positive) (e : Z) :
  Rabs (SF2R (S754_finite s m e)) = (IZR (Zpos m) * powerRZ 2 e)%R.
Proof.
  cbn [SF2R]. pose proof (p2_pos e).
  assert (0 < IZR (Zpos m))%R by (apply IZR_lt; lia).
  rewrite Rabs_mult, (Rabs_pos_eq (powerRZ 2 e)) by lra.
  destruct s; [rewrite Rabs_Ropp |]; rewrite Rabs_pos_eq; lra.
Qed.

(** A normal float is a finite one with a mantissa of 53 digits. *)
Lemma normal_finite (x : float) :
  normal x ->
  exists s m e, Prim2SF x = S754_finite s m e /\ Zpos (digits2_pos m) = 53.
Proof.
  unfold normal, F2R. intros Hx. pose proof (p2_pos (-1022)) as Hp.
  pose proof (Prim2SF_valid x) as Hvalid.
  destruct (Prim2SF x) as [s | s | | s m e];
    try (cbn [SF2R] in Hx; rewrite Rabs_R0 in Hx; lra).
  exists s, m, e. split; [reflexivity |].
  rewrite SF2R_finite in Hx.
  cbn [valid_binary] in Hvalid. unfold bounded, canonical_mantissa in Hvalid.
  apply andb_prop in Hvalid as [Hcanon _].
  apply Z.eqb_eq in Hcanon. unfold fexp, SpecFloat.emin in Hcanon.
  change (3 - emax - prec) with (-1074) in Hcanon.
  change prec with 53 in Hcanon.
  pose proof (mantissa_bounds m e) as [_ Hhi].
  destruct (Z.le_gt_cases (-1074) (Zpos (digits2_pos m) + e - 53)); [lia |].
  exfalso.
  assert (powerRZ 2 (Zpos (digits2_pos m) + e) <= powerRZ 2 (-1022))%R
    by (apply p2_le; lia).
  lra.
Qed.

Lemma u53_bounds : (0 < u53 < 1 / 2)%R.
Proof.
  unfold u53. replace (powerRZ 2 (-53)) with (/ IZR (2 ^ 53))%R
    by (symmetry; apply (p2_neg 53); lia).
  assert (4 <= IZR (2 ^ 53))%R by (apply IZR_le; vm_compute; discriminate).
  split.
  - apply Rinv_0_lt_compat. lra.
  - apply (Rmult_lt_reg_l (IZR (2 ^ 53))); [lra |].
    rewrite Rinv_r by lra. lra.
Qed.

Lemma Rabs_bound (a b : R) : (Rabs a <= b)%R -> (- b <= a <= b)%R.
Proof. unfold Rabs. destruct (Rcase_abs a); lra. Qed.

Lemma rel_of_error (v w : R) :
  (0 < v)%R -> (Rabs (w - v) <= u53 * v)%R -> exists rho, rel 1 rho /\ w = (v * rho)%R.
Proof.
  intros Hv Herr. exists (w / v)%R. split; [| field; lra].
  apply Rabs_bound in Herr. unfold rel. rewrite !pow_1.
  split.
  - apply (Rmult_le_reg_r v); [lra |].
    replace (w / v * v)%R with w by (field; lra). lra.
  - apply (Rmult_le_reg_r v); [lra |].
    replace (w / v * v)%R with w by (field; lra). lra.
Qed.

(** The product of two normal floats whose exact product is in the normal
    range is that product, rounded once. *)
Lemma mul_rel (x y : float) :
  normal x -> normal y ->
  (powerRZ 2 (-1022) <= Rabs (F2R x * F2R y) < powerRZ 2 1023)%R ->
  exists rho, rel 1 rho /\ F2R (x * y) = (F2R x * F2R y * rho)%R.
Proof.
  intros (sx & mx & ex & Hx & Hdx)%normal_finite
         (sy & my & ey & Hy & Hdy)%normal_finite.
  unfold F2R. rewrite mul_spec, Hx, Hy. unfold SF64mul, SFmul.
  rewrite Rabs_mult, !SF2R_finite.
  intros Hrange.
  assert (IZR (Zpos mx) * powerRZ 2 ex * (IZR (Zpos my) * powerRZ 2 ey)
          = IZR (Zpos (mx * my)) * powerRZ 2 (ex + ey))%R as Hprod
    by (rewrite Pos2Z.inj_mul, mult_IZR, p2_add; ring).
  rewrite Hprod in Hrange.
  destruct (round_real (xorb sx sy) (mx * my) (ex + ey)) as (m' & e' & -> & Herr);
    [| exact Hrange |].
  { pose proof (digits2_pos_bounds mx) as [Hlx _].
    pose proof (digits2_pos_bounds my) as [Hly _].
    pose proof (digits2_pos_bounds (mx * my)%positive) as [_ Hhi].
    rewrite Hdx in Hlx. rewrite Hdy in Hly. change (53 - 1) with 52 in *.
    rewrite Pos2Z.inj_mul in Hhi.
    assert (2 ^ 52 * 2 ^ 52 <= Zpos mx * Zpos my) by nia.
    destruct (Z.le_gt_cases 53 (Zpos (digits2_pos (mx * my)))); [done |].
    pose proof (Z.pow_le_mono_r 2 (Zpos (digits2_pos (mx * my))) 52
                  ltac:(lia) ltac:(lia)).
    assert (2 ^ 52 < 2 ^ 52 * 2 ^ 52) by (vm_compute; reflexivity).
    lia. }
  assert (0 < IZR (Zpos (mx * my)) * powerRZ 2 (ex + ey))%R as Hpos.
  { pose proof (p2_pos (ex + ey)).
    assert (0 < IZR (Zpos (mx * my)))%R by (apply IZR_lt; lia). nra. }
  destruct (rel_of_error _ _ Hpos Herr) as (rho & Hrho & Hval).
  exists rho. split; [exact Hrho |].
  destruct sx, sy; cbn [xorb SF2R];
    try replace (- IZR (Zpos m') * powerRZ 2 e')%R
          with (- (IZR (Zpos m') * powerRZ 2 e'))%R by ring;
    rewrite Hval, <- Hprod; ring.
Qed.
End FloatMul.

Section FloatAdd.
Import Rbase Rbasic_fun Rfunctions Lra.

Lemma iter_xO (m d : positive) : Zpos (Pos.iter xO m d) = Zpos m * 2 ^ Zpos d.
Proof.
  induction d as [| d IH] using Pos.peano_ind.
  - cbn [Pos.iter]. rewrite Pos2Z.inj_xO. change (2 ^ 1) with 2. lia.
  - rewrite Pos.iter_succ, Pos2Z.inj_xO, IH, Pos2Z.inj_succ, Z.pow_succ_r by lia.
    lia.
Qed.

(** [shl_align] lowers the exponent to the target, when the target is
    lower, and keeps the value. *)
Lemma shl_align_spec (m : positive) (e e' : Z) :
  exists mz ez,
    shl_align m e e' = (mz, ez) /\ ez = Z.min e e' /\
    Zpos mz = Zpos m * 2 ^ (e - ez).
Proof.
  unfold shl_align. destruct (e' - e) as [| d | d] eqn:Hd.
  - exists m, e. split_and!; [done | lia |]. rewrite Z.sub_diag. cbn. lia.
  - exists m, e. split_and!; [done | lia |]. rewrite Z.sub_diag. cbn. lia.
  - exists (Pos.iter xO m d), e'. split_and!; [done | lia |].
    rewrite iter_xO. f_equal. f_equal. lia.
Qed.

Lemma shl_align_real (m mz : positive) (e ez : Z) :
  ez <= e -> Zpos mz = Zpos m * 2 ^ (e - ez) ->
  (IZR (Zpos mz) * powerRZ 2 ez = IZR (Zpos m) * powerRZ 2 e)%R.
Proof.
  intros Hle ->. rewrite mult_IZR, <- p2_IZR by lia.
  replace e with ((e - ez) + ez) at 2 by lia. rewrite p2_add. ring.
Qed.

Lemma digits2_pos_shift (m mz : positive) (k : Z) :
  0 <= k -> Zpos mz = Zpos m * 2 ^ k ->
  Zpos (digits2_pos mz) = Zpos (digits2_pos m) + k.
Proof.
  intros Hk Hmz. apply digits2_pos_unique. rewrite Hmz.
  pose proof (digits2_pos_bounds m) as [Hlo Hhi].
  replace (Zpos (digits2_pos m) + k - 1) with (Zpos (digits2_pos m) - 1 + k) by lia.
  rewrite !Z.pow_add_r by lia.
  pose proof (Z.pow_pos_nonneg 2 k ltac:(lia) Hk). nia.
Qed.

(** Rounding an integer mantissa whose value is in the normal range. *)
Lemma binary_round_real (s : bool) (m : positive) (e : Z) :
  (powerRZ 2 (-1022) <= IZR (Zpos m) * powerRZ 2 e < powerRZ 2 1023)%R ->
  exists m' e',
    binary_round prec emax s m e = S754_finite s m' e' /\
    (Rabs (IZR (Zpos m') * powerRZ 2 e' - IZR (Zpos m) * powerRZ 2 e)
     <= powerRZ 2 (-53) * (IZR (Zpos m) * powerRZ 2 e))%R.
Proof.
  intros Hrange. unfold binary_round.
  destruct (shl_align_spec m e (fexp prec emax (Zpos (digits2_pos m) + e)))
    as (mz & ez & -> & Hez & Hmz).
  assert (ez <= e) as Hle by lia.
  pose proof (shl_align_real m mz e ez Hle Hmz) as Hval.
  rewrite <- Hval in *.
  apply round_real; [| exact Hrange].
  rewrite (digits2_pos_shift m mz (e - ez)) by (done || lia).
  rewrite Hval in Hrange.
  pose proof (mantissa_bounds m e) as [_ Hhi].
  assert (-1022 < Zpos (digits2_pos m) + e) by (apply p2_lt_inv; lra).
  unfold fexp, SpecFloat.emin in Hez.
  change (3 - emax - prec) with (-1074) in Hez. change prec with 53 in Hez.
  lia.
Qed.

(** The sum of two finite floats whose exact sum is in the normal range is
    that sum, rounded once. *)
Lemma add_rel (x y : float) (sx sy : bool) (mx my : positive) (ex ey : Z) :
  Prim2SF x = S754_finite sx mx ex ->
  Prim2SF y = S754_finite sy my ey ->
  (powerRZ 2 (-1022) <= Rabs (F2R x + F2R y) < powerRZ 2 1023)%R ->
  exists rho, rel 1 rho /\ F2R (x + y) = ((F2R x + F2R y) * rho)%R.
Proof.
  intros Hx Hy. unfold F2R. rewrite add_spec, Hx, Hy.
  unfold SF64add, SFadd. cbn [SF2R].
  destruct (shl_align_spec mx ex (Z.min ex ey)) as (mx' & ezx & -> & Hezx & Hmx).
  destruct (shl_align_spec my ey (Z.min ex ey)) as (my' & ezy & -> & Hezy & Hmy).
  cbn [fst].
  set (ez := Z.min ex ey) in *.
  assert (ezx = ez) as -> by lia. assert (ezy = ez) as -> by lia.
  pose proof (shl_align_real mx mx' ex ez ltac:(lia) Hmx) as Hvx.
  pose proof (shl_align_real my my' ey ez ltac:(lia) Hmy) as Hvy.
  set (M := cond_Zopp sx (Zpos mx') + cond_Zopp sy (Zpos my')).
  assert (((if sx then - IZR (Zpos mx) else IZR (Zpos mx)) * powerRZ 2 ex +
           (if sy then - IZR (Zpos my) else IZR (Zpos my)) * powerRZ 2 ey
           = IZR M * powerRZ 2 ez)%R) as Hsum.
  { subst M. rewrite plus_IZR.
    destruct sx, sy; cbn [cond_Zopp]; rewrite ?opp_IZR; nra. }
  rewrite Hsum. clearbody M. clear Hsum Hvx Hvy Hmx Hmy.
  pose proof (p2_pos ez) as Hpz. pose proof (p2_pos (-1022)) as Hpm.
  intros Hrange. unfold binary_normalize.
  destruct M as [| m | m].
  - exfalso. rewrite Rmult_0_l, Rabs_R0 in Hrange. lra.
  - assert (0 < IZR (Zpos m))%R by (apply IZR_lt; lia).
    assert (0 < IZR (Zpos m) * powerRZ 2 ez)%R as Hpos
      by (by apply Rmult_lt_0_compat).
    rewrite Rabs_pos_eq in Hrange by lra.
    destruct (binary_round_real false m ez Hrange) as (m' & e' & -> & Herr).
    destruct (rel_of_error _ _ Hpos Herr) as (rho & Hrho & Hval).
    exists rho. split; [exact Hrho |]. cbn [SF2R]. exact Hval.
  - assert (0 < IZR (Zpos m))%R by (apply IZR_lt; lia).
    change (Zneg m) with (- Zpos m) in *. rewrite opp_IZR in *.
    replace (- IZR (Zpos m) * powerRZ 2 ez)%R
      with (- (IZR (Zpos m) * powerRZ 2 ez))%R in * by ring.
    assert (0 < IZR (Zpos m) * powerRZ 2 ez)%R as Hpos
      by (by apply Rmult_lt_0_compat).
    rewrite Rabs_Ropp, Rabs_pos_eq in Hrange by lra.
    destruct (binary_round_real true m ez Hrange) as (m' & e' & -> & Herr).
    destruct (rel_of_error _ _ Hpos Herr) as (rho & Hrho & Hval).
    exists rho. split; [exact Hrho |]. cbn [SF2R].
    replace (- IZR (Zpos m') * powerRZ 2 e')%R
      with (- (IZR (Zpos m') * powerRZ 2 e'))%R by ring.
    rewrite Hval. ring.
Qed.
End FloatAdd.

Section Tracking.
Import Rbase Rbasic_fun Rfunctions Lra.

Lemma fzero_F2R (a : float) : fzero a -> F2R a = 0%R.
Proof. intros [s Ha]. unfold F2R. by rewrite Ha. Qed.

Lemma fzero_finite (a : float) : fzero a -> is_finite_float a = true.
Proof. intros [s Ha]. unfold is_finite_float. by rewrite Ha. Qed.

Lemma normal_is_finite (a : float) : normal a -> is_finite_float a = true.
Proof.
  intros (s & m & e & Ha & _)%normal_finite. unfold is_finite_float.
  by rewrite Ha.
Qed.

Lemma mul_fzero_l (a b : float) :
  fzero a -> is_finite_float b = true -> fzero (a * b).
Proof.
  intros [s Ha]. unfold is_finite_float, fzero. rewrite mul_spec, Ha.
  destruct (Prim2SF b); [| done | done |]; intros _; cbn; eauto.
Qed.

Lemma mul_fzero_r (a b : float) :
  is_finite_float a = true -> fzero b -> fzero (a * b).
Proof.
  intros Hfin [s Hb]. revert Hfin. unfold is_finite_float, fzero.
  rewrite mul_spec, Hb.
  destruct (Prim2SF a); [| done | done |]; intros _; cbn; eauto.
Qed.

Lemma add_fzero (a b : float) : fzero a -> fzero b -> fzero (a + b).
Proof.
  intros [sa Ha] [sb Hb]. unfold fzero. rewrite add_spec, Ha, Hb.
  destruct sa, sb; cbn; eauto.
Qed.

Lemma add_fzero_l (a b : float) :
  fzero a -> normal b -> Prim2SF (a + b) = Prim2SF b.
Proof.
  intros [sa Ha] (s & m & e & Hb & _)%normal_finite.
  by rewrite add_spec, Ha, Hb.
Qed.

Lemma add_fzero_r (a b : float) :
  normal a -> fzero b -> Prim2SF (a + b) = Prim2SF a.
Proof.
  intros (s & m & e & Ha & _)%normal_finite [sb Hb].
  by rewrite add_spec, Ha, Hb.
Qed.

(** *** Factors of accumulated rounding *)

Lemma rel_0 : rel 0 1.
Proof. unfold rel. cbn. lra. Qed.

Lemma pow_1u_pos (k : nat) : (0 < (1 - u53) ^ k)%R.
Proof. apply pow_lt. pose proof u53_bounds. lra. Qed.

Lemma rel_pos (k : nat) (rho : R) : rel k rho -> (0 < rho)%R.
Proof. intros [Hlo _]. pose proof (pow_1u_pos k). lra. Qed.

Lemma rel_mono (k k' : nat) (rho : R) : (k <= k')%nat -> rel k rho -> rel k' rho.
Proof.
  intros Hle [Hlo Hhi]. pose proof u53_bounds as Hu.
  induction Hle as [| k' Hle IH]; [done |].
  destruct IH as [Hlo' Hhi']. unfold rel. cbn [pow].
  pose proof (pow_1u_pos k').
  assert (0 < (1 + u53) ^ k')%R by (apply pow_lt; lra).
  split; nra.
Qed.

Lemma rel_mul (i k : nat) (r1 r2 : R) :
  rel i r1 -> rel k r2 -> rel (i + k) (r1 * r2).
Proof.
  intros [Hlo1 Hhi1] [Hlo2 Hhi2]. unfold rel. rewrite !pow_add.
  pose proof (pow_1u_pos i). pose proof (pow_1u_pos k).
  split.
  - apply Rmult_le_compat; lra.
  - apply Rmult_le_compat; lra.
Qed.

Lemma rel_linear (k : nat) (rho : R) :
  rel k rho -> (2 * INR k * u53 <= 1)%R ->
  (1 - INR k * u53 <= rho <= 1 + 2 * INR k * u53)%R.
Proof.
  pose proof u53_bounds as Hu. intros [Hlo Hhi] Hk.
  enough ((1 - INR k * u53 <= (1 - u53) ^ k)%R /\
          ((1 + u53) ^ k <= 1 + 2 * INR k * u53)%R) by lra.
  clear Hlo Hhi. induction k as [| k IH].
  { cbn. lra. }
  rewrite S_INR in *. pose proof (pos_INR k).
  destruct IH as [IHlo IHhi]; [nra |]. cbn [pow].
  pose proof (pow_1u_pos k).
  assert (0 < (1 + u53) ^ k)%R by (apply pow_lt; lra).
  split; nra.
Qed.

Lemma u53_small : (64 * u53 <= powerRZ 2 (-47))%R.
Proof.
  unfold u53. replace (-47) with (6 + -53) by lia. rewrite p2_add.
  rewrite (p2_IZR 6) by lia. change (2 ^ 6) with 64. lra.
Qed.

Lemma p2_m47 : (powerRZ 2 (-47) < / 1024)%R.
Proof.
  replace (powerRZ 2 (-47)) with (/ IZR (2 ^ 47))%R
    by (symmetry; apply (p2_neg 47); lia).
  apply Rinv_lt_contravar; [| apply IZR_lt; vm_compute; reflexivity].
  apply Rmult_lt_0_compat; [lra |]. apply IZR_lt. vm_compute. reflexivity.
Qed.

Lemma rel_bounds (k : nat) (rho : R) :
  (k <= 8)%nat -> rel k rho -> (/ 2 <= rho <= 2)%R.
Proof.
  intros Hk Hrel. pose proof u53_bounds. pose proof u53_small. pose proof p2_m47.
  assert (INR k <= 8)%R by (apply (le_INR k 8) in Hk; cbn in Hk; lra).
  pose proof (pos_INR k).
  destruct (rel_linear k rho Hrel); [nra |]. split; nra.
Qed.

(** Two values of one sign with their factors add up to the sum of the
    values with a factor in between. *)
Lemma rel_convex (k : nat) (r t r1 r2 : R) :
  (0 < r * t)%R -> rel k r1 -> rel k r2 ->
  exists rho, rel k rho /\ (r * r1 + t * r2 = (r + t) * rho)%R.
Proof.
  intros Hsign [Hlo1 Hhi1] [Hlo2 Hhi2].
  assert (r + t <> 0)%R as Hne by nra.
  exists ((r * r1 + t * r2) / (r + t))%R. split; [| field; exact Hne].
  unfold rel.
  destruct (Rlt_le_dec 0 r) as [Hr | Hr].
  - assert (0 < t)%R by nra.
    split.
    + apply (Rmult_le_reg_r (r + t)); [lra |].
      replace ((r * r1 + t * r2) / (r + t) * (r + t))%R
        with (r * r1 + t * r2)%R by (field; exact Hne). nra.
    + apply (Rmult_le_reg_r (r + t)); [lra |].
      replace ((r * r1 + t * r2) / (r + t) * (r + t))%R
        with (r * r1 + t * r2)%R by (field; exact Hne). nra.
  - assert (r < 0)%R by nra. assert (t < 0)%R by nra.
    split.
    + apply (Rmult_le_reg_r (- (r + t))); [lra |].
      replace ((r * r1 + t * r2) / (r + t) * - (r + t))%R
        with (- (r * r1 + t * r2))%R by (field; exact Hne). nra.
    + apply (Rmult_le_reg_r (- (r + t))); [lra |].
      replace ((r * r1 + t * r2) / (r + t) * - (r + t))%R
        with (- (r * r1 + t * r2))%R by (field; exact Hne). nra.
Qed.

Lemma p2_m1020 : (powerRZ 2 (-1020) = 4 * powerRZ 2 (-1022))%R.
Proof.
  replace (-1020) with (2 + -1022) by lia. rewrite p2_add.
  rewrite (p2_IZR 2) by lia. change (2 ^ 2) with 4. lra.
Qed.

Lemma p2_1001 : (8 * powerRZ 2 1001 <= powerRZ 2 1023)%R.
Proof.
  replace (8 * powerRZ 2 1001)%R with (powerRZ 2 (3 + 1001)).
  - apply p2_le. lia.
  - rewrite p2_add, (p2_IZR 3) by lia. change (2 ^ 3) with 8. lra.
Qed.

Lemma tracks_mono (k k' : nat) (a : float) (r : R) :
  (k <= k')%nat -> tracks k a r -> tracks k' a r.
Proof.
  intros Hle [Hz | (Hr & rho & Hrel & Ha)]; [by left | right].
  split; [done |]. exists rho. split; [by eapply rel_mono | done].
Qed.

Lemma tracks_nonzero (k : nat) (a : float) (r : R) :
  (k <= 8)%nat -> tracks k a r -> r <> 0%R ->
  (powerRZ 2 (-1020) <= Rabs r <= powerRZ 2 1001)%R /\
  exists rho, rel k rho /\ (/ 2 <= rho <= 2)%R /\ F2R a = (r * rho)%R /\ normal a.
Proof.
  intros Hk [[Hz _] | (Hr & rho & Hrel & Ha)] Hne; [done |].
  split; [done |]. exists rho. pose proof (rel_bounds k rho Hk Hrel) as Hb.
  split_and!; [done | lra | lra | done |].
  unfold normal. rewrite Ha, Rabs_mult, (Rabs_pos_eq rho) by lra.
  pose proof p2_m1020. pose proof (p2_pos (-1022)). pose proof (Rabs_pos r). nra.
Qed.

Lemma tracks_finite (k : nat) (a : float) (r : R) :
  (k <= 8)%nat -> tracks k a r -> is_finite_float a = true.
Proof.
  intros Hk Ht. destruct (Req_dec r 0) as [Hz | Hne].
  - destruct Ht as [[_ Hz'] | (Hr & _)]; [by apply fzero_finite |].
    exfalso. rewrite Hz, Rabs_R0 in Hr. pose proof (p2_pos (-1020)). lra.
  - destruct (tracks_nonzero k a r Hk Ht Hne) as (_ & rho & _ & _ & _ & Hn).
    by apply normal_is_finite.
Qed.

Lemma tracks_zero (k : nat) (a : float) : fzero a -> tracks k a 0.
Proof. intros Hz. by left. Qed.

(** The product of two tracked floats tracks the product. *)
Lemma tracks_mul (i k : nat) (c a : float) (g r : R) :
  (i + k + 1 <= 8)%nat -> tracks i c g -> tracks k a r ->
  ((g * r)%R = 0%R \/ (powerRZ 2 (-1020) <= Rabs (g * r) <= powerRZ 2 1001)%R) ->
  tracks (i + k + 1) (c * a) (g * r).
Proof.
  intros Hk Hc Ha Hrange.
  pose proof (tracks_finite i c g ltac:(lia) Hc) as Hfc.
  pose proof (tracks_finite k a r ltac:(lia) Ha) as Hfa.
  pose proof (p2_pos (-1020)) as Hp.
  destruct (Req_dec g 0) as [Hg | Hg].
  { left. split; [subst g; ring |].
    destruct Hc as [[_ Hz] | (Hr & _)]; [by apply mul_fzero_l |].
    exfalso. rewrite Hg, Rabs_R0 in Hr. lra. }
  destruct (Req_dec r 0) as [Hr | Hr].
  { left. split; [subst r; ring |].
    destruct Ha as [[_ Hz] | (Hr' & _)]; [by apply mul_fzero_r |].
    exfalso. rewrite Hr, Rabs_R0 in Hr'. lra. }
  destruct Hrange as [Hz | Hrange]; [exfalso; nra |].
  destruct (tracks_nonzero i c g ltac:(lia) Hc Hg)
    as (_ & r1 & Hrel1 & Hb1 & Hvc & Hnc).
  destruct (tracks_nonzero k a r ltac:(lia) Ha Hr)
    as (_ & r2 & Hrel2 & Hb2 & Hva & Hna).
  destruct (mul_rel c a Hnc Hna) as (rho & Hrel & Hval).
  { rewrite Hvc, Hva.
    replace (g * r1 * (r * r2))%R with (g * r * (r1 * r2))%R by ring.
    rewrite Rabs_mult, (Rabs_pos_eq (r1 * r2)) by nra.
    pose proof p2_m1020. pose proof p2_1001. pose proof (p2_pos (-1022)).
    pose proof (p2_pos 1001). pose proof (Rabs_pos (g * r)).
    assert (/ 4 <= r1 * r2 <= 4)%R by nra.
    split; nra. }
  right. split; [done |]. exists (r1 * r2 * rho)%R. split.
  - replace (i + k + 1)%nat with ((i + k) + 1)%nat by lia.
    apply rel_mul; [by apply rel_mul | done].
  - rewrite Hval, Hvc, Hva. ring.
Qed.

(** The sum of two tracked floats of one sign tracks the sum. *)
Lemma tracks_add (k : nat) (a b : float) (r t : R) :
  (k + 1 <= 8)%nat -> tracks k a r -> tracks k b t ->
  (0 <= r * t)%R -> (Rabs (r + t) <= powerRZ 2 1001)%R ->
  tracks (k + 1) (a + b) (r + t).
Proof.
  intros Hk Ha Hb Hsign Hhi.
  pose proof (p2_pos (-1020)) as Hp.
  destruct (Req_dec r 0) as [Hr | Hr]; destruct (Req_dec t 0) as [Ht | Ht].
  - left. split; [lra |].
    destruct Ha as [[_ Hza] | (Hr' & _)];
      [| exfalso; rewrite Hr, Rabs_R0 in Hr'; lra].
    destruct Hb as [[_ Hzb] | (Ht' & _)];
      [| exfalso; rewrite Ht, Rabs_R0 in Ht'; lra].
    by apply add_fzero.
  - destruct Ha as [[_ Hza] | (Hr' & _)];
      [| exfalso; rewrite Hr, Rabs_R0 in Hr'; lra].
    destruct (tracks_nonzero k b t ltac:(lia) Hb Ht)
      as (Hrange & rho & Hrel & _ & Hvb & Hnb).
    right. subst r. rewrite Rplus_0_l. split; [done |].
    exists rho. split; [apply (rel_mono k); [lia | done] |].
    unfold F2R in *. by rewrite add_fzero_l.
  - destruct Hb as [[_ Hzb] | (Ht' & _)];
      [| exfalso; rewrite Ht, Rabs_R0 in Ht'; lra].
    destruct (tracks_nonzero k a r ltac:(lia) Ha Hr)
      as (Hrange & rho & Hrel & _ & Hva & Hna).
    right. subst t. rewrite Rplus_0_r. split; [done |].
    exists rho. split; [apply (rel_mono k); [lia | done] |].
    unfold F2R in *. by rewrite add_fzero_r.
  - destruct (tracks_nonzero k a r ltac:(lia) Ha Hr)
      as (Hra & r1 & Hrel1 & Hb1 & Hva & Hna).
    destruct (tracks_nonzero k b t ltac:(lia) Hb Ht)
      as (Hrb & r2 & Hrel2 & Hb2 & Hvb & Hnb).
    assert (0 < r * t)%R as Hpos by nra.
    destruct (rel_convex k r t r1 r2 Hpos Hrel1 Hrel2) as (r3 & Hrel3 & Hsum).
    pose proof (rel_bounds k r3 ltac:(lia) Hrel3) as Hb3.
    assert (powerRZ 2 (-1020) <= Rabs (r + t))%R as Hlo.
    { destruct Hra as [Hra _]. revert Hra. unfold Rabs.
      destruct (Rcase_abs r), (Rcase_abs (r + t)); nra. }
    destruct (normal_finite a Hna) as (sa & ma & ea & HSa & _).
    destruct (normal_finite b Hnb) as (sb & mb & eb & HSb & _).
    destruct (add_rel a b sa sb ma mb ea eb HSa HSb) as (rho & Hrel & Hval).
    { rewrite Hva, Hvb, Hsum, Rabs_mult, (Rabs_pos_eq r3) by lra.
      pose proof p2_m1020. pose proof p2_1001. pose proof (p2_pos (-1022)).
      pose proof (p2_pos 1001). split; nra. }
    right. split; [done |]. exists (r3 * rho)%R. split.
    + by apply rel_mul.
    + rewrite Hval, Hva, Hvb, Hsum. ring.
Qed.

(** Adding a zero changes nothing. *)
Lemma tracks_add_zero_r (k : nat) (a b : float) (r : R) :
  (k <= 8)%nat -> tracks k a r -> fzero b -> tracks k (a + b) r.
Proof.
  intros Hk Ha Hzb. destruct (Req_dec r 0) as [Hr | Hr].
  - left. split; [done |].
    destruct Ha as [[_ Hza] | (Hr' & _)]; [by apply add_fzero |].
    exfalso. rewrite Hr, Rabs_R0 in Hr'. pose proof (p2_pos (-1020)). lra.
  - destruct (tracks_nonzero k a r Hk Ha Hr)
      as (Hrange & rho & Hrel & _ & Hva & Hna).
    right. split; [done |]. exists rho. split; [done |].
    unfold F2R in *. by rewrite add_fzero_r.
Qed.

Lemma tracks_add_zero_l (k : nat) (a b : float) (r : R) :
  (k <= 8)%nat -> fzero a -> tracks k b r -> tracks k (a + b) r.
Proof.
  intros Hk Hza Hb. destruct (Req_dec r 0) as [Hr | Hr].
  - left. split; [done |].
    destruct Hb as [[_ Hzb] | (Hr' & _)]; [by apply add_fzero |].
    exfalso. rewrite Hr, Rabs_R0 in Hr'. pose proof (p2_pos (-1020)). lra.
  - destruct (tracks_nonzero k b r Hk Hb Hr)
      as (Hrange & rho & Hrel & _ & Hvb & Hnb).
    right. split; [done |]. exists rho. split; [done |].
    unfold F2R in *. by rewrite add_fzero_l.
Qed.
End Tracking.

Section BinarySkinning.
Import Rbase Rbasic_fun Rfunctions Lra.

Lemma moderate_value_F2R (a : float) :
  moderate a = true -> moderate_value (F2R a).
Proof.
  unfold moderate, moderate_value, F2R.
  destruct (Prim2SF a) as [s | s | | s m e]; [by left | done | done |].
  intros [[Hd%Z.eqb_eq Hlo%Z.leb_le]%andb_prop Hhi%Z.leb_le]%andb_prop.
  right. rewrite SF2R_finite.
  pose proof (mantissa_bounds m e) as [Hl Hh]. rewrite Hd in Hl, Hh.
  assert (powerRZ 2 (-948) <= powerRZ 2 (53 - 1 + e))%R by (apply p2_le; lia).
  assert (powerRZ 2 (53 + e) <= powerRZ 2 953)%R by (apply p2_le; lia).
  lra.
Qed.

Lemma moderate_fzero (a : float) :
  moderate a = true -> F2R a = 0%R -> fzero a.
Proof.
  unfold moderate, F2R, fzero.
  destruct (Prim2SF a) as [s | s | | s m e]; [eauto | done | done |].
  intros _ Hz. exfalso.
  pose proof (SF2R_finite s m e) as Habs. rewrite Hz, Rabs_R0 in Habs.
  pose proof (p2_pos e). assert (0 < IZR (Zpos m))%R by (apply IZR_lt; lia).
  nra.
Qed.

Lemma moderate_tracks (a : float) : moderate a = true -> tracks 0 a (F2R a).
Proof.
  intros Hm. destruct (moderate_value_F2R a Hm) as [Hz | [Hlo Hhi]].
  - left. split; [done |]. by apply moderate_fzero.
  - right. split.
    + assert (powerRZ 2 (-1020) <= powerRZ 2 (-948))%R by (apply p2_le; lia).
      assert (powerRZ 2 953 <= powerRZ 2 1001)%R by (apply p2_le; lia).
      lra.
    + exists 1%R. split; [apply rel_0 | ring].
Qed.

Lemma f0_fzero : fzero (f0 : float).
Proof. exists false. vm_compute. reflexivity. Qed.

Lemma one_in_range : (powerRZ 2 (-1020) <= 1 <= powerRZ 2 1001)%R.
Proof.
  change 1%R with (powerRZ 2 0). split; apply p2_le; lia.
Qed.

Lemma f1_tracks : tracks 0 (f1 : float) 1.
Proof.
  right. split.
  - rewrite Rabs_R1. apply one_in_range.
  - exists 1%R. split; [apply rel_0 |]. unfold F2R.
    replace (Prim2SF f1) with (S754_finite false (2 ^ 52) (-52))
      by (vm_compute; reflexivity).
    cbn [SF2R].
    replace (powerRZ 2 (-52)) with (/ IZR (2 ^ 52))%R
      by (symmetry; apply (p2_neg 52); lia).
    change (Zpos (2 ^ 52)) with (2 ^ 52).
    assert (0 < IZR (2 ^ 52))%R by (apply IZR_lt; vm_compute; reflexivity).
    field. lra.
Qed.

(** *** The factors [w / 255.0] *)

Lemma factors_ok : forallb factor_ok (seqZ 1 255) = true.
Proof. vm_compute. reflexivity. Qed.

Lemma factor_tracks (w : Z) :
  1 <= w <= 255 -> tracks 1 (weight_factor w) (IZR w / 255).
Proof.
  intros Hw. pose proof factors_ok as Hall.
  rewrite forallb_forall in Hall.
  assert (factor_ok w = true) as Hok.
  { apply Hall. apply list_elem_of_In, elem_of_seqZ. lia. }
  clear Hall. unfold factor_ok in Hok.
  assert (1 <= IZR w <= 255)%R as HwR.
  { split; [apply (IZR_le 1) | apply (IZR_le w 255)]; lia. }
  right. split.
  - rewrite Rabs_pos_eq by (apply Rmult_le_pos; lra).
    assert (powerRZ 2 (-1020) <= powerRZ 2 (-8))%R by (apply p2_le; lia).
    assert (powerRZ 2 (-8) = / IZR (2 ^ 8))%R as H8 by (apply (p2_neg 8); lia).
    change (2 ^ 8) with 256 in H8.
    split; [| pose proof one_in_range; lra].
    apply Rle_trans with (/ 256)%R; [lra |]. lra.
  - unfold F2R.
    destruct (Prim2SF (weight_factor w)) as [| | | [|] m e]; try done.
    apply andb_prop in Hok as [He%Z.ltb_lt Herr%Z.leb_le].
    cbn [SF2R].
    set (k := - e) in *. replace e with (- k) by lia.
    rewrite (p2_neg k) by lia.
    apply IZR_le in Herr.
    rewrite !mult_IZR, abs_IZR, minus_IZR, !mult_IZR in Herr.
    set (K := IZR (2 ^ k)) in *. set (M := IZR (Zpos m)) in *.
    assert (0 < K)%R by (apply IZR_lt, Z.pow_pos_nonneg; lia).
    assert (0 < IZR (2 ^ 53))%R as HT by (apply IZR_lt; vm_compute; reflexivity).
    apply rel_of_error; [apply Rdiv_lt_0_compat; lra |].
    unfold u53.
    replace (powerRZ 2 (-53)) with (/ IZR (2 ^ 53))%R
      by (symmetry; apply (p2_neg 53); lia).
    replace (M * / K - IZR w / 255)%R
      with ((255 * M - IZR w * K) * / (255 * K))%R by (field; lra).
    rewrite Rabs_mult, (Rabs_pos_eq (/ (255 * K)))
      by (left; apply Rinv_0_lt_compat; lra).
    apply (Rmult_le_reg_r (255 * K * IZR (2 ^ 53))); [nra |].
    replace (Rabs (255 * M - IZR w * K) * / (255 * K) * (255 * K * IZR (2 ^ 53)))%R
      with (Rabs (255 * M - IZR w * K) * IZR (2 ^ 53))%R by (field; lra).
    replace (/ IZR (2 ^ 53) * (IZR w / 255) * (255 * K * IZR (2 ^ 53)))%R
      with (IZR w * K)%R by (field; lra).
    exact Herr.
Qed.

(** *** The rows of the identity matrix *)

Lemma row_tracks (x : float) :
  moderate x = true -> tracks 1 (f1 * x)%float (F2R x).
Proof.
  intros Hx. replace (F2R x) with (1 * F2R x)%R by ring.
  apply (tracks_mul 0 0); [lia | apply f1_tracks | by apply moderate_tracks |].
  rewrite Rmult_1_l.
  destruct (moderate_value_F2R x Hx) as [Hz | [Hlo Hhi]]; [by left | right].
  assert (powerRZ 2 (-1020) <= powerRZ 2 (-948))%R by (apply p2_le; lia).
  assert (powerRZ 2 953 <= powerRZ 2 1001)%R by (apply p2_le; lia).
  lra.
Qed.

Lemma moderate_finite (a : float) : moderate a = true -> is_finite_float a = true.
Proof.
  unfold moderate, is_finite_float. by destruct (Prim2SF a).
Qed.

Lemma f0_mul (a : float) : is_finite_float a = true -> fzero (f0 * a)%float.
Proof. intros Ha. apply mul_fzero_l; [apply f0_fzero | done]. Qed.

Lemma matvec_eye4_tracks (x y z : float) :
  moderate x = true -> moderate y = true -> moderate z = true ->
  exists x1 y1 z1,
    take3 (matvec eye4 (x, y, z, of_int 1)) = (x1, y1, z1) /\
    tracks 1 x1 (F2R x) /\ tracks 1 y1 (F2R y) /\ tracks 1 z1 (F2R z).
Proof.
  intros Hx Hy Hz.
  pose proof (f0_mul x (moderate_finite x Hx)) as H0x.
  pose proof (f0_mul y (moderate_finite y Hy)) as H0y.
  pose proof (f0_mul z (moderate_finite z Hz)) as H0z.
  assert (fzero (f0 * f1)%float) as H01
    by (exists false; vm_compute; reflexivity).
  eexists _, _, _. split; [reflexivity |].
  change (of_int 1) with (f1 : float).
  change (@fmul float float_arith) with PrimFloat.mul.
  change (@fadd float float_arith) with PrimFloat.add.
  split_and!.
  - repeat (apply tracks_add_zero_r; [lia | | done]). by apply row_tracks.
  - repeat (apply tracks_add_zero_r; [lia | | done]).
    apply tracks_add_zero_l; [lia | done |]. by apply row_tracks.
  - apply tracks_add_zero_r; [lia | | done].
    apply tracks_add_zero_l; [lia | by apply add_fzero |]. by apply row_tracks.
Qed.
End BinarySkinning.

Section WeightedSumLemmas.
Context {F : Type} `{Arith F}.

Lemma identity_skin_spec (mats : list (mat4 F)) (v : Vertex F) (x y z x1 y1 z1 : F) :
  vertex_wf v ->
  pos v = [x; y; z] ->
  (forall j w bi, bone_weights v !! j = Some w -> bone_indices v !! j = Some bi ->
                  w <> 0%N -> mats !! N.to_nat bi = Some eye4) ->
  take3 (matvec eye4 (x, y, z, of_int 1)) = (x1, y1, z1) ->
  skin_spec mats v
    = (weighted_sum x1 (bone_weights v), weighted_sum y1 (bone_weights v),
       weighted_sum z1 (bone_weights v)).
Proof.
  intros (_ & Hw & Hb) Hpos Hid Hmat.
  destruct (length_4_inv _ Hw) as (w0 & w1 & w2 & w3 & Hws).
  destruct (length_4_inv _ Hb) as (b0 & b1 & b2 & b3 & Hbs).
  assert (forall j w b, bone_weights v !! j = Some w ->
                        bone_indices v !! j = Some b ->
            slot_term mats v (x, y, z, of_int 1) j
              = if decide (w = 0%N) then None
                else Some (vscale3 (of_int (Z.of_N w) / of_int 255)%F (x1, y1, z1)))
    as Hterm.
  { intros j w b Hj Hbj. unfold slot_term. rewrite Hj, Hbj.
    cbn [mbind option_bind].
    destruct (decide (w = 0%N)); [done |].
    rewrite (Hid j w b) by done. cbn [mbind option_bind]. by rewrite Hmat. }
  unfold skin_spec, weighted_sum. rewrite Hpos.
  cbn [seq omap list_omap].
  rewrite (Hterm 0%nat w0 b0), (Hterm 1%nat w1 b1), (Hterm 2%nat w2 b2),
    (Hterm 3%nat w3 b3) by (by rewrite ?Hws, ?Hbs).
  rewrite Hws. cbn [fold_left].
  destruct (decide (w0 = 0%N)), (decide (w1 = 0%N)), (decide (w2 = 0%N)),
    (decide (w3 = 0%N)); reflexivity.
Qed.
End WeightedSumLemmas.

Section BinaryConservation.
Import Rbase Rbasic_fun Rfunctions Lra.

Lemma sixteen_u53 : (16 * u53 = powerRZ 2 (-49))%R.
Proof.
  unfold u53. replace (-49) with (4 + -53) by lia. rewrite p2_add.
  rewrite (p2_IZR 4) by lia. change (2 ^ 4) with 16. lra.
Qed.

Lemma tracks_near (a' a : float) : tracks 7 a' (F2R a) -> near a' a.
Proof.
  intros Ht. split; [by apply (tracks_finite 7 a' (F2R a)); [lia |] |].
  pose proof (Rabs_pos (F2R a)) as Hpos. pose proof (p2_pos (-49)).
  destruct Ht as [[Hz Hz'] | (_ & rho & Hrel & Hval)].
  - rewrite (fzero_F2R a' Hz'), Hz, Rminus_0_r, Rabs_R0. nra.
  - pose proof u53_bounds. pose proof u53_small. pose proof p2_m47.
    pose proof sixteen_u53.
    assert (INR 7 = 7%R) as H7 by (by rewrite INR_IZR_INZ).
    destruct (rel_linear 7 rho Hrel) as [Hlo Hhi]; [rewrite H7; lra |].
    rewrite H7 in Hlo, Hhi.
    rewrite Hval.
    replace (F2R a * rho - F2R a)%R with (F2R a * (rho - 1))%R by ring.
    rewrite Rabs_mult, Rmult_comm.
    apply Rmult_le_compat_r; [done |].
    apply Rabs_le. lra.
Qed.

Lemma moderate_scaled (W : Z) (X : R) :
  1 <= W <= 255 -> moderate_value X ->
  (IZR W / 255 * X)%R = 0%R \/
  (powerRZ 2 (-1020) <= Rabs (IZR W / 255 * X) <= powerRZ 2 1001)%R.
Proof.
  intros HW [-> | [Hlo Hhi]]; [left; ring | right].
  assert (1 <= IZR W <= 255)%R as HwR.
  { split; [apply (IZR_le 1) | apply (IZR_le W 255)]; lia. }
  rewrite Rabs_mult, (Rabs_pos_eq (IZR W / 255))
    by (apply Rmult_le_pos; lra).
  assert (powerRZ 2 (-1020) <= powerRZ 2 (-8 + -948))%R by (apply p2_le; lia).
  rewrite p2_add in *.
  assert (powerRZ 2 (-8) = / IZR (2 ^ 8))%R as H8 by (apply (p2_neg 8); lia).
  change (2 ^ 8) with 256 in H8.
  assert (powerRZ 2 953 <= powerRZ 2 1001)%R by (apply p2_le; lia).
  pose proof (p2_pos (-948)). pose proof (Rabs_pos X).
  assert (/ 256 <= IZR W / 255 <= 1)%R by (split; lra).
  split; nra.
Qed.

(** The slot loop for one coordinate: after the weights [ws], on top of
    [W / 255] of the value [X] accumulated in [n] slots, the accumulator
    tracks [(W + sum ws) / 255] of [X]. *)
Lemma weighted_sum_tracks (a : float) (X : R) :
  tracks 1 a X -> moderate_value X ->
  forall (ws : list N) (acc : float) (W : Z) (n : nat),
    tracks (3 + n) acc (IZR W / 255 * X) ->
    0 <= W -> W + foldr Z.add 0 (Z.of_N <$> ws) <= 255 ->
    (n + length ws <= 4)%nat ->
    tracks (3 + n + length ws)
      (fold_left (fun acc w => if decide (w = 0%N) then acc
                               else fadd acc (fmul (weight_factor (Z.of_N w)) a))
                 ws acc)
      (IZR (W + foldr Z.add 0 (Z.of_N <$> ws)) / 255 * X).
Proof.
  intros Ha HX ws. induction ws as [| w ws IH]; intros acc W n Hacc HW Hsum Hn.
  { cbn. rewrite Z.add_0_r, Nat.add_0_r. exact Hacc. }
  cbn [fold_left fmap list_fmap foldr length] in *.
  assert (0 <= foldr Z.add 0 (Z.of_N <$> ws)) as Hrest.
  { clear. induction ws as [| w' ws IH]; cbn; lia. }
  replace (3 + n + S (length ws))%nat with (3 + S n + length ws)%nat by lia.
  replace (W + (Z.of_N w + foldr Z.add 0 (Z.of_N <$> ws)))
    with ((W + Z.of_N w) + foldr Z.add 0 (Z.of_N <$> ws)) by lia.
  apply IH; [| lia | lia | lia].
  destruct (decide (w = 0%N)) as [-> | Hne].
  { rewrite Z.add_0_r. apply (tracks_mono (3 + n)); [lia | done]. }
  assert (1 <= Z.of_N w <= 255) as Hw by lia.
  assert (tracks 3 (fmul (weight_factor (Z.of_N w)) a)
            (IZR (Z.of_N w) / 255 * X)) as Hterm.
  { apply (tracks_mul 1 1); [lia | by apply factor_tracks | done |].
    by apply moderate_scaled. }
  replace (IZR (W + Z.of_N w) / 255 * X)%R
    with (IZR W / 255 * X + IZR (Z.of_N w) / 255 * X)%R
    by (rewrite plus_IZR; field).
  replace (3 + S n)%nat with (3 + n + 1)%nat by lia.
  apply tracks_add; [lia | done | apply (tracks_mono 3); [lia | done] | |].
  - assert (0 <= IZR W)%R by (apply (IZR_le 0); lia).
    assert (0 <= IZR (Z.of_N w))%R by (apply (IZR_le 0); lia).
    replace (IZR W / 255 * X * (IZR (Z.of_N w) / 255 * X))%R
      with (IZR W * IZR (Z.of_N w) * (X * X) * / (255 * 255))%R by field.
    pose proof (Rle_0_sqr X) as Hsq. unfold Rsqr in Hsq.
    apply Rmult_le_pos;
      [apply Rmult_le_pos; [by apply Rmult_le_pos | done] |].
    left. apply Rinv_0_lt_compat. lra.
  - replace (IZR W / 255 * X + IZR (Z.of_N w) / 255 * X)%R
      with (IZR (W + Z.of_N w) / 255 * X)%R by (rewrite plus_IZR; field).
    destruct (moderate_scaled (W + Z.of_N w) X ltac:(lia) HX) as [-> | [_ Hhi]];
      [| done].
    rewrite Rabs_R0. pose proof (p2_pos 1001). lra.
Qed.

Lemma weighted_sum_near (a x : float) (ws : list N) :
  tracks 1 a (F2R x) -> moderate x = true ->
  length ws = 4%nat -> foldr Z.add 0 (Z.of_N <$> ws) = 255 ->
  near (weighted_sum a ws) x.
Proof.
  intros Ha Hx Hlen Hsum. apply tracks_near.
  pose proof (weighted_sum_tracks a (F2R x) Ha (moderate_value_F2R x Hx)
                ws f0 0 0%nat) as Hws.
  rewrite Hlen, Hsum in Hws. change (0 + 255) with 255 in Hws.
  replace (IZR 255 / 255 * F2R x)%R with (F2R x) in Hws by field.
  apply Hws; [| lia | lia | lia].
  left. split; [field | apply f0_fzero].
Qed.
End BinaryConservation.

(** C5 (as the code has it).  In binary64, the arithmetic the program
    runs on: a vertex of three moderate coordinates (zero, or a normal
    number of magnitude between [2^-948] and [2^953], which covers every
    finite single-precision number) whose weights sum to 255, over any
    number of slots, and whose weighted slots all name an identity matrix,
    comes out with finite coordinates, each within the relative distance
    [2^-49] of the rest coordinate. *)
Theorem skin_vertex_weight_conservative_binary64
    (bone_matrices : list (mat4 float)) (v : Vertex float) (x y z : float) :
  vertex_wf v ->
  pos v = [x; y; z] ->
  weight_sum v = 255 ->
  (forall j w bi, bone_weights v !! j = Some w -> bone_indices v !! j = Some bi ->
                  w <> 0%N -> bone_matrices !! N.to_nat bi = Some eye4) ->
  moderate x = true -> moderate y = true -> moderate z = true ->
  exists x' y' z',
    skin_vertex bone_matrices v = Ok (x', y', z') /\
    near x' x /\ near y' y /\ near z' z.
Proof.
  intros Hv Hpos Hsum Hid Hx Hy Hz.
  destruct (matvec_eye4_tracks x y z Hx Hy Hz)
    as (x1 & y1 & z1 & Hmat & Hx1 & Hy1 & Hz1).
  rewrite skin_vertex_spec by done.
  rewrite (identity_skin_spec bone_matrices v x y z x1 y1 z1) by done.
  destruct Hv as (_ & Hlen & _).
  eexists _, _, _. split; [reflexivity |].
  split_and!; by apply weighted_sum_near.
Qed.

(** The vertex at [(1, 2, 7)] with weights of 85 in three slots. *)
Lemma skin_vertex_weight_conservative_binary64_witness :
  exists x' y' z',
    skin_vertex [eye4; eye4]
      {| pos := [1; 2; 7]%float;
         bone_weights := [85; 85; 85; 0]%N; bone_indices := [0; 1; 0; 7]%N |}
      = Ok (x', y', z') /\
    near x' 1 /\ near y' 2 /\ near z' 7.
Proof.
  apply skin_vertex_weight_conservative_binary64.
  - repeat split.
  - reflexivity.
  - reflexivity.
  - intros [| [| [| [| j]]]] w bi Hw Hb Hne; cbn in Hw, Hb; simplify_eq;
      reflexivity.
  - vm_compute. reflexivity.
  - vm_compute. reflexivity.
  - vm_compute. reflexivity.
Defined.

(** At the largest binary64 magnitude the claim fails: with weights of 51,
    51, 51 and 102 the four terms of the first coordinate add up past the
    largest finite number, and the coordinate comes out infinite. *)
Lemma largest_coordinate_overflows :
  weight_sum {| pos := [0x1.fffffffffffffp+1023; 0; 0]%float;
                bone_weights := [51; 51; 51; 102]%N;
                bone_indices := [0; 0; 0; 0]%N |} = 255 /\
  skin_vertex [eye4]
    {| pos := [0x1.fffffffffffffp+1023; 0; 0]%float;
       bone_weights := [51; 51; 51; 102]%N; bone_indices := [0; 0; 0; 0]%N |}
    = Ok (infinity, 0, 0)%float /\
  ~ (exists x' y' z',
       skin_vertex [eye4]
         {| pos := [0x1.fffffffffffffp+1023; 0; 0]%float;
            bone_weights := [51; 51; 51; 102]%N;
            bone_indices := [0; 0; 0; 0]%N |}
         = Ok (x', y', z') /\
       near x' 0x1.fffffffffffffp+1023 /\ near y' 0 /\ near z' 0).
Proof.
  assert (skin_vertex [eye4]
            {| pos := [0x1.fffffffffffffp+1023; 0; 0]%float;
               bone_weights := [51; 51; 51; 102]%N;
               bone_indices := [0; 0; 0; 0]%N |}
          = Ok (infinity, 0, 0)%float) as Hout by (vm_compute; reflexivity).
  split_and!.
  - reflexivity.
  - exact Hout.
  - intros (x' & y' & z' & Heq & [Hfin _] & _).
    rewrite Hout in Heq. simplify_eq.
Qed.

(** An infinite coordinate does not come back either: the zero entries of
    the identity matrix times infinity are NaN, so the other two
    coordinates of the output are NaN. *)
Example infinite_coordinate_not_conserved :
  skin_vertex [eye4]
    {| pos := [infinity; 0; 0]%float;
       bone_weights := [255; 0; 0; 0]%N; bone_indices := [0; 0; 0; 0]%N |}
    = Ok (infinity, nan, nan) /\
  is_finite_float nan = false.
Proof. split; vm_compute; reflexivity. Qed.


(** ** Texture resolution *)

Section Sorting.
Context {A : Type} (leb : A -> A -> bool).

Lemma insert_sorted_perm (x : A) (l : list A) : insert_sorted leb x l ≡ₚ x :: l.
Proof.
  induction l as [| y l IH]; [done |]. cbn.
  destruct (leb x y); [done |]. by rewrite IH, Permutation_swap.
Qed.

Lemma sorted_perm (l : list A) : sorted leb l ≡ₚ l.
Proof.
  induction l as [| x l IH]; [done |]. cbn.
  by rewrite insert_sorted_perm, IH.
Qed.

Hypothesis leb_total : forall x y, leb x y = true \/ leb y x = true.
Hypothesis leb_trans : forall x y z, leb x y = true -> leb y z = true -> leb x z = true.

Lemma insert_sorted_sorted (x : A) (l : list A) :
  StronglySorted (fun a b => leb a b = true) l ->
  StronglySorted (fun a b => leb a b = true) (insert_sorted leb x l).
Proof.
  induction 1 as [| y l Hl IH Hy]; cbn; [by repeat constructor |].
  destruct (leb x y) eqn:Hxy.
  - constructor; [by constructor |]. constructor; [done |].
    eapply Forall_impl; [done |]. intros z Hz. by eapply leb_trans.
  - constructor; [done |]. rewrite insert_sorted_perm. constructor; [| done].
    by destruct (leb_total x y) as [Hc | Hc]; [congruence |].
Qed.

Lemma sorted_sorted (l : list A) :
  StronglySorted (fun a b => leb a b = true) (sorted leb l).
Proof.
  induction l as [| x l IH]; cbn; [constructor |].
  by apply insert_sorted_sorted.
Qed.

(** The head of a sorted list is in the list and comes before every element. *)
Lemma sorted_head (l : list A) (x : A) (rest : list A) :
  sorted leb l = x :: rest ->
  x ∈ l /\ forall y, y ∈ l -> leb x y = true.
Proof.
  intros Hs. pose proof (sorted_perm l) as Hp. pose proof (sorted_sorted l) as Hss.
  rewrite Hs in Hp, Hss. split.
  - rewrite <- Hp. by left.
  - intros y Hy. rewrite <- Hp in Hy. apply StronglySorted_inv in Hss as [_ Hall].
    apply elem_of_cons in Hy as [-> | Hy].
    + by destruct (leb_total x x).
    + by apply (proj1 (Forall_forall _ _) Hall).
Qed.

Lemma sorted_nil (l : list A) : sorted leb l = [] -> l = [].
Proof.
  intros Hs. pose proof (sorted_perm l) as Hp. rewrite Hs in Hp.
  by apply Permutation_nil_l in Hp.
Qed.
End Sorting.

(** The greatest key comes first in [sorted(keys, reverse=True)]. *)
Lemma sorted_reverse_head (l : list string) (key : string) (rest : list string) :
  sorted_reverse String.leb l = key :: rest ->
  key ∈ l /\ forall k, k ∈ l -> String.le k key.
Proof.
  intros Hs. apply sorted_head in Hs as [Hin Hmax].
  - split; [done |]. intros k Hk. unfold String.le. by rewrite Hmax.
  - intros x y. destruct (String.leb_total x y); auto.
  - intros x y z Hxy Hyz.
    apply Is_true_true. apply Is_true_true in Hxy, Hyz.
    by apply (transitivity (R := String.le) Hyz Hxy).
Qed.

Lemma dict_get_dom {V} (d : gmap string V) (k : string) :
  k ∈ dom d -> exists v, d !! k = Some v /\ dict_get d k = Ok v.
Proof.
  intros [v Hv]%elem_of_dom. exists v. unfold dict_get. by rewrite Hv.
Qed.

Lemma keys_descending_head {V} (d : gmap string V) (key : string) rest :
  keys_descending d = key :: rest ->
  exists v, d !! key = Some v /\ dict_get d key = Ok v.
Proof.
  intros [Hin _]%sorted_reverse_head. by apply dict_get_dom, elem_of_elements.
Qed.

(** With a common suffix the greatest one is chosen, and both files are
    taken from it. *)
Lemma find_texture_files_paired fs m2_dir model_base entries :
  is_dir fs m2_dir = Ok true ->
  iterdir fs m2_dir = Ok entries ->
  let st := scan_blps model_base
              (blp_candidates m2_dir (lower model_base) entries) in
  dom (base_skins st) ∩ dom (extra_skins st) ≠ ∅ ->
  exists key b e tex_map,
    _find_texture_files fs m2_dir model_base = Ok tex_map /\
    base_skins st !! key = Some b /\ extra_skins st !! key = Some e /\
    (forall k, k ∈ dom (base_skins st) ∩ dom (extra_skins st) -> String.le k key) /\
    tex_map !! 1 = Some b /\ tex_map !! 8 = Some e.
Proof.
  intros Hdir Hls st Hne.
  unfold _find_texture_files. rewrite Hdir, res_bind_Ok. cbn [negb].
  rewrite Hls, res_bind_Ok. fold st. clearbody st.
  destruct (paired_keys st) as [| key rest] eqn:Hkeys.
  { apply sorted_nil, elements_empty_inv in Hkeys.
    by apply leibniz_equiv in Hkeys. }
  apply sorted_reverse_head in Hkeys as [Hin Hmax].
  apply elem_of_elements, elem_of_intersection in Hin as [Hb He].
  destruct (dict_get_dom _ _ Hb) as (b & Hbk & ->).
  destruct (dict_get_dom _ _ He) as (e & Hek & ->).
  rewrite !res_bind_Ok.
  assert (<[8 := e]> (<[1 := b]> (∅ : gmap Z Path)) ≠ ∅) as Hnon
    by apply insert_non_empty.
  exists key, b, e, (<[8 := e]> (<[1 := b]> ∅)).
  split.
  - destruct (plain_texture st);
      rewrite ?bool_decide_eq_false_2 by done; reflexivity.
  - do 2 (split; [done |]). split.
    + intros k Hk. by apply Hmax, elem_of_elements.
    + split; [by rewrite lookup_insert_ne, lookup_insert_eq | apply lookup_insert_eq].
Qed.

(** A directory that answers and can be listed never makes the naming
    strategy fail. *)
Lemma find_texture_files_total fs m2_dir model_base d entries :
  is_dir fs m2_dir = Ok d ->
  iterdir fs m2_dir = Ok entries ->
  exists tex_map, _find_texture_files fs m2_dir model_base = Ok tex_map.
Proof.
  intros Hdir Hls. unfold _find_texture_files. rewrite Hdir, res_bind_Ok.
  destruct d; cbn [negb]; [| eauto].
  rewrite Hls, res_bind_Ok.
  set (st := scan_blps _ _). clearbody st.
  destruct (paired_keys st) as [| key rest] eqn:Hkeys.
  - destruct (keys_descending (base_skins st)) as [| kb ?] eqn:Hkb;
      [| destruct (keys_descending_head _ _ _ Hkb) as (b & _ & ->)];
      (destruct (keys_descending (extra_skins st)) as [| ke ?] eqn:Hke;
       [| destruct (keys_descending_head _ _ _ Hke) as (e & _ & ->)]);
      rewrite !res_bind_Ok; eauto.
  - apply sorted_reverse_head in Hkeys as [Hin _].
    apply elem_of_elements, elem_of_intersection in Hin as [Hb He].
    destruct (dict_get_dom _ _ Hb) as (b & _ & ->).
    destruct (dict_get_dom _ _ He) as (e & _ & ->).
    rewrite !res_bind_Ok. eauto.
Qed.

Lemma walk_parents_total fs tex_norm ps :
  exists_answers fs -> exists r, walk_parents fs tex_norm ps = Ok r.
Proof.
  intros Hfs. induction ps as [| parent ps IH]; cbn; [eauto |].
  destruct (Hfs (path_join parent tex_norm)) as [found ->].
  rewrite res_bind_Ok. destruct found; [eauto |].
  case_bool_decide; eauto.
Qed.

Lemma resolve_texture_path_total fs tex_path local_dir entries :
  iterdir fs local_dir = Ok entries -> exists_answers fs ->
  exists r, _resolve_texture_path fs tex_path local_dir = Ok r.
Proof.
  intros Hls Hfs. unfold _resolve_texture_path. rewrite Hls, res_bind_Ok.
  destruct (List.find _ _); [eauto |]. by apply walk_parents_total.
Qed.

(** A round of the loop over the declared slots that does not raise binds
    the slot when it resolves and leaves the mapping as it is otherwise. *)
Lemma resolve_slot_Ok fs m2_dir by_type tex_files i tex m :
  resolve_slot fs m2_dir by_type tex_files i tex = Ok m ->
  m = match slot_target fs m2_dir by_type tex with
      | Some f => <[i := f]> tex_files
      | None => tex_files
      end.
Proof.
  unfold resolve_slot, slot_target.
  destruct (bool_decide (filename tex = ""));
    [destruct (by_type !! _); by intros [= <-] |].
  destruct (_resolve_texture_path _ _ _) as [r | e]; [| done].
  rewrite res_bind_Ok. destruct r; by intros [= <-].
Qed.

Lemma resolve_slot_target fs m2_dir by_type entries tex_files i tex :
  iterdir fs m2_dir = Ok entries -> exists_answers fs ->
  resolve_slot fs m2_dir by_type tex_files i tex
    = Ok (match slot_target fs m2_dir by_type tex with
          | Some f => <[i := f]> tex_files
          | None => tex_files
          end).
Proof.
  intros Hls Hfs. unfold resolve_slot, slot_target.
  destruct (bool_decide (filename tex = "")); [by destruct (by_type !! _) |].
  destruct (resolve_texture_path_total fs (filename tex) m2_dir entries Hls Hfs)
    as [r ->].
  rewrite res_bind_Ok. by destruct r.
Qed.

(** After the loop over the declared slots, slot [k] is bound exactly when
    it resolves. *)
Lemma resolve_slots_target fs m2_dir by_type entries :
  iterdir fs m2_dir = Ok entries -> exists_answers fs ->
  forall texs tex_files i,
    (forall k, i <= k -> tex_files !! k = None) ->
    exists m,
      resolve_slots fs m2_dir by_type tex_files i texs = Ok m /\
      (forall k, k < i -> m !! k = tex_files !! k) /\
      (forall j tex, texs !! j = Some tex ->
                     m !! (i + Z.of_nat j) = slot_target fs m2_dir by_type tex).
Proof.
  intros Hls Hfs. induction texs as [| tex texs IH]; intros tex_files i Hfresh.
  { exists tex_files. by repeat split. }
  cbn [resolve_slots].
  rewrite (resolve_slot_target _ _ _ entries) by done. rewrite res_bind_Ok.
  set (acc := match slot_target fs m2_dir by_type tex with
              | Some f => <[i := f]> tex_files
              | None => tex_files
              end).
  assert (acc !! i = slot_target fs m2_dir by_type tex) as Hi.
  { subst acc. destruct (slot_target _ _ _ _).
    - apply lookup_insert_eq.
    - apply Hfresh. lia. }
  assert (forall k, k <> i -> acc !! k = tex_files !! k) as Hother.
  { intros k Hk. subst acc. destruct (slot_target _ _ _ _); [| done].
    by rewrite lookup_insert_ne. }
  destruct (IH acc (i + 1)) as (m & -> & Hlow & Hslots).
  { intros k Hk. rewrite Hother by lia. apply Hfresh. lia. }
  exists m. split; [done |]. split.
  - intros k Hk. rewrite Hlow by lia. apply Hother. lia.
  - intros [| j] tex' Hj.
    + cbn in Hj. simplify_eq. rewrite Z.add_0_r, Hlow by lia. done.
    + cbn in Hj. rewrite <- (Hslots j tex' Hj). f_equal. lia.
Qed.

(** C7. When some suffix has both a base skin and an extra skin, the
    greatest such suffix is chosen, and type 1 maps to its base file and
    type 8 to its extra file, both of the same suffix.  For the model Hero
    in a directory that lists [HeroSkin00.blp], [HeroSkin00_Extra.blp] and
    [HeroSkin01.blp], in whatever order, type 1 maps to [HeroSkin00.blp]
    and type 8 to [HeroSkin00_Extra.blp]. *)
Theorem paired_suffix_chosen :
  (forall fs m2_dir model_base entries,
     is_dir fs m2_dir = Ok true ->
     iterdir fs m2_dir = Ok entries ->
     let st := scan_blps model_base
                 (blp_candidates m2_dir (lower model_base) entries) in
     dom (base_skins st) ∩ dom (extra_skins st) ≠ ∅ ->
     exists key b e tex_map,
       _find_texture_files fs m2_dir model_base = Ok tex_map /\
       base_skins st !! key = Some b /\ extra_skins st !! key = Some e /\
       (forall k, k ∈ dom (base_skins st) ∩ dom (extra_skins st) ->
                  String.le k key) /\
       tex_map !! 1 = Some b /\ tex_map !! 8 = Some e) /\
  Forall (fun entries =>
            _find_texture_files (hero_fs entries) hero_dir "Hero"
              = Ok (<[8 := path_child hero_dir "HeroSkin00_Extra.blp"]>
                      (<[1 := path_child hero_dir "HeroSkin00.blp"]> ∅)))
         (permutations hero_files).
Proof.
  split.
  - apply find_texture_files_paired.
  - set (listings := permutations hero_files). vm_compute in listings.
    subst listings. repeat (constructor; [vm_compute; reflexivity |]).
    constructor.
Qed.

(** The directory of the model Hero. *)
Lemma paired_suffix_chosen_witness :
  exists key b e tex_map,
    _find_texture_files (hero_fs hero_files) hero_dir "Hero" = Ok tex_map /\
    base_skins (scan_blps "Hero" (blp_candidates hero_dir (lower "Hero") hero_files))
      !! key = Some b /\
    extra_skins (scan_blps "Hero" (blp_candidates hero_dir (lower "Hero") hero_files))
      !! key = Some e /\
    (forall k,
       k ∈ dom (base_skins (scan_blps "Hero"
                  (blp_candidates hero_dir (lower "Hero") hero_files)))
           ∩ dom (extra_skins (scan_blps "Hero"
                    (blp_candidates hero_dir (lower "Hero") hero_files))) ->
       String.le k key) /\
    tex_map !! 1 = Some b /\ tex_map !! 8 = Some e.
Proof.
  apply (proj1 paired_suffix_chosen (hero_fs hero_files) hero_dir "Hero" hero_files).
  - reflexivity.
  - reflexivity.
  - intros Hempty.
    assert ("00" ∈ (∅ : gset string)) as Hin; [| by apply elem_of_empty in Hin].
    rewrite <- Hempty.
    apply elem_of_intersection; split; apply elem_of_dom; eexists;
      vm_compute; reflexivity.
Defined.

(** C8 (as the code has it). Texture resolution catches nothing and
    raises nothing of its own.  When the file system answers (the search
    directory answers [is_dir] and can be listed, and no question about
    the existence of a file raises), both strategies and
    [_resolve_textures] return, whatever the declared slots: the naming
    strategy is run on the model's base name, the result binds each
    declared slot exactly when it resolves (a slot that does not is
    absent), and a model without declared slots gets the naming strategy's
    mapping; and the naming strategy gives the empty mapping for a path
    that is not a directory. *)
Theorem resolve_textures_total {F : Type} (fs : FileSystem) (m2 : M2File F)
    (m2_path : string) (is_directory : bool) (entries : list string) :
  let m2_dir := path_parent (Path_of m2_path) in
  is_dir fs m2_dir = Ok is_directory ->
  iterdir fs m2_dir = Ok entries ->
  exists_answers fs ->
  (exists by_type tex_files,
     _find_texture_files fs m2_dir (model_base_of m2 m2_path) = Ok by_type /\
     _resolve_textures fs m2 m2_path = Ok tex_files /\
     (textures m2 = [] -> tex_files = by_type) /\
     (forall i tex, textures m2 !! i = Some tex ->
                    tex_files !! Z.of_nat i = slot_target fs m2_dir by_type tex)) /\
  (forall tex_path, exists r, _resolve_texture_path fs tex_path m2_dir = Ok r) /\
  (forall d model_base,
     is_dir fs d = Ok false -> _find_texture_files fs d model_base = Ok ∅).
Proof.
  intros m2_dir Hdir Hls Hfs. split; [| split].
  - unfold _resolve_textures. fold m2_dir. cbv zeta.
    destruct (find_texture_files_total fs m2_dir (model_base_of m2 m2_path)
                is_directory entries Hdir Hls) as [by_type Hby].
    exists by_type. rewrite Hby, res_bind_Ok.
    destruct (textures m2) as [| tex texs] eqn:Htex.
    + exists by_type. by repeat split.
    + destruct (resolve_slots_target fs m2_dir by_type entries Hls Hfs
                  (tex :: texs) ∅ 0) as (m & Hm & _ & Hslots);
        [intros; apply lookup_empty |].
      exists m. do 2 (split; [done |]). split; [done |].
      intros i tex' Hi. by rewrite <- (Hslots i tex' Hi).
  - intros tex_path. by eapply resolve_texture_path_total.
  - intros d model_base Hd. unfold _find_texture_files. by rewrite Hd.
Qed.

(** The model Hero with three declared slots, one of which resolves. *)
Lemma resolve_textures_total_witness :
  exists by_type tex_files,
    _find_texture_files (hero_fs hero_files) hero_dir
      (model_base_of hero_m2 "/models/hero/Hero.m2") = Ok by_type /\
    _resolve_textures (hero_fs hero_files) hero_m2 "/models/hero/Hero.m2"
      = Ok tex_files /\
    (textures hero_m2 = [] -> tex_files = by_type) /\
    (forall i tex, textures hero_m2 !! i = Some tex ->
                   tex_files !! Z.of_nat i
                     = slot_target (hero_fs hero_files) hero_dir by_type tex).
Proof.
  apply (resolve_textures_total (hero_fs hero_files) hero_m2
           "/models/hero/Hero.m2" true hero_files).
  - reflexivity.
  - reflexivity.
  - intros p. by exists false.
Defined.

(** C8, the claim as stated fails: a directory that exists and cannot be
    listed makes both strategies, and the resolution as a whole, raise the
    error of the listing; and in a directory that can be listed the path
    strategy raises the error of [exists()] when the question is refused
    for a candidate under an ancestor. *)
Lemma unreadable_directory_raises :
  _find_texture_files unreadable_fs hero_dir "Hero" = Raise OSError /\
  _resolve_texture_path unreadable_fs "Creature\Hero\Eye.blp" hero_dir
    = Raise OSError /\
  _resolve_textures unreadable_fs hero_m2 "/models/hero/Hero.m2" = Raise OSError /\
  _resolve_texture_path guarded_fs "Creature\Hero\Eye.blp" hero_dir
    = Raise OSError /\
  _resolve_textures guarded_fs hero_m2 "/models/hero/Hero.m2" = Raise OSError.
Proof. repeat split; vm_compute; reflexivity. Qed.

(** ** Further properties of the specification *)

(** A range that holds a single keyframe (one index wide, or cut to one
    index by the end of the timestamps) yields that keyframe's value at
    every local time. *)
Theorem single_keyframe_value {F : Type} `{Scalar F}
    (track : M2Track F) (anim_index time_ms anim_duration : Z)
    (is_quat : bool) (s e : N) (v : list F) :
  0 <= anim_index ->
  ranges track !! Z.to_nat anim_index = Some (s, e) ->
  (s < e)%N ->
  Z.min (Z.of_N e) (len (timestamps track)) = Z.of_N s + 1 ->
  values track !! N.to_nat s = Some v ->
  evaluate_track track anim_index time_ms anim_duration is_quat = Ok (Some v).
Proof.
  intros Hi Hr Hse Hone Hv.
  assert (values track <> []) as Hne by (intros Hnil; by rewrite Hnil in Hv).
  destruct (evaluate_track_in_range track anim_index time_ms anim_duration
              is_quat s e) as (t0 & k & _ & [Hk _] & [-> | (Hlast & _)]);
    [done | done | done | lia | lia | | lia].
  assert (k = Z.of_N s) as -> by lia.
  rewrite (getitem_lookup _ _ v); [done | | lia].
  by replace (Z.to_nat (Z.of_N s)) with (N.to_nat s) by lia.
Qed.

(** A one-keyframe range far past its timestamp. *)
Lemma single_keyframe_value_witness :
  evaluate_track
    {| interp_type := 1; global_seq := -1; ranges := [(1%N, 2%N)];
       timestamps := [0; 100; 200];
       values := [[1; 2; 3]; [3; 4; 5]; [10; 10; 10]]%float |}
    0 777 0 false = Ok (Some [3; 4; 5]%float).
Proof.
  apply (single_keyframe_value _ 0 777 0 false 1 2); try done.
Defined.

Section FramePass.
Context {F : Type} `{ScalarLaws F}.

Lemma bone_pass_worlds (bones : list (Bone F)) (a t d : Z) (n : nat) :
  Forall bone_wf bones -> 0 <= a ->
  forall bis cache,
    Forall (fun i => reaches_root bones n i = true) bis ->
    cache_valid bones a t d cache ->
    exists mats,
      bone_pass n bones a t d cache bis = Some (Ok mats) /\
      Forall2 (is_world bones a t d) bis mats.
Proof.
  intros Hwf Ha. induction bis as [| bi bis IH]; intros cache Hroot Hc.
  { exists []. by split. }
  apply Forall_cons in Hroot as [Hbi Hroot].
  destruct (eval_cached bones a t d n Hwf Ha bi cache Hbi)
    as (world & cache' & Hev & Hvalid).
  destruct (Hvalid Hc) as [Hc' Hw].
  destruct (IH cache' Hroot Hc') as (mats & Hpass & Hall).
  exists (world :: mats). cbn [bone_pass]. rewrite Hev, Hpass.
  split; [done | by constructor].
Qed.
End FramePass.

(** On a model of the data model whose bones all reach a root within [n]
    parents, and for an animation index that is a position,
    [compute_deformed_positions] ends without an exception: the frame's
    matrices are the world matrices of the bones, in bone order, and the
    positions are those of the specification's sum. *)
Theorem compute_deformed_positions_total {F : Type} `{ScalarLaws F}
    (m2 : M2File F) (anim_index time_ms : Z) (n : nat) :
  Forall bone_wf (bones m2) ->
  Forall vertex_wf (vertices m2) ->
  0 <= anim_index ->
  Forall (fun i => reaches_root (bones m2) n i = true)
         (range (length (bones m2))) ->
  exists anim_duration bone_matrices,
    frame_bone_matrices n m2 anim_index time_ms = Some (Ok bone_matrices) /\
    Forall2 (is_world (bones m2) anim_index time_ms anim_duration)
            (range (length (bones m2))) bone_matrices /\
    compute_deformed_positions n m2 anim_index time_ms
      = Some (Ok (skin_spec bone_matrices <$> vertices m2)).
Proof.
  intros Hbones Hverts Ha Hroot.
  assert (exists dur,
            (if anim_index <? len (animations m2)
             then duration <$> getitem (animations m2) anim_index
             else Ok 0) = Ok dur) as [dur Hdur].
  { destruct (Z.ltb_spec anim_index (len (animations m2))); [| eauto].
    destruct (getitem_in_range (animations m2) anim_index) as (an & _ & ->);
      [lia |]. cbn. eauto. }
  destruct (bone_pass_worlds (bones m2) anim_index time_ms dur n Hbones Ha
              (range (length (bones m2))) empty_cache Hroot)
    as (mats & Hpass & Hall).
  { intros j m Hj. cbn in Hj. by rewrite lookup_empty in Hj. }
  exists dur, mats.
  assert (frame_bone_matrices n m2 anim_index time_ms = Some (Ok mats)) as Hframe
    by (unfold frame_bone_matrices; by rewrite Hdur).
  split; [done |]. split; [done |].
  unfold compute_deformed_positions. rewrite Hframe.
  by rewrite skin_vertices_spec.
Qed.

(** The sample mesh over the two-bone skeleton. *)
Lemma compute_deformed_positions_total_witness :
  exists anim_duration bone_matrices,
    frame_bone_matrices 2 sample_m2 0 50 = Some (Ok bone_matrices) /\
    Forall2 (is_world (bones sample_m2) 0 50 anim_duration)
            (range (length (bones sample_m2))) bone_matrices /\
    compute_deformed_positions 2 sample_m2 0 50
      = Some (Ok (skin_spec bone_matrices <$> vertices sample_m2)).
Proof.
  apply (@compute_deformed_positions_total float float_scalar float_laws
           sample_m2 0 50 2).
  - apply two_bones_wf.
  - apply sample_m2_vertices_wf.
  - lia.
  - repeat constructor.
Defined.

(** The texture of the model at [proj/Models/Bear.m2] is found in the first
    parent of the model's directory. *)
Theorem bear_texture_one_level_up :
  _resolve_texture_path bear_fs "Creature\Bear\BearSkin.blp"
    (path_parent (Path_of "proj/Models/Bear.m2"))
    = Ok (Some (path_join (Path_of "proj") "Creature/Bear/BearSkin.blp")) /\
  head (path_parents (path_parent (Path_of "proj/Models/Bear.m2")))
    = Some (Path_of "proj").
Proof. split; reflexivity. Qed.

(** ** Further properties of the track evaluator *)

(** Between two neighbouring keyframes of a range whose timestamps do not
    decrease, a track that is not a step track blends exactly those two
    keyframes, at the fraction of the interval that has passed. *)
Theorem evaluate_track_interpolates {F : Type} `{Scalar F}
    (track : M2Track F) (anim_index time_ms anim_duration : Z)
    (is_quat : bool) (s e : N) (t0 k t_k t_k1 : Z) (v_k v_k1 : list F) :
  0 <= anim_index ->
  ranges track !! Z.to_nat anim_index = Some (s, e) ->
  timestamps track !! N.to_nat s = Some t0 ->
  (forall i j t_i t_j,
     Z.of_N s <= i -> i <= j -> j < Z.of_N e ->
     timestamps track !! Z.to_nat i = Some t_i ->
     timestamps track !! Z.to_nat j = Some t_j -> t_i <= t_j) ->
  interp_type track <> 0 ->
  0 < time_ms ->
  Z.of_N s <= k -> k + 1 < Z.of_N e ->
  timestamps track !! Z.to_nat k = Some t_k ->
  timestamps track !! Z.to_nat (k + 1) = Some t_k1 ->
  t_k <= t0 + time_ms < t_k1 ->
  values track !! Z.to_nat k = Some v_k ->
  values track !! Z.to_nat (k + 1) = Some v_k1 ->
  evaluate_track track anim_index time_ms anim_duration is_quat =
    let t := (of_int (t0 + time_ms - t_k) / of_int (t_k1 - t_k))%F in
    Some <$> (if is_quat then _nlerp v_k v_k1 t else _lerp v_k v_k1 t).
Proof.
  intros Hi Hr Ht0 Hsorted Hinterp Htime Hsk Hke Htk Htk1 Hg Hvk Hvk1.
  assert (k + 1 < len (timestamps track)) by (apply lookup_len in Htk1; lia).
  assert (values track <> []) by (intros Hnil; by rewrite Hnil in Hvk).
  set (last := Z.min (Z.of_N e) (len (timestamps track)) - 1).
  assert (k + 1 <= last) by (subst last; lia).
  destruct (getitem_in_range (timestamps track) last) as (tl & Htl & _);
    [subst last; lia |].
  assert (t_k1 <= tl) by (eapply (Hsorted (k + 1) last); eauto; subst last; lia).
  rewrite (evaluate_track_unfold track anim_index time_ms anim_duration is_quat
             s e t0 tl) by (done || lia).
  fold last.
  destruct (Z.leb_spec (t0 + time_ms) t0); [lia |].
  destruct (Z.geb_spec (t0 + time_ms) tl); [lia |].
  destruct (bracket_spec (timestamps track) (t0 + time_ms) (Z.of_N s) last)
    as (lo & hi & -> & Hlo & Hhi & -> & Hbr); [lia | lia | subst last; lia |].
  rewrite res_bind_Ok. cbn [fst snd].
  destruct Hbr as (t_lo & t_hi & Hl & Hh & Hlh).
  { exists t0, tl. replace (Z.to_nat (Z.of_N s)) with (N.to_nat s) by lia.
    repeat split; [done.. | lia | lia]. }
  assert (lo = k) as ->.
  { destruct (Z.lt_trichotomy lo k) as [Hlt | [-> | Hgt]]; [| done |].
    - assert (t_hi <= t_k)
        by (eapply (Hsorted (lo + 1) k); eauto; subst last; lia).
      lia.
    - assert (t_k1 <= t_lo)
        by (eapply (Hsorted (k + 1) lo); eauto; subst last; lia).
      lia. }
  simplify_eq.
  unfold sample_between.
  rewrite (getitem_lookup _ _ _ Htk), (getitem_lookup _ _ _ Htk1) by lia.
  rewrite (getitem_lookup _ _ _ Hvk), (getitem_lookup _ _ _ Hvk1) by lia.
  destruct (Z.eqb_spec (interp_type track) 0); [done |].
  rewrite !res_bind_Ok.
  destruct (Z.eqb_spec t_k1 t_k); [lia |].
  unfold int_truediv. destruct (Z.eqb_spec (t_k1 - t_k) 0); [lia |].
  by rewrite !res_bind_Ok.
Qed.

Lemma evaluate_track_interpolates_witness :
  evaluate_track sample_track 0 150 0 false =
    Some <$> _lerp [3; 4; 5]%float [10; 10; 10]%float
               (of_int (0 + 150 - 100) / of_int (200 - 100))%F.
Proof.
  apply (@evaluate_track_interpolates float float_scalar sample_track 0 150 0
           false 0%N 3%N 0 1 100 200); try done.
  intros i j t_i t_j Hi Hij Hj.
  assert (i = 0 \/ i = 1 \/ i = 2) as [-> | [-> | ->]] by lia;
    (assert (j = 0 \/ j = 1 \/ j = 2) as [-> | [-> | ->]] by lia);
    cbn; intros [= <-] [= <-]; lia.
Defined.

(** A time at or before the first keyframe of the range returns that
    keyframe as stored, and a time at or after the last keyframe returns the
    last one: there is no extrapolation, whatever the interpolation type. *)
Theorem evaluate_track_holds_ends {F : Type} `{Scalar F}
    (track : M2Track F) (anim_index time_ms anim_duration : Z)
    (is_quat : bool) (s e : N) (t0 tl : Z) :
  length (values track) = length (timestamps track) ->
  0 <= anim_index ->
  ranges track !! Z.to_nat anim_index = Some (s, e) ->
  (s < e)%N ->
  let last := Z.min (Z.of_N e) (len (timestamps track)) - 1 in
  timestamps track !! N.to_nat s = Some t0 ->
  timestamps track !! Z.to_nat last = Some tl ->
  exists v_first v_last,
    values track !! N.to_nat s = Some v_first /\
    values track !! Z.to_nat last = Some v_last /\
    (time_ms <= 0 ->
     evaluate_track track anim_index time_ms anim_duration is_quat
       = Ok (Some v_first)) /\
    (0 < time_ms -> tl <= t0 + time_ms ->
     evaluate_track track anim_index time_ms anim_duration is_quat
       = Ok (Some v_last)).
Proof.
  intros Hlen Hi Hr Hse last Ht0 Htl.
  assert (Z.of_N s < len (timestamps track)).
  { apply (lookup_len _ (Z.of_N s) t0); [| lia].
    by replace (Z.to_nat (Z.of_N s)) with (N.to_nat s) by lia. }
  assert (0 <= last < len (timestamps track)) by (subst last; lia).
  destruct (getitem_in_range (values track) (Z.of_N s)) as (v_first & Hvf & Hgf);
    [unfold len in *; lia |].
  destruct (getitem_in_range (values track) last) as (v_last & Hvl & Hgl);
    [unfold len in *; lia |].
  replace (Z.to_nat (Z.of_N s)) with (N.to_nat s) in Hvf by lia.
  assert (values track <> []) by (intros Hnil; by rewrite Hnil in Hvf).
  exists v_first, v_last. split; [done |]. split; [done |].
  rewrite (evaluate_track_unfold track anim_index time_ms anim_duration is_quat
             s e t0 tl) by (done || lia).
  fold last. rewrite Hgf, Hgl. split.
  - intros ?. by destruct (Z.leb_spec (t0 + time_ms) t0); [| lia].
  - intros ? ?. destruct (Z.leb_spec (t0 + time_ms) t0); [lia |].
    by destruct (Z.geb_spec (t0 + time_ms) tl); [| lia].
Qed.

Lemma evaluate_track_holds_ends_witness :
  exists v_first v_last,
    values sample_track !! N.to_nat 0 = Some v_first /\
    values sample_track !! Z.to_nat (Z.min (Z.of_N 3) (len (timestamps sample_track)) - 1)
      = Some v_last /\
    (-5 <= 0 -> evaluate_track sample_track 0 (-5) 0 false = Ok (Some v_first)) /\
    (0 < -5 -> 200 <= 0 + -5 ->
     evaluate_track sample_track 0 (-5) 0 false = Ok (Some v_last)).
Proof.
  apply (@evaluate_track_holds_ends float float_scalar sample_track 0 (-5) 0
           false 0%N 3%N 0 200); (done || lia).
Defined.

(** Python's indexing of [track.ranges]: a negative animation index counts
    from the end of the ranges, it is not a missing animation; below
    [-len(ranges)] the lookup raises. *)
Theorem evaluate_track_negative_index {F : Type} `{Scalar F}
    (track : M2Track F) (anim_index time_ms anim_duration : Z)
    (is_quat : bool) :
  anim_index < 0 ->
  values track <> [] ->
  (- len (ranges track) <= anim_index ->
   evaluate_track track anim_index time_ms anim_duration is_quat =
   evaluate_track track (anim_index + len (ranges track)) time_ms
     anim_duration is_quat) /\
  (anim_index < - len (ranges track) ->
   evaluate_track track anim_index time_ms anim_duration is_quat
     = Raise IndexError).
Proof.
  intros Hneg Hv. unfold evaluate_track.
  destruct (values track) as [| v vs]; [done |].
  assert (0 <= len (ranges track)) by (unfold len; lia).
  destruct (Z.ltb_spec anim_index (len (ranges track))); [| lia].
  split; intros Hlow.
  - destruct (Z.ltb_spec (anim_index + len (ranges track)) (len (ranges track)));
      [| lia].
    replace (getitem (ranges track) (anim_index + len (ranges track)))
      with (getitem (ranges track) anim_index); [done |].
    unfold getitem. cbv zeta.
    destruct (Z.ltb_spec anim_index 0); [| lia].
    by rewrite !(proj2 (Z.ltb_ge (anim_index + len (ranges track)) 0)) by lia.
  - unfold getitem.
    destruct (Z.ltb_spec anim_index 0); [| lia].
    by destruct (Z.ltb_spec (anim_index + len (ranges track)) 0); [| lia].
Qed.

Lemma evaluate_track_negative_index_witness :
  (- len (ranges sample_track) <= -1 ->
   evaluate_track sample_track (-1) 150 0 false =
   evaluate_track sample_track (-1 + len (ranges sample_track)) 150 0 false) /\
  (-1 < - len (ranges sample_track) ->
   evaluate_track sample_track (-1) 150 0 false = Raise IndexError).
Proof.
  apply (@evaluate_track_negative_index float float_scalar sample_track (-1)
           150 0 false); (done || lia).
Defined.

(** ** Further properties of the interpolation helpers *)

Section TupleLemmas.
Context {A : Type}.

Lemma tuple_of_Ok_lookup (f : Z -> res A) (its : list Z) (xs : list A) :
  tuple_of f its = Ok xs -> Forall2 (fun i x => f i = Ok x) its xs.
Proof.
  revert xs. induction its as [| i its IH]; intros xs; cbn.
  - intros [= <-]. constructor.
  - destruct (f i) as [x | e] eqn:Hf; [| done]. rewrite res_bind_Ok.
    destruct (tuple_of f its) as [ys | e]; [| done]. rewrite res_bind_Ok.
    intros [= <-]. constructor; [done | by apply IH].
Qed.

Lemma tuple_of_raise (f : Z -> res A) (its1 its2 : list Z) (i : Z) (e : exn) :
  (forall j, j ∈ its1 -> exists x, f j = Ok x) -> f i = Raise e ->
  tuple_of f (its1 ++ i :: its2) = Raise e.
Proof.
  intros Hok Hi. induction its1 as [| j its1 IH]; cbn.
  - by rewrite Hi.
  - destruct (Hok j) as (x & ->); [by left |]. rewrite res_bind_Ok.
    rewrite IH; [done |]. intros k Hk. apply Hok. by right.
Qed.
End TupleLemmas.

(** [_lerp] walks the indices of its first argument: the result has as
    many components as [a], each one [a[i] + (b[i] - a[i]) * t] (components
    of [b] beyond [len(a)] are ignored), and a shorter [b] raises
    IndexError. *)
Theorem lerp_components {F : Type} `{Scalar F} (a b : list F) (t : F) :
  ((length a <= length b)%nat ->
   exists r, _lerp a b t = Ok r /\ length r = length a /\
     forall i a_i b_i, a !! i = Some a_i -> b !! i = Some b_i ->
                       r !! i = Some (a_i + (b_i - a_i) * t)%F) /\
  ((length b < length a)%nat -> _lerp a b t = Raise IndexError).
Proof.
  split.
  - intros Hlen.
    destruct (tuple_of_total
                (fun i => ai ← getitem a i; bi ← getitem b i;
                          Ok (ai + (bi - ai) * t)%F)
                (range (length a))) as (r & Hr & Hlr).
    { intros i Hi%elem_of_range.
      destruct (getitem_in_range a i) as (ai & _ & ->); [unfold len; lia |].
      destruct (getitem_in_range b i) as (bi & _ & ->); [unfold len; lia |].
      rewrite !res_bind_Ok. eauto. }
    exists r. unfold _lerp. rewrite Hr. rewrite length_range in Hlr.
    split; [done |]. split; [done |].
    intros i a_i b_i Ha Hb.
    apply tuple_of_Ok_lookup in Hr.
    assert (range (length a) !! i = Some (Z.of_nat i)) as Hi.
    { unfold range. rewrite list_lookup_fmap, lookup_seq_lt; [done |].
      by apply lookup_lt_Some in Ha. }
    destruct (Forall2_lookup_l _ _ _ _ _ Hr Hi) as (x & Hx & Hfx).
    rewrite Hx. f_equal.
    rewrite (getitem_lookup a (Z.of_nat i) a_i) in Hfx
      by (rewrite ?Nat2Z.id; done || lia).
    rewrite (getitem_lookup b (Z.of_nat i) b_i) in Hfx
      by (rewrite ?Nat2Z.id; done || lia).
    rewrite !res_bind_Ok in Hfx. by simplify_eq.
  - intros Hlen. unfold _lerp, range.
    replace (length a) with (length b + S (length a - S (length b)))%nat by lia.
    rewrite seq_app, fmap_app. cbn [seq fmap list_fmap].
    apply tuple_of_raise.
    + intros j (k & -> & Hk%elem_of_seq)%list_elem_of_fmap.
      destruct (getitem_in_range a (Z.of_nat k)) as (ai & _ & ->);
        [unfold len; lia |].
      destruct (getitem_in_range b (Z.of_nat k)) as (bi & _ & ->);
        [unfold len; lia |].
      rewrite !res_bind_Ok. eauto.
    + destruct (getitem_in_range a (Z.of_nat (0 + length b))) as (ai & _ & ->);
        [unfold len; lia |].
      rewrite res_bind_Ok, getitem_beyond; [done | unfold len; lia].
Qed.

Lemma lerp_components_witness :
  ((length [1; 2; 3]%float <= length [3; 4; 5; 6]%float)%nat ->
   exists r, _lerp [1; 2; 3]%float [3; 4; 5; 6]%float 0.5%float = Ok r /\
     length r = length [1; 2; 3]%float /\
     forall i a_i b_i,
       [1; 2; 3]%float !! i = Some a_i -> [3; 4; 5; 6]%float !! i = Some b_i ->
       r !! i = Some (a_i + (b_i - a_i) * 0.5%float)%F) /\
  ((length [3; 4; 5; 6]%float < length [1; 2; 3]%float)%nat ->
   _lerp [1; 2; 3]%float [3; 4; 5; 6]%float 0.5%float = Raise IndexError).
Proof.
  apply (@lerp_components float float_scalar).
Defined.

Lemma tuple_of_getitem_map {A B} (l : list A) (g : A -> res B) (h : A -> B) :
  (forall x, x ∈ l -> g x = Ok (h x)) ->
  tuple_of (fun i => x ← getitem l i; g x) (range (length l)) = Ok (h <$> l).
Proof.
  intros Hg.
  destruct (tuple_of_total (fun i => x ← getitem l i; g x) (range (length l)))
    as (xs & Hxs & Hlen).
  { intros i Hi%elem_of_range.
    destruct (getitem_in_range l i) as (x & Hx & ->); [unfold len; lia |].
    rewrite res_bind_Ok, Hg; [eauto |]. by eapply list_elem_of_lookup_2. }
  rewrite Hxs. f_equal. rewrite length_range in Hlen.
  apply tuple_of_Ok_lookup in Hxs.
  apply list_eq. intros i. rewrite list_lookup_fmap.
  destruct (l !! i) as [x |] eqn:Hx; cbn.
  - assert (range (length l) !! i = Some (Z.of_nat i)) as Hi.
    { unfold range. rewrite list_lookup_fmap, lookup_seq_lt; [done |].
      by apply lookup_lt_Some in Hx. }
    destruct (Forall2_lookup_l _ _ _ _ _ Hxs Hi) as (y & -> & Hy).
    rewrite (getitem_lookup l (Z.of_nat i) x) in Hy
      by (rewrite ?Nat2Z.id; done || lia).
    rewrite res_bind_Ok, Hg in Hy by (by eapply list_elem_of_lookup_2).
    by simplify_eq.
  - apply lookup_ge_None in Hx. apply lookup_ge_None. lia.
Qed.

(** [_nlerp] on two quaternions never raises, and this is what it returns:
    [b] is negated when the dot product is negative, the blend [q] of [a]
    and that [b] is divided by its length, and a blend shorter than
    [1e-10] gives the identity quaternion instead; the test keeps a zero
    length away from the division. *)
Theorem nlerp_never_raises {F : Type} `{ScalarLaws F} (a b : list F) (t : F) :
  length a = 4%nat -> length b = 4%nat ->
  exists d q r,
    _quat_dot a b = Ok d /\
    _lerp a (if fltb d (of_int 0) then fneg <$> b else b) t = Ok q /\
    _nlerp a b t = Ok r /\ length r = 4%nat /\
    let length := fsqrt (py_sum ((fun c => c * c)%F <$> q)) in
    r = if fltb length ftiny then [of_int 0; of_int 0; of_int 0; of_int 1]
        else (fun c => c / length)%F <$> q.
Proof.
  intros Ha Hb. unfold _nlerp.
  destruct (quat_dot_total a b) as (d & Hd); [lia.. |].
  rewrite Hd, res_bind_Ok.
  assert ((if fltb d (of_int 0)
           then tuple_of (fun i => bi ← getitem b i; Ok (- bi)%F) (range 4)
           else Ok b) = Ok (if fltb d (of_int 0) then fneg <$> b else b)) as ->.
  { destruct (fltb d (of_int 0)); [| done].
    rewrite <- Hb. by apply tuple_of_getitem_map. }
  rewrite res_bind_Ok.
  set (b' := if fltb d (of_int 0) then fneg <$> b else b).
  assert (length b' = 4%nat)
    by (subst b'; destruct (fltb d _); by rewrite ?length_fmap).
  destruct (lerp_total a b' t) as (q & Hq & Hlq); [lia |].
  rewrite Hq, res_bind_Ok.
  exists d, q. cbv zeta.
  destruct (fltb _ ftiny) eqn:Htiny.
  { eexists. repeat split; done. }
  apply ftiny_guard in Htiny.
  rewrite (tuple_of_getitem_map q _
             (fun c => c / fsqrt (py_sum ((fun c => c * c)%F <$> q)))%F).
  - eexists. repeat split; try done. rewrite length_fmap. lia.
  - intros c _. unfold float_truediv. by rewrite Htiny.
Qed.

Lemma nlerp_never_raises_witness :
  exists d q r,
    _quat_dot [0; 0; 0; 1]%float [0; 0; 0; -1]%float = Ok d /\
    _lerp [0; 0; 0; 1]%float
      (if fltb d (of_int 0) then fneg <$> [0; 0; 0; -1]%float
       else [0; 0; 0; -1]%float) 0.5%float = Ok q /\
    _nlerp [0; 0; 0; 1]%float [0; 0; 0; -1]%float 0.5%float = Ok r /\
    length r = 4%nat /\
    let length := fsqrt (py_sum ((fun c => c * c)%F <$> q)) in
    r = if fltb length ftiny then [of_int 0; of_int 0; of_int 0; of_int 1]
        else (fun c => c / length)%F <$> q.
Proof.
  apply (@nlerp_never_raises float float_scalar float_laws); reflexivity.
Defined.

(** ** Further properties of the bone cache *)

Section CacheLemmas.
Context {F : Type} `{Scalar F}.

Lemma eval_uncached bones a t d n :
  forall i r c,
    evaluate_bone_transform n bones i a t d None = Some (r, c) -> c = None.
Proof.
  induction n as [| n IH]; intros i r c; [done |].
  rewrite eval_step. cbn [cache_get mbind option_bind].
  destruct (_ ≫= _) as [[bone local] | e]; [| by intros [= _ <-]].
  destruct (parent bone >=? 0); [| by intros [= _ <-]].
  destruct (evaluate_bone_transform n bones (parent bone) a t d None)
    as [[[pm | e] c1] |] eqn:Hp; [| | done].
  - apply IH in Hp as ->. by intros [= _ <-].
  - apply IH in Hp as ->. by intros [= _ <-].
Qed.

Lemma eval_deterministic bones a t d n n' i r r' c c' :
  evaluate_bone_transform n bones i a t d None = Some (r, c) ->
  evaluate_bone_transform n' bones i a t d None = Some (r', c') ->
  r = r'.
Proof.
  intros Hn Hn'.
  apply (eval_fuel_mono _ _ _ _ _ _ _ (n `max` n')%nat) in Hn; [| lia].
  apply (eval_fuel_mono _ _ _ _ _ _ _ (n `max` n')%nat) in Hn'; [| lia].
  congruence.
Qed.
End CacheLemmas.

(** Memoisation does not change the outcome: whatever the recursion over
    parents returns or raises without a cache, it returns or raises with a
    cache that holds world matrices of this frame, and the cache it leaves
    holds world matrices again. *)
Theorem cache_transparent {F : Type} `{Scalar F}
    (bones : list (Bone F)) (anim_index time_ms anim_duration : Z) (n : nat)
    (bone_index : Z) (cache : cache_t) (r : res (mat4 F)) :
  evaluate_bone_transform n bones bone_index anim_index time_ms anim_duration
    None = Some (r, None) ->
  cache_valid bones anim_index time_ms anim_duration cache ->
  exists cache',
    evaluate_bone_transform n bones bone_index anim_index time_ms
      anim_duration cache = Some (r, cache') /\
    cache_valid bones anim_index time_ms anim_duration cache'.
Proof.
  revert bone_index cache r.
  induction n as [| n IH]; intros i cache r Hun Hvalid; [done |].
  rewrite eval_step.
  destruct (cache_get cache i) as [world |] eqn:Hget.
  { destruct (Hvalid i world Hget) as (fuel & Hw).
    rewrite (eval_deterministic _ _ _ _ _ _ _ _ _ _ _ Hun Hw). eauto. }
  assert (is_world bones anim_index time_ms anim_duration i
            match r with Ok m => m | Raise _ => eye4 end \/ exists e, r = Raise e)
    as Hworld.
  { destruct r; [left; by exists (S n) | right; eauto]. }
  rewrite eval_step in Hun. cbn [cache_get mbind option_bind] in Hun.
  destruct (_ ≫= _) as [[bone local] | e];
    [| injection Hun as <-; eauto].
  destruct (parent bone >=? 0).
  - destruct (evaluate_bone_transform n bones (parent bone) anim_index time_ms
                anim_duration None) as [[rp cp] |] eqn:Hp; [| done].
    pose proof (eval_uncached _ _ _ _ _ _ _ _ Hp) as ->.
    destruct (IH _ cache _ Hp Hvalid) as (c1 & -> & Hv1).
    destruct rp as [pm | e]; injection Hun as <-; [| eauto].
    eexists. split; [done |].
    destruct Hworld as [Hw | (? & ?)]; [| done].
    by apply cache_valid_put.
  - injection Hun as <-. eexists. split; [done |].
    destruct Hworld as [Hw | (? & ?)]; [| done].
    by apply cache_valid_put.
Qed.

Lemma cache_transparent_witness :
  exists r cache',
    evaluate_bone_transform 2 two_bones 1 0 50 0 None = Some (r, None) /\
    evaluate_bone_transform 2 two_bones 1 0 50 0 empty_cache
      = Some (r, cache') /\
    cache_valid two_bones 0 50 0 cache'.
Proof.
  destruct (eval_cached two_bones 0 50 0 2 two_bones_wf ltac:(lia) 1 None
              eq_refl) as (world & c & Hun & _).
  pose proof (eval_uncached _ _ _ _ _ _ _ _ Hun) as ->.
  destruct (@cache_transparent float float_scalar two_bones 0 50 0 2 1
              empty_cache (Ok world) Hun) as (cache' & Hc & Hv).
  { intros j m Hj. done. }
  exists (Ok world), cache'. done.
Defined.

(** The cache only grows, and a matrix that is returned is stored under
    the bone's index: entries that were in the cache are still there with
    the same matrix after the call, whether it returns or raises. *)
Theorem cache_grows {F : Type} `{Scalar F}
    (bones : list (Bone F)) (anim_index time_ms anim_duration : Z) (n : nat)
    (bone_index : Z) (c : gmap Z (mat4 F)) (r : res (mat4 F))
    (cache' : cache_t) :
  evaluate_bone_transform n bones bone_index anim_index time_ms anim_duration
    (Some c) = Some (r, cache') ->
  exists c', cache' = Some c' /\ c ⊆ c' /\
    forall world, r = Ok world -> c' !! bone_index = Some world.
Proof.
  revert bone_index c r cache'.
  induction n as [| n IH]; intros i c r cache'; [done |].
  rewrite eval_step. cbn [cache_get mbind option_bind].
  destruct (c !! i) as [world |] eqn:Hget.
  { intros [= <- <-]. exists c. split; [done |]. split; [done |].
    by intros ? [= <-]. }
  destruct (_ ≫= _) as [[bone local] | e].
  2: { intros [= <- <-]. exists c. split; [done |]. split; done. }
  destruct (parent bone >=? 0).
  - destruct (evaluate_bone_transform n bones (parent bone) anim_index time_ms
                anim_duration (Some c)) as [[rp cp] |] eqn:Hp; [| done].
    destruct (IH _ _ _ _ Hp) as (c1 & -> & Hsub & _).
    destruct rp as [pm | e]; intros [= <- <-].
    + eexists. split; [done |]. split.
      * by apply insert_subseteq_r.
      * intros ? [= <-]. apply lookup_insert_eq.
    + exists c1. split; [done |]. split; done.
  - intros [= <- <-]. eexists. split; [done |]. split.
    + by apply insert_subseteq_r.
    + intros ? [= <-]. apply lookup_insert_eq.
Qed.

Lemma cache_grows_witness :
  exists r cache' c',
    evaluate_bone_transform 2 two_bones 1 0 50 0 (Some ∅) = Some (r, cache') /\
    cache' = Some c' /\ ∅ ⊆ c' /\
    forall world, r = Ok world -> c' !! 1 = Some world.
Proof.
  destruct (eval_cached two_bones 0 50 0 2 two_bones_wf ltac:(lia) 1 (Some ∅)
              eq_refl) as (world & cache' & Heq & _).
  destruct (@cache_grows float float_scalar two_bones 0 50 0 2 1 ∅ (Ok world)
              cache' Heq) as (c' & Hc & Hsub & Hst).
  exists (Ok world), cache', c'. done.
Defined.

(** ** Further properties of the texture resolver *)

Lemma scan_blp_inv model_base blps st blp :
  scan_inv model_base blps st -> blp ∈ blps ->
  scan_inv model_base blps
    (scan_blp (lower model_base) (lower (model_base ++ "skin")) st blp).
Proof.
  intros (Hb & He & Hp) Hin. unfold scan_blp.
  case_bool_decide.
  { split; [exact Hb |]. split; [exact He |]. cbn. by intros ? [= <-]. }
  destruct (startswith _ _) eqn:Hskin; cbn [negb].
  2: { split; [exact Hb |]. split; [exact He |]. cbn.
       destruct (plain_texture st) eqn:Hpl; intros ? [= <-]; eauto. }
  destruct (endswith _ _) eqn:Hextra.
  - split; [exact Hb |]. split; [| exact Hp]. cbn. intros k f.
    intros [[_ <-] | [_ Hk]]%lookup_insert_Some; [done | by eapply He].
  - split; [| split; [exact He | exact Hp]]. cbn. intros k f.
    intros [[_ <-] | [_ Hk]]%lookup_insert_Some; [done | by eapply Hb].
Qed.

Lemma scan_blps_inv model_base blps :
  scan_inv model_base blps (scan_blps model_base blps).
Proof.
  unfold scan_blps.
  assert (forall l st, (forall x, x ∈ l -> x ∈ blps) ->
            scan_inv model_base blps st ->
            scan_inv model_base blps
              (foldl (scan_blp (lower model_base) (lower (model_base ++ "skin")))
                     st l)) as Hgen.
  { induction l as [| x l IH]; intros st Hl Hst; [done |]. cbn.
    apply IH.
    - intros y Hy. apply Hl. by right.
    - apply scan_blp_inv; [done |]. apply Hl. by left. }
  apply Hgen; [done |]. by repeat split.
Qed.

Lemma elem_of_blp_candidates m2_dir model_base entries f :
  f ∈ blp_candidates m2_dir (lower model_base) entries <->
  is_candidate m2_dir model_base entries f.
Proof.
  unfold blp_candidates, is_candidate.
  rewrite sorted_perm, list_elem_of_filter, list_elem_of_fmap. split.
  - intros ((? & ?) & entry & -> & ?). by exists entry.
  - intros (entry & ? & -> & ? & ?). split; [done |]. by exists entry.
Qed.

(** The result of the naming strategy is one of five shapes. *)
Lemma find_texture_files_shape fs m2_dir model_base entries tex_map :
  is_dir fs m2_dir = Ok true ->
  iterdir fs m2_dir = Ok entries ->
  _find_texture_files fs m2_dir model_base = Ok tex_map ->
  let blps := blp_candidates m2_dir (lower model_base) entries in
  let st := scan_blps model_base blps in
  (exists kb ke b e, base_skins st !! kb = Some b /\
     extra_skins st !! ke = Some e /\ tex_map = <[8 := e]> (<[1 := b]> ∅)) \/
  (exists kb b, base_skins st !! kb = Some b /\ tex_map = <[1 := b]> ∅) \/
  (exists ke e, extra_skins st !! ke = Some e /\ tex_map = <[8 := e]> ∅) \/
  (exists f, f ∈ blps /\ tex_map = <[11 := f]> ∅) \/
  (blps = [] /\ tex_map = ∅).
Proof.
  intros Hdir Hls Hfind blps st. revert Hfind.
  unfold _find_texture_files. rewrite Hdir, res_bind_Ok. cbn [negb].
  rewrite Hls, res_bind_Ok. fold blps. fold st.
  pose proof (scan_blps_inv model_base blps) as (_ & _ & Hplain). fold st in Hplain.
  clearbody st.
  assert (forall (x : Path) (m : gmap Z Path) (k : Z),
            bool_decide (<[k := x]> m = ∅) = false) as Hne
    by (intros; apply bool_decide_eq_false_2, insert_non_empty).
  destruct (paired_keys st) as [| key rest] eqn:Hkeys.
  - destruct (keys_descending (base_skins st)) as [| kb ?] eqn:Hkb;
      [| destruct (keys_descending_head _ _ _ Hkb) as (b & Hb & ->)];
      (destruct (keys_descending (extra_skins st)) as [| ke ?] eqn:Hke;
       [| destruct (keys_descending_head _ _ _ Hke) as (e & He & ->)]);
      rewrite !res_bind_Ok.
    + rewrite (bool_decide_eq_true_2 (∅ = ∅)) by done.
      destruct (plain_texture st) as [plain |] eqn:Hpl.
      * rewrite Hne. intros [= <-]. right; right; right; left.
        exists plain. split; [by apply Hplain | done].
      * rewrite (bool_decide_eq_true_2 (∅ = ∅)) by done.
        destruct blps as [| blp ?]; intros [= <-].
        -- by right; right; right; right.
        -- right; right; right; left. exists blp. split; [by left | done].
    + destruct (plain_texture st); rewrite !Hne; intros [= <-];
        right; right; left; eauto.
    + destruct (plain_texture st); rewrite !Hne; intros [= <-];
        right; left; eauto.
    + destruct (plain_texture st); rewrite !Hne; intros [= <-];
        left; eauto 10.
  - apply sorted_reverse_head in Hkeys as [Hin _].
    apply elem_of_elements, elem_of_intersection in Hin as [Hb He].
    destruct (dict_get_dom _ _ Hb) as (b & Hbk & ->).
    destruct (dict_get_dom _ _ He) as (e & Hek & ->).
    rewrite !res_bind_Ok.
    destruct (plain_texture st); rewrite !Hne; intros [= <-]; left; eauto 10.
Qed.

(** The naming strategy returns only what it found: every file of the
    result is a [.blp] entry of the directory whose stem starts with the
    model's base name, under one of the types 1, 8 and 11; type 1 is a
    [{ModelBase}Skin...] file that does not end in [_extra], type 8 one
    that does; and type 11 is bound only when types 1 and 8 are not. *)
Theorem find_texture_files_sound (fs : FileSystem) (m2_dir : Path)
    (model_base : string) (tex_map : gmap Z Path) :
  _find_texture_files fs m2_dir model_base = Ok tex_map ->
  (forall k f, tex_map !! k = Some f ->
     (k = 1 \/ k = 8 \/ k = 11) /\
     exists entries, iterdir fs m2_dir = Ok entries /\
                     is_candidate m2_dir model_base entries f) /\
  (forall f, tex_map !! 1 = Some f ->
     is_skin model_base f /\
     endswith (skin_suffix model_base f) "_extra" = false) /\
  (forall f, tex_map !! 8 = Some f ->
     is_skin model_base f /\
     endswith (skin_suffix model_base f) "_extra" = true) /\
  (is_Some (tex_map !! 11) -> tex_map !! 1 = None /\ tex_map !! 8 = None).
Proof.
  intros Hfind.
  destruct (is_dir fs m2_dir) as [[|] | e] eqn:Hdir.
  2: { unfold _find_texture_files in Hfind. rewrite Hdir in Hfind.
       cbn in Hfind. injection Hfind as <-.
       repeat split; try done; by intros [? ?]. }
  2: { unfold _find_texture_files in Hfind. by rewrite Hdir in Hfind. }
  destruct (iterdir fs m2_dir) as [entries | e] eqn:Hls.
  2: { unfold _find_texture_files in Hfind.
       by rewrite Hdir, res_bind_Ok, Hls in Hfind. }
  pose proof (scan_blps_inv model_base
                (blp_candidates m2_dir (lower model_base) entries))
    as (Hbase & Hextra & _).
  assert (forall f, f ∈ blp_candidates m2_dir (lower model_base) entries ->
            is_candidate m2_dir model_base entries f) as Hcand.
  { by intros f Hf%elem_of_blp_candidates. }
  destruct (find_texture_files_shape _ _ _ _ _ Hdir Hls Hfind)
    as [(kb & ke & b & e & Hb & He & ->) | [(kb & b & Hb & ->) |
        [(ke & e & He & ->) | [(f & Hf & ->) | (_ & ->)]]]];
    try destruct (Hbase _ _ Hb) as (Hbin & ? & ?);
    try destruct (Hextra _ _ He) as (Hein & ? & ?);
    clear Hbase Hextra Hfind;
    try apply Hcand in Hbin; try apply Hcand in Hein; try apply Hcand in Hf;
    clear Hcand;
    (split; [intros k f' Hk | split; [intros f' Hk | split;
       [intros f' Hk | intros [f' Hk]]]]);
    rewrite ?lookup_insert_Some, ?lookup_empty in Hk;
    rewrite ?lookup_insert_None, ?lookup_empty;
    repeat match goal with
           | H : _ \/ _ |- _ => destruct H
           | H : _ /\ _ |- _ => destruct H
           end;
    simplify_eq; try done; eauto 10.
Qed.

Lemma find_texture_files_sound_witness :
  let tex_map : gmap Z Path :=
    <[8 := path_child hero_dir "HeroSkin00_Extra.blp"]>
      (<[1 := path_child hero_dir "HeroSkin00.blp"]> ∅) in
  (forall k f, tex_map !! k = Some f ->
     (k = 1 \/ k = 8 \/ k = 11) /\
     exists entries, iterdir (hero_fs hero_files) hero_dir = Ok entries /\
                     is_candidate hero_dir "Hero" entries f) /\
  (forall f, tex_map !! 1 = Some f ->
     is_skin "Hero" f /\ endswith (skin_suffix "Hero" f) "_extra" = false) /\
  (forall f, tex_map !! 8 = Some f ->
     is_skin "Hero" f /\ endswith (skin_suffix "Hero" f) "_extra" = true) /\
  (is_Some (tex_map !! 11) -> tex_map !! 1 = None /\ tex_map !! 8 = None).
Proof.
  apply (find_texture_files_sound (hero_fs hero_files) hero_dir "Hero").
  vm_compute. reflexivity.
Defined.

(** In a directory that can be listed the naming strategy comes back
    empty-handed only when no entry is a candidate: one [.blp] file whose
    stem starts with the model's base name is enough for a result. *)
Theorem find_texture_files_empty_iff (fs : FileSystem) (m2_dir : Path)
    (model_base : string) (entries : list string) :
  is_dir fs m2_dir = Ok true ->
  iterdir fs m2_dir = Ok entries ->
  exists tex_map,
    _find_texture_files fs m2_dir model_base = Ok tex_map /\
    (tex_map = ∅ <-> forall f, ~ is_candidate m2_dir model_base entries f).
Proof.
  intros Hdir Hls.
  destruct (find_texture_files_total fs m2_dir model_base true entries Hdir Hls)
    as (tex_map & Hfind).
  exists tex_map. split; [done |].
  destruct (find_texture_files_shape _ _ _ _ _ Hdir Hls Hfind)
    as [(kb & ke & b & e & Hb & He & ->) | [(kb & b & Hb & ->) |
        [(ke & e & He & ->) | [(f & Hf & ->) | (Hnil & ->)]]]].
  1-4: split; [by intros ?%insert_non_empty | intros Hnone; exfalso].
  - destruct (scan_blps_inv model_base
                (blp_candidates m2_dir (lower model_base) entries))
      as (Hbase & _).
    destruct (Hbase _ _ Hb) as (Hin%elem_of_blp_candidates & _).
    by eapply Hnone.
  - destruct (scan_blps_inv model_base
                (blp_candidates m2_dir (lower model_base) entries))
      as (Hbase & _).
    destruct (Hbase _ _ Hb) as (Hin%elem_of_blp_candidates & _).
    by eapply Hnone.
  - destruct (scan_blps_inv model_base
                (blp_candidates m2_dir (lower model_base) entries))
      as (_ & Hextra & _).
    destruct (Hextra _ _ He) as (Hin%elem_of_blp_candidates & _).
    by eapply Hnone.
  - apply elem_of_blp_candidates in Hf. by eapply Hnone.
  - split; [| done]. intros _ f Hf%elem_of_blp_candidates.
    rewrite Hnil in Hf. by apply elem_of_nil in Hf.
Qed.

Lemma find_texture_files_empty_iff_witness :
  exists tex_map,
    _find_texture_files (hero_fs ["HeroEye.blp"; "notes.txt"]) hero_dir "Hero"
      = Ok tex_map /\
    (tex_map = ∅ <->
     forall f, ~ is_candidate hero_dir "Hero" ["HeroEye.blp"; "notes.txt"] f).
Proof.
  apply (find_texture_files_empty_iff (hero_fs ["HeroEye.blp"; "notes.txt"])
           hero_dir "Hero"); reflexivity.
Defined.

(** The walk over the ancestors asks every ancestor until one has the
    file or the question raises: the test [parent == parent.parent] holds
    for the last ancestor only. *)
Lemma walk_parents_find fs tex_norm (local_dir : Path) :
  walk_parents fs tex_norm (path_parents local_dir)
    = first_existing fs tex_norm (path_parents local_dir).
Proof.
  unfold path_parents.
  assert (forall n, (n <= length (parts local_dir))%nat ->
            walk_parents fs tex_norm
              ((fun k => {| anchored := anchored local_dir;
                            parts := take k (parts local_dir) |})
                 <$> rev (seq 0 n))
            = first_existing fs tex_norm
                ((fun k => {| anchored := anchored local_dir;
                              parts := take k (parts local_dir) |})
                   <$> rev (seq 0 n))) as Hgen.
  { induction n as [| n IH]; intros Hn; [done |].
    rewrite seq_S, rev_app_distr. cbn.
    destruct (path_exists fs _) as [[|] | e]; [done | | done].
    rewrite !res_bind_Ok.
    case_bool_decide as Heq; [| apply IH; lia].
    unfold path_parent in Heq. cbn in Heq. injection Heq as Heq.
    destruct n as [| n]; [done |].
    exfalso. rewrite removelast_firstn in Heq by lia.
    apply (f_equal length) in Heq.
    rewrite !length_take_le in Heq by lia. lia. }
  by apply Hgen.
Qed.

(** [_resolve_texture_path] searches in a fixed order: the first listed
    entry of the local directory whose name is the texture's file name,
    letter case aside, wins whatever lies elsewhere, and no ancestor is
    asked.  Without one, the ancestors of the local directory are asked,
    nearest first, whether the texture's full path exists under them: the
    first that has it gives the result, a question that raises ends the
    search with its error, and the result is [None] when every ancestor
    says no. *)
Theorem resolve_texture_path_search (fs : FileSystem) (tex_path : string)
    (local_dir : Path) (entries : list string) :
  iterdir fs local_dir = Ok entries ->
  let tex_norm := replace_char "\" "/" tex_path in
  _resolve_texture_path fs tex_path local_dir =
    match filter (fun entry => lower entry
                               = lower (path_name (Path_of tex_norm)))
                 entries with
    | entry :: _ => Ok (Some (path_child local_dir entry))
    | [] => first_existing fs tex_norm (path_parents local_dir)
    end.
Proof.
  intros Hls tex_norm. unfold _resolve_texture_path. fold tex_norm.
  rewrite Hls, res_bind_Ok, walk_parents_find.
  generalize (first_existing fs tex_norm (path_parents local_dir)) as fallback.
  intros fallback.
  induction entries as [| entry entries IH] in |- *; [done |].
  assert (path_name (path_child local_dir entry) = entry) as Hname
    by (unfold path_name, path_child; cbn; apply last_last).
  cbn [fmap list_fmap List.find]. rewrite Hname.
  rewrite filter_cons.
  destruct (decide (lower entry = lower (path_name (Path_of tex_norm))))
    as [Heq | Hne].
  - by rewrite bool_decide_eq_true_2.
  - rewrite bool_decide_eq_false_2 by done. apply IH.
Qed.

Lemma resolve_texture_path_search_witness :
  _resolve_texture_path bear_fs "Creature\Bear\BearSkin.blp"
    (Path_of "proj/Models") =
    match filter (fun entry =>
                    lower entry
                    = lower (path_name (Path_of
                        (replace_char "\" "/" "Creature\Bear\BearSkin.blp"))))
                 ["Bear.m2"] with
    | entry :: _ => Ok (Some (path_child (Path_of "proj/Models") entry))
    | [] => first_existing bear_fs
              (replace_char "\" "/" "Creature\Bear\BearSkin.blp")
              (path_parents (Path_of "proj/Models"))
    end.
Proof.
  apply (resolve_texture_path_search bear_fs "Creature\Bear\BearSkin.blp"
           (Path_of "proj/Models") ["Bear.m2"]).
  reflexivity.
Defined.

(** The search on three file systems: the file under the first ancestor, a
    refused question, and a local entry that is found before any ancestor
    is asked. *)
Example resolve_texture_path_cases :
  _resolve_texture_path bear_fs "Creature\Bear\BearSkin.blp"
    (Path_of "proj/Models")
    = Ok (Some (Path_of "proj/Creature/Bear/BearSkin.blp")) /\
  first_existing guarded_fs "Creature/Hero/Eye.blp" (path_parents hero_dir)
    = Raise OSError /\
  _resolve_texture_path guarded_fs "Creature\Hero\HEROSKIN01.BLP" hero_dir
    = Ok (Some (path_child hero_dir "HeroSkin01.blp")).
Proof. repeat split; vm_compute; reflexivity. Qed.

(** A run of the loop over the declared slots that does not raise leaves
    the keys outside the slots as they were and binds each slot to what it
    resolves to. *)
Lemma resolve_slots_Ok fs m2_dir by_type :
  forall texs tex_files i m,
    resolve_slots fs m2_dir by_type tex_files i texs = Ok m ->
    (forall k, k < i \/ i + len texs <= k -> m !! k = tex_files !! k) /\
    ((forall k, i <= k -> tex_files !! k = None) ->
     forall j tex, texs !! j = Some tex ->
                   m !! (i + Z.of_nat j) = slot_target fs m2_dir by_type tex).
Proof.
  induction texs as [| tex texs IH]; intros tex_files i m.
  { cbn. intros [= <-]. split; [done |]. intros _ j tex Hj.
    by rewrite lookup_nil in Hj. }
  cbn [resolve_slots].
  destruct (resolve_slot _ _ _ _ _ _) as [acc | e] eqn:Hslot; [| done].
  rewrite res_bind_Ok. apply resolve_slot_Ok in Hslot.
  intros (Hout & Hin)%IH.
  assert (forall k, k <> i -> acc !! k = tex_files !! k) as Hother.
  { intros k Hk. subst acc. destruct (slot_target _ _ _ _); [| done].
    by rewrite lookup_insert_ne. }
  split.
  - intros k Hk. unfold len in *. cbn [length] in Hk.
    rewrite Hout by (unfold len; lia). apply Hother. lia.
  - intros Hfresh [| j] tex' Hj.
    + cbn in Hj. simplify_eq. rewrite Z.add_0_r, Hout by lia.
      destruct (slot_target _ _ _ _); [apply lookup_insert_eq |].
      apply Hfresh. lia.
    + cbn in Hj. rewrite <- (Hin ltac:(intros k Hk; rewrite Hother by lia;
                                        apply Hfresh; lia) j tex' Hj).
      f_equal. lia.
Qed.

(** With a texture table, [_resolve_textures] binds table indices only:
    a key of the result is the position of a declared texture, and its
    value is what that texture resolves to, with the naming strategy run
    on the base name of this model. *)
Theorem resolve_textures_keys {F : Type} (fs : FileSystem) (m2 : M2File F)
    (m2_path : string) (tex_files : gmap Z Path) (k : Z) (f : Path) :
  let m2_dir := path_parent (Path_of m2_path) in
  textures m2 <> [] ->
  _resolve_textures fs m2 m2_path = Ok tex_files ->
  tex_files !! k = Some f ->
  0 <= k < len (textures m2) /\
  exists tex by_type,
    textures m2 !! Z.to_nat k = Some tex /\
    _find_texture_files fs m2_dir (model_base_of m2 m2_path) = Ok by_type /\
    slot_target fs m2_dir by_type tex = Some f.
Proof.
  intros m2_dir Hne. unfold _resolve_textures. fold m2_dir. cbv zeta.
  destruct (_find_texture_files fs _ _) as [by_type | e] eqn:Hfind; [| done].
  rewrite res_bind_Ok.
  destruct (textures m2) as [| tex0 texs0] eqn:Htexs; [done |].
  rewrite <- Htexs. clear Htexs Hne tex0 texs0.
  intros Hres Hk.
  destruct (resolve_slots_Ok fs _ by_type _ _ _ _ Hres) as (Hout & Hslots).
  assert (0 <= k < len (textures m2)) as Hrange.
  { destruct (decide (0 <= k < len (textures m2))); [done |].
    rewrite Hout, lookup_empty in Hk by lia. done. }
  split; [done |].
  destruct (getitem_in_range (textures m2) k) as (tex & Htex & _); [done |].
  exists tex, by_type. split; [done |]. split; [done |].
  rewrite <- Hk, <- (Hslots ltac:(intros; apply lookup_empty) _ _ Htex).
  f_equal. lia.
Qed.

Lemma resolve_textures_keys_witness :
  0 <= 0 < len (textures hero_m2) /\
  exists tex by_type,
    textures hero_m2 !! Z.to_nat 0 = Some tex /\
    _find_texture_files (hero_fs hero_files)
      (path_parent (Path_of "/models/hero/Hero.m2"))
      (model_base_of hero_m2 "/models/hero/Hero.m2") = Ok by_type /\
    slot_target (hero_fs hero_files) (path_parent (Path_of "/models/hero/Hero.m2"))
      by_type tex = Some (path_child hero_dir "HeroSkin00.blp").
Proof.
  apply (@resolve_textures_keys float (hero_fs hero_files) hero_m2
           "/models/hero/Hero.m2"
           {[ 0 := path_child hero_dir "HeroSkin00.blp" ]}).
  - done.
  - vm_compute. reflexivity.
  - reflexivity.
Defined.
